(** * Document-to-assessment pipeline of english-elearning

    A shallow embedding of

      - [backend/app/utils/file_parser.py]   ([clean_text]) and
      - [backend/app/utils/question_generator.py]
        ([extract_keywords], the four question synthesizers and
        [generate_all_questions])

    together with the properties the specification states about them.

    Conventions of the embedding.

      - A Python [str] is a [list ascii]; a character is a code point in
        0..255 (the Latin-1 block of Unicode) and is classified the way
        CPython classifies that code point ([str.isspace], [str.isalpha],
        the [\s] and [\w] classes of [re]).
      - A Python [int] is a [Z].
      - The NLTK functions ([word_tokenize], [sent_tokenize]) and the NLTK
        stopword list are not part of the repository: they are parameters
        of the development (class [Nltk]).
      - The ambient generator of the [random] module is an explicit
        stream of draws threaded through the code ([rng]).
      - A raised exception is a value of [exn]. *)

From Stdlib Require Import ZArith Lia List Ascii String Bool Permutation.
From Stdlib Require Import DecimalString.
From stdpp Require Import base gmap strings list.
Import ListNotations.

Local Open Scope nat_scope.
Local Open Scope list_scope.

(** ** Characters and strings *)

Abbreviation str := (list ascii).

(** Literals are written [py "text"]. *)
Definition py (s : string) : str := list_ascii_of_string s.

Definition code (c : ascii) : nat := nat_of_ascii c.

Definition between (lo hi : nat) (c : ascii) : bool :=
  (lo <=? code c) && (code c <=? hi).

(** [str.isspace] on one character, which is also the class [\s] of a
    [str] pattern: TAB..CR, FS..US, SPACE, NEL and NBSP. *)
Definition isspace_char (c : ascii) : bool :=
  between 9 13 c || between 28 32 c || (code c =? 133) || (code c =? 160).

(** [str.isalpha] on one character: the ASCII letters and the letters of
    the Latin-1 supplement. *)
Definition isalpha_char (c : ascii) : bool :=
  between 65 90 c || between 97 122 c
  || (code c =? 170) || (code c =? 181) || (code c =? 186)
  || between 192 214 c || between 216 246 c || between 248 255 c.

(** [str.isalnum] on one character: letters, decimal digits, and the
    superscript digits and vulgar fractions of Latin-1. *)
Definition isalnum_char (c : ascii) : bool :=
  isalpha_char c || between 48 57 c
  || (code c =? 178) || (code c =? 179) || (code c =? 185)
  || between 188 190 c.

(** The class [\w] of a [str] pattern: alphanumerics and the underscore. *)
Definition isword_char (c : ascii) : bool :=
  isalnum_char c || (code c =? 95).

(** [str.lower] on one character. *)
Definition lower_char (c : ascii) : ascii :=
  if between 65 90 c || between 192 214 c || between 216 222 c
  then ascii_of_nat (code c + 32) else c.

(** [s.lower()] *)
Definition lower (s : str) : str := map lower_char s.

(** [s.isalpha()]: at least one character and all of them letters. *)
Definition isalpha (s : str) : bool :=
  match s with
  | [] => false
  | _ => forallb isalpha_char s
  end.

Definition str_eqb (a b : str) : bool := bool_decide (a = b).

(** [x in l] for a list (or set) of strings. *)
Definition mem (x : str) (l : list str) : bool := existsb (str_eqb x) l.

(** ** file_parser.py: [clean_text] *)

Module FileParser.

(** [re.sub(r'\s+', ' ', s)]: every maximal run of whitespace becomes one
    space. [in_run] tells that the previous character belonged to the run
    being replaced. *)
Fixpoint sub_spaces (in_run : bool) (s : str) : str :=
  match s with
  | [] => []
  | c :: s' =>
      if isspace_char c
      then (if in_run then sub_spaces true s'
            else " "%char :: sub_spaces true s')
      else c :: sub_spaces false s'
  end.

(** The punctuation the character class of the second pattern lists:
    full stop, comma, exclamation and question mark, semicolon, colon,
    apostrophe, double quote (code 34) and hyphen. *)
Definition ispunct_listed (c : ascii) : bool :=
  existsb (Ascii.eqb c)
    ["."%char; ","%char; "!"%char; "?"%char; ";"%char; ":"%char;
     "'"%char; "034"%char; "-"%char].

(** A character the negated class of the second pattern does NOT match:
    a word character, whitespace or listed punctuation. *)
Definition kept_char (c : ascii) : bool :=
  isword_char c || isspace_char c || ispunct_listed c.

(** The second [re.sub]: every character that is not kept becomes a
    space. *)
Definition sub_special (s : str) : str :=
  map (fun c => if kept_char c then c else " "%char) s.

(** [s.lstrip()] *)
Fixpoint lstrip (s : str) : str :=
  match s with
  | [] => []
  | c :: s' => if isspace_char c then lstrip s' else s
  end.

(** [s.rstrip()]: a character is dropped when it is whitespace and nothing
    of what follows it survives. *)
Fixpoint rstrip (s : str) : str :=
  match s with
  | [] => []
  | c :: s' =>
      match rstrip s' with
      | [] => if isspace_char c then [] else [c]
      | r => c :: r
      end
  end.

(** [s.strip()] *)
Definition strip (s : str) : str := rstrip (lstrip s).

Definition clean_text (text : str) : str :=
  let text := sub_spaces false text in
  let text := sub_special text in
  let text := sub_spaces false text in
  strip text.

End FileParser.

(** *** The shape of normalized text *)

Module Normalized.
Import FileParser.

(** [tidy after_space s]: the only whitespace in [s] is the space
    character and no space follows a space ([after_space] tells that a
    space stands just before [s]). *)
Fixpoint tidy (after_space : bool) (s : str) : bool :=
  match s with
  | [] => true
  | c :: s' =>
      if isspace_char c
      then Ascii.eqb c " " && negb after_space && tidy true s'
      else tidy false s'
  end.

Definition edge_ok (o : option ascii) : Prop :=
  forall c, o = Some c -> isspace_char c = false.

(** What [clean_text] returns: kept characters only, single spaces, none
    of them first or last. *)
Definition normal (s : str) : Prop :=
  tidy false s = true /\ Forall (fun c => kept_char c = true) s
  /\ edge_ok (head s) /\ edge_ok (last s).

(** A character [clean_text] copies: kept, and not whitespace. *)
Definition solid (c : ascii) : bool :=
  kept_char c && negb (isspace_char c).

Definition starts_solid (s : str) : bool :=
  match s with
  | c :: _ => solid c
  | [] => false
  end.

(** [c] put in front of the runs of what follows it: into the first run
    when that run starts right after [c], as a run of its own otherwise. *)
Definition push (c : ascii) (joined : bool) (runs : list str) : list str :=
  if joined
  then match runs with
       | w :: ws => (c :: w) :: ws
       | [] => [[c]]
       end
  else [c] :: runs.

(** The maximal runs of copied characters of a text, left to right: what
    is left when whitespace and characters that are not kept are taken as
    separators. *)
Fixpoint solid_runs (s : str) : list str :=
  match s with
  | [] => []
  | c :: s' =>
      if solid c then push c (starts_solid s') (solid_runs s')
      else solid_runs s'
  end.

(** The runs with one space between neighbours. *)
Fixpoint join_space (runs : list str) : str :=
  match runs with
  | [] => []
  | w :: ws =>
      match ws with
      | [] => w
      | _ => w ++ " "%char :: join_space ws
      end
  end.

(** The character set the specification names:
    letters and digits of ASCII, the space and the listed punctuation. *)
Definition spec_charset (c : ascii) : bool :=
  between 65 90 c || between 97 122 c || between 48 57 c
  || Ascii.eqb c " " || ispunct_listed c.

End Normalized.

(** ** External collaborators *)

(** What the code imports from NLTK. [stop_words] is
    [stopwords.words('english')]. *)
Class Nltk := {
  word_tokenize : str -> list str;
  sent_tokenize : str -> list str;
  stop_words : list str
}.

(** The exceptions the modelled code can raise. *)
Inductive exn :=
| KeyError (key : string)
| ValueError
| IndexError.

Inductive result (A : Type) :=
| Ok (a : A)
| Raise (e : exn).
Arguments Ok {A} a.
Arguments Raise {A} e.

(** The random source: the stream of numbers the generator will hand out.
    [randbelow n] takes the next one, reduced below [n]; the code only
    calls it with [0 < n]. *)
Definition rng := nat -> nat.

(** Code that draws random numbers and may raise. *)
Definition M (A : Type) : Type := rng -> result (A * rng).

#[global] Instance M_ret : MRet M := fun A a r => Ok (a, r).
#[global] Instance M_bind : MBind M := fun A B f m r =>
  match m r with
  | Ok (a, r') => f a r'
  | Raise e => Raise e
  end.

Definition raise {A} (e : exn) : M A := fun _ => Raise e.

(** The outcome of a computation, without the state of the random source
    it leaves behind. *)
Definition eval {A} (m : M A) (r : rng) : result A :=
  match m r with
  | Ok (a, _) => Ok a
  | Raise e => Raise e
  end.

Module Random.

Definition randbelow (n : nat) : M nat :=
  fun r => Ok (r 0 mod n, fun i => r (S i)).

(** [random.choice(seq)] is [seq[randbelow(len(seq))]]; an empty [seq]
    raises IndexError. *)
Definition choice {A} (seq : list A) : M A :=
  match seq with
  | [] => raise IndexError
  | _ => j ← randbelow (length seq);
         match seq !! j with
         | Some x => mret x
         | None => raise IndexError
         end
  end.

(** [x[i], x[j] = x[j], x[i]] *)
Definition swap {A} (x : list A) (i j : nat) : list A :=
  match x !! i, x !! j with
  | Some a, Some b => <[j := a]> (<[i := b]> x)
  | _, _ => x
  end.

(** The loop of [random.shuffle]:
    [for i in reversed(range(1, len(x))): j = randbelow(i + 1); swap]. *)
Fixpoint shuffle_loop {A} (i : nat) (x : list A) : M (list A) :=
  match i with
  | 0 => mret x
  | S i' => j ← randbelow (i + 1); shuffle_loop i' (swap x i j)
  end.

Definition shuffle {A} (x : list A) : M (list A) :=
  shuffle_loop (length x - 1) x.

(** The selection loop of [random.sample] over a pool:
    [j = randbelow(n - i); result[i] = pool[j]; pool[j] = pool[n - i - 1]].
    The live part of the pool, [pool[0 : n - i]], is the argument. *)
Fixpoint sample_loop {A} (k : nat) (pool : list A) : M (list A) :=
  match k with
  | 0 => mret []
  | S k' =>
      let m := length pool in
      j ← randbelow m;
      match pool !! j, pool !! (m - 1) with
      | Some x, Some y =>
          rest ← sample_loop k' (take (m - 1) (<[j := y]> pool));
          mret (x :: rest)
      | _, _ => raise IndexError
      end
  end.

(** [random.sample(population, k)]. CPython selects from a pool as above
    when the population is small and by rejection of repeated indices when
    it is large; either way the result holds the items at [k] pairwise
    distinct positions, in the order drawn, and every such choice is the
    outcome of the pool loop for some stream of draws. *)
Definition sample {A} (population : list A) (k : Z) : M (list A) :=
  if ((k <? 0) || (Z.of_nat (length population) <? k))%Z
  then raise ValueError
  else sample_loop (Z.to_nat k) population.

End Random.

(** ** Python built-ins the generator uses *)

(** [l[:n]] *)
Definition slice_to {A} (l : list A) (n : Z) : list A :=
  if (n <? 0)%Z then take (length l - Z.to_nat (- n)) l
  else take (Z.to_nat n) l.

(** [str(n)] for a non-negative [n] *)
Definition str_of_nat (n : nat) : str :=
  list_ascii_of_string (NilZero.string_of_uint (Nat.to_uint n)).

(** [s.startswith(p)] *)
Fixpoint startswith (p s : str) : bool :=
  match p, s with
  | [], _ => true
  | _ :: _, [] => false
  | a :: p', b :: s' => Ascii.eqb a b && startswith p' s'
  end.

(** [s.replace(old, new, 1)]: the leftmost occurrence of [old] is replaced;
    an empty [old] matches at position 0. *)
Fixpoint replace_first (old new s : str) : str :=
  if startswith old s then new ++ drop (length old) s
  else match s with
       | [] => []
       | c :: s' => c :: replace_first old new s'
       end.

(** [s.count(sub)] for a non-empty [sub]: occurrences counted left to
    right without overlap. [skip] characters are still covered by the
    occurrence found last. *)
Fixpoint count_from (skip : nat) (sub s : str) : nat :=
  match s with
  | [] => 0
  | _ :: s' =>
      match skip with
      | S skip' => count_from skip' sub s'
      | 0 => if startswith sub s
             then S (count_from (length sub - 1) sub s')
             else count_from 0 sub s'
      end
  end.

Definition count (sub s : str) : nat := count_from 0 sub s.

(** [sub in s] *)
Fixpoint contains (sub s : str) : bool :=
  startswith sub s ||
  match s with
  | [] => false
  | _ :: s' => contains sub s'
  end.

(** [sub] occurs in [s] at position [i]. *)
Definition occurs_at (sub s : str) (i : nat) : Prop :=
  startswith sub (drop i s) = true.

(** [collections.Counter]: a dict from word to count that iterates in
    order of first insertion. *)
Module Counter.

Fixpoint incr (w : str) (c : list (str * nat)) : list (str * nat) :=
  match c with
  | [] => [(w, 1)]
  | (k, n) :: c' =>
      if str_eqb k w then (k, S n) :: c' else (k, n) :: incr w c'
  end.

(** [Counter(words)] *)
Definition of_list (words : list str) : list (str * nat) :=
  fold_left (fun c w => incr w c) words [].

(** [sorted(items, key=itemgetter(1), reverse=True)] is stable: an item
    goes in front of the first item whose count is not larger. *)
Fixpoint insert_desc (x : str * nat) (l : list (str * nat))
  : list (str * nat) :=
  match l with
  | [] => [x]
  | y :: l' => if snd x <? snd y then y :: insert_desc x l' else x :: l
  end.

Definition sorted_desc (l : list (str * nat)) : list (str * nat) :=
  foldr insert_desc [] l.

(** [c.most_common(n)] is [heapq.nlargest(n, c.items(), key=itemgetter(1))],
    the first [n] items of the stable descending sort, and no item when
    [n <= 0]. *)
Definition most_common (c : list (str * nat)) (n : Z) : list (str * nat) :=
  take (Z.to_nat n) (sorted_desc c).

End Counter.

(** *** The ranking the specification describes *)

Module Ranking.

(** How often [w] occurs among [words]. *)
Definition freq (w : str) (words : list str) : nat :=
  length (filter (fun x => x = w) words).

(** The position at which [w] first occurs in [words]. *)
Fixpoint first_index (w : str) (words : list str) : nat :=
  match words with
  | [] => 0
  | x :: rest => if str_eqb x w then 0 else S (first_index w rest)
  end.

(** [a] is ranked ahead of [b]: it is more frequent, or as frequent and
    seen first. *)
Definition ranks_before (words : list str) (a b : str) : Prop :=
  freq b words < freq a words
  \/ (freq a words = freq b words
      /\ first_index a words < first_index b words).

(** The distinct words of [words] that are not in [seen], in order of
    first occurrence. *)
Fixpoint distinct_from (seen words : list str) : list str :=
  match words with
  | [] => []
  | w :: rest =>
      if mem w seen then distinct_from seen rest
      else w :: distinct_from (w :: seen) rest
  end.

Definition distinct (words : list str) : list str := distinct_from [] words.

(** [before l x y]: some occurrence of [x] in [l] precedes some
    occurrence of [y]. *)
Inductive before {A : Type} : list A -> A -> A -> Prop :=
| before_here x y l : In y l -> before (x :: l) x y
| before_later z x y l : before l x y -> before (z :: l) x y.

(** Counts never increase along [l]. *)
Definition desc (l : list (str * nat)) : Prop :=
  forall p q, before l p q -> snd q <= snd p.

(** The count a Counter holds for [w]. *)
Fixpoint get (c : list (str * nat)) (w : str) : nat :=
  match c with
  | [] => 0
  | (k, n) :: c' => if str_eqb k w then n else get c' w
  end.

End Ranking.

(** ** question_generator.py *)

(** A generated question: the dict the code builds, tagged by its ['type']
    entry. *)
Inductive question :=
| Vocabulary (prompt keyword difficulty : str)
| FillBlank (prompt answer original_sentence : str)
| MultipleChoice (prompt : str) (options : list str)
    (correct difficulty : str)
| ReadingComprehension (prompt reference_sentence difficulty : str).

Definition blank_marker : str := py "_____".

Definition quote_char : ascii := "034"%char.

Definition mc_prompt : str := py "Which word best fits the context?".

Module QuestionGenerator.
Section Generator.

Context `{nltk : Nltk}.

(** The test of the list comprehension in [extract_keywords]. *)
Definition keyword_ok (w : str) : bool :=
  isalpha w && negb (mem w stop_words) && (3 <? length w).

Definition extract_keywords (text : str) (top_k : Z) : list str :=
  let words := word_tokenize (lower text) in
  let words := filter (fun w => keyword_ok w = true) words in
  let word_counts := Counter.of_list words in
  map fst (Counter.most_common word_counts top_k).

(** The tokens that survive the filter of [extract_keywords]. *)
Definition eligible (text : str) : list str :=
  filter (fun w => keyword_ok w = true) (word_tokenize (lower text)).

Definition vocabulary_question (keyword : str) : question :=
  Vocabulary
    (py "What is the meaning of " ++ [quote_char] ++ keyword
       ++ [quote_char] ++ py "?")
    keyword (py "medium").

Definition generate_vocabulary_questions (text : str) (num_questions : Z)
  : list question :=
  let keywords := extract_keywords text (num_questions * 2) in
  map vocabulary_question (slice_to keywords num_questions).

(** The test of the list comprehension that builds [content_words]. *)
Definition content_ok (w : str) : bool :=
  isalpha w && (3 <? length w).

(** Lines 56 to 62: the sentences with more than 8 tokens, and a sample of
    [min(num_questions, len(sentences))] of them. *)
Definition long_sentences (text : str) : list str :=
  filter (fun s => (8 <? length (word_tokenize s)) = true)
    (sent_tokenize text).

Definition select_sentences (text : str) (num_questions : Z)
  : M (list str) :=
  let sentences := long_sentences text in
  Random.sample sentences
    (Z.min num_questions (Z.of_nat (length sentences))).

(** The body of the loop over [selected]: the question of one sentence,
    or none. *)
Definition fill_blank_one (sentence : str) : M (list question) :=
  let words := word_tokenize sentence in
  let content_words := filter (fun w => content_ok w = true) words in
  match content_words with
  | [] => mret []
  | _ =>
      blank_word ← Random.choice content_words;
      let question_text := replace_first blank_word blank_marker sentence in
      mret [FillBlank question_text blank_word sentence]
  end.

Fixpoint fill_blank_loop (selected : list str) : M (list question) :=
  match selected with
  | [] => mret []
  | sentence :: rest =>
      q ← fill_blank_one sentence;
      qs ← fill_blank_loop rest;
      mret (q ++ qs)
  end.

Definition generate_fill_blank_questions (text : str) (num_questions : Z)
  : M (list question) :=
  selected ← select_sentences text num_questions;
  fill_blank_loop selected.

(** What a fill-blank question of [sentence] looks like. *)
Definition blank_of (sentence : str) (q : question) : Prop :=
  exists answer,
    In answer (word_tokenize sentence) /\ content_ok answer = true
    /\ q = FillBlank (replace_first answer blank_marker sentence)
             answer sentence.

(** The test [w != keyword and len(w) > 3]. *)
Definition wrong_ok (keyword w : str) : bool :=
  negb (str_eqb w keyword) && (3 <? length w).

(** The [for w in keywords] loop that collects wrong answers and breaks
    at three. *)
Fixpoint collect_wrong (keyword : str) (keywords wrong_answers : list str)
  : list str :=
  match keywords with
  | [] => wrong_answers
  | w :: rest =>
      if wrong_ok keyword w
      then let wrong_answers := wrong_answers ++ [w] in
           if 3 <=? length wrong_answers then wrong_answers
           else collect_wrong keyword rest wrong_answers
      else collect_wrong keyword rest wrong_answers
  end.

Definition distractor (n : nat) : str := py "distractor_" ++ str_of_nat n.

(** [while len(wrong_answers) < 3: wrong_answers.append(...)]; the list
    grows at every turn, so [fuel = 3] turns are always enough. *)
Fixpoint pad_wrong (fuel : nat) (wrong_answers : list str) : list str :=
  match fuel with
  | 0 => wrong_answers
  | S fuel' =>
      if length wrong_answers <? 3
      then pad_wrong fuel'
             (wrong_answers ++ [distractor (length wrong_answers)])
      else wrong_answers
  end.

Definition wrong_answers_for (keyword : str) (keywords : list str)
  : list str :=
  pad_wrong 3 (collect_wrong keyword keywords []).

(** The keywords picked as wrong answers. *)
Definition others (keyword : str) (keywords : list str) : list str :=
  take 3 (List.filter (wrong_ok keyword) keywords).

Definition multiple_choice_one (keywords : list str) (keyword : str)
  : M question :=
  let wrong_answers := wrong_answers_for keyword keywords in
  options ← Random.shuffle (keyword :: take 3 wrong_answers);
  mret (MultipleChoice (py "Which word best fits the context?")
          options keyword (py "medium")).

Fixpoint multiple_choice_loop (keywords todo : list str)
  : M (list question) :=
  match todo with
  | [] => mret []
  | keyword :: rest =>
      q ← multiple_choice_one keywords keyword;
      qs ← multiple_choice_loop keywords rest;
      mret (q :: qs)
  end.

Definition generate_multiple_choice_questions (text : str)
  (num_questions : Z) : M (list question) :=
  let keywords := extract_keywords text (num_questions * 3) in
  multiple_choice_loop keywords (slice_to keywords num_questions).

Definition reading_question (sentence : str) : question :=
  ReadingComprehension
    (py "According to the text, what is the main idea?")
    (take 100 sentence ++ py "...")
    (py "medium").

(** [for i in range(min(num_questions, len(sentences)))] visits the first
    [min(num_questions, len(sentences))] sentences, none when that is not
    positive. *)
Definition generate_reading_comprehension (text : str) (num_questions : Z)
  : list question :=
  let sentences := sent_tokenize text in
  let n := Z.min num_questions (Z.of_nat (length sentences)) in
  map reading_question (take (Z.to_nat n) sentences).

(** [config[key]] *)
Definition getitem (config : gmap string Z) (key : string) : M Z :=
  match config !! key with
  | Some v => mret v
  | None => raise (KeyError key)
  end.

Definition default_config : gmap string Z :=
  <["vocabulary"%string := 5%Z]>
    (<["fill_blank"%string := 5%Z]>
       (<["multiple_choice"%string := 5%Z]>
          (<["reading_comprehension"%string := 3%Z]> ∅))).

(** [config] is [None] when the caller passes no mapping. The entries of
    the returned dict are evaluated in the order written. *)
Definition generate_all_questions (text : str)
  (config : option (gmap string Z)) : M (gmap string (list question)) :=
  let config := match config with
                | None => default_config
                | Some c => c
                end in
  nv ← getitem config "vocabulary"%string;
  let v := generate_vocabulary_questions text nv in
  nf ← getitem config "fill_blank"%string;
  f ← generate_fill_blank_questions text nf;
  nm ← getitem config "multiple_choice"%string;
  m ← generate_multiple_choice_questions text nm;
  nr ← getitem config "reading_comprehension"%string;
  let rc := generate_reading_comprehension text nr in
  mret (<["vocabulary"%string := v]>
          (<["fill_blank"%string := f]>
             (<["multiple_choice"%string := m]>
                (<["reading_comprehension"%string := rc]> ∅)))).

(** The keys [generate_all_questions] reads. *)
Definition recognized : list string :=
  ["vocabulary"; "fill_blank"; "multiple_choice";
   "reading_comprehension"]%string.

(** The count a call asks for under [key], if any. *)
Definition requested (config : option (gmap string Z)) (key : string)
  : option Z :=
  match config with
  | None => default_config !! key
  | Some c => c !! key
  end.

(** The mapping actually consulted. *)
Definition effective (config : option (gmap string Z)) : gmap string Z :=
  match config with
  | None => default_config
  | Some c => c
  end.

(** The dict [generate_all_questions] returns. *)
Definition all_questions (v f m rc : list question)
  : gmap string (list question) :=
  <["vocabulary"%string := v]>
    (<["fill_blank"%string := f]>
       (<["multiple_choice"%string := m]>
          (<["reading_comprehension"%string := rc]> ∅))).

End Generator.
End QuestionGenerator.

(** ** A small tokenizer to run the code on plain sentences

    It stands in for NLTK where a statement is evaluated on a concrete
    text: words are the runs of characters between whitespace, with the
    marks [. , ! ? ; :] split off as tokens of their own; a sentence ends
    after [. ! ?] followed by whitespace. The texts evaluated below are
    made of letters, underscores, single spaces and sentence-final full
    stops, which NLTK's tokenizers are expected to split the same way. *)
Module Plain.

Definition is_mark (c : ascii) : bool :=
  existsb (Ascii.eqb c)
    ["."%char; ","%char; "!"%char; "?"%char; ";"%char; ":"%char].

Definition is_stop (c : ascii) : bool :=
  existsb (Ascii.eqb c) ["."%char; "!"%char; "?"%char].

(** [cur] is the token being read, last character first. *)
Definition flush (cur : str) : list str :=
  match cur with
  | [] => []
  | _ => [rev cur]
  end.

Fixpoint words_from (cur s : str) : list str :=
  match s with
  | [] => flush cur
  | c :: s' =>
      if isspace_char c then flush cur ++ words_from [] s'
      else if is_mark c then flush cur ++ [c] :: words_from [] s'
      else words_from (c :: cur) s'
  end.

Fixpoint sentences_from (cur s : str) : list str :=
  match s with
  | [] => flush cur
  | c :: s' =>
      match cur, isspace_char c with
      | [], true => sentences_from [] s'
      | d :: _, true =>
          if is_stop d then flush cur ++ sentences_from [] s'
          else sentences_from (c :: cur) s'
      | _, false => sentences_from (c :: cur) s'
      end
  end.

Definition stop_list : list str :=
  map py ["the"; "and"; "that"; "this"; "with"; "from"; "have"; "were";
          "over"; "there"; "their"; "them"; "some"; "very"; "is"; "a";
          "of"; "to"; "in"; "at"]%string.

#[global] Instance nltk : Nltk := {|
  word_tokenize := words_from [];
  sent_tokenize := sentences_from [];
  stop_words := stop_list
|}.

(** A stream of draws that repeats the given numbers. *)
Definition draws (l : list nat) : rng :=
  fun i => nth (i mod length l) l 0.

End Plain.

(** ** More of the code: helpers for the statements *)

(** The [original_sentence] entries of the fill-blank questions of a
    list. *)
Definition originals (qs : list question) : list str :=
  flat_map (fun q => match q with
                     | FillBlank _ _ s => [s]
                     | _ => []
                     end) qs.

(** The [correct] entries of the multiple-choice questions of a list. *)
Definition corrects (qs : list question) : list str :=
  flat_map (fun q => match q with
                     | MultipleChoice _ _ c _ => [c]
                     | _ => []
                     end) qs.

(** A sentence with a token the fill-blank synthesizer can blank. *)
Definition has_content `{Nltk} (sentence : str) : bool :=
  existsb QuestionGenerator.content_ok (word_tokenize sentence).

(** A text of whitespace only. *)
Definition blank (s : str) : Prop := Forall (fun c => isspace_char c = true) s.

(** ** file_parser.py: file types and extraction *)

(** [os.path.splitext] as [posixpath] defines it. *)
Module Paths.

(** [s.rfind(c)]: the last index of [c] in [s], or [-1]. [i] is the index
    of the head of [s] and [best] the answer so far. *)
Fixpoint rfind_from (c : ascii) (s : str) (i : nat) (best : Z) : Z :=
  match s with
  | [] => best
  | d :: s' =>
      rfind_from c s' (S i) (if Ascii.eqb d c then Z.of_nat i else best)
  end.

Definition rfind (c : ascii) (s : str) : Z := rfind_from c s 0 (-1).

(** The loop that skips the leading dots of the last component: from
    [filenameIndex], over [n] positions, is there a character that is not
    a dot? *)
Fixpoint has_name (p : str) (filenameIndex n : nat) : bool :=
  match n with
  | 0 => false
  | S n' =>
      match p !! filenameIndex with
      | Some d =>
          if Ascii.eqb d "." then has_name p (S filenameIndex) n' else true
      | None => true
      end
  end.

Definition splitext (p : str) : str * str :=
  let sepIndex := rfind "/" p in
  let dotIndex := rfind "." p in
  if (sepIndex <? dotIndex)%Z
     && has_name p (Z.to_nat (sepIndex + 1))
          (Z.to_nat (dotIndex - (sepIndex + 1)))
  then (take (Z.to_nat dotIndex) p, drop (Z.to_nat dotIndex) p)
  else (p, []).

End Paths.

(** What the code reads through pdfplumber, PyPDF2, python-docx and
    python-pptx. For a PDF reader the value is the list of page texts the
    loop appended before it ended or an exception ended it; for the other
    two, [None] stands for an exception anywhere in the [try] block and
    the list holds the paragraph texts, or the texts of the shapes that
    have one. *)
Class Readers := {
  pdfplumber_pages : str -> list str;
  pypdf2_pages : str -> list str;
  docx_paragraphs : str -> option (list str);
  pptx_shape_texts : str -> option (list str)
}.

Module Extraction.
Import FileParser.
Section Extraction.

Context `{readers : Readers}.

Definition newline : ascii := "010"%char.

(** [for t in parts: text += t + "\n"] *)
Definition append_lines (text : str) (parts : list str) : str :=
  fold_left (fun text t => text ++ t ++ [newline]) parts text.

Definition extract_text_from_pdf (file_path : str) : str :=
  let text := append_lines [] (pdfplumber_pages file_path) in
  let text :=
    match strip text with
    | [] => append_lines text (pypdf2_pages file_path)
    | _ => text
    end in
  clean_text text.

Definition extract_text_from_docx (file_path : str) : str :=
  match docx_paragraphs file_path with
  | Some paragraphs => clean_text (append_lines [] paragraphs)
  | None => []
  end.

Definition extract_text_from_pptx (file_path : str) : str :=
  match pptx_shape_texts file_path with
  | Some texts => clean_text (append_lines [] texts)
  | None => []
  end.

Definition detect_file_type (filename : str) : str :=
  let ext := lower (snd (Paths.splitext filename)) in
  if mem ext [py ".pdf"] then py "pdf"
  else if mem ext [py ".docx"; py ".doc"] then py "docx"
  else if mem ext [py ".pptx"; py ".ppt"] then py "pptx"
  else if mem ext [py ".xlsx"; py ".xls"] then py "excel"
  else if str_eqb ext (py ".csv") then py "csv"
  else py "unknown".

Definition extract_text_from_file (file_path file_type : str)
  : result str :=
  if str_eqb file_type (py "pdf")
  then Ok (extract_text_from_pdf file_path)
  else if mem file_type [py "docx"; py "doc"]
  then Ok (extract_text_from_docx file_path)
  else if mem file_type [py "pptx"; py "ppt"]
  then Ok (extract_text_from_pptx file_path)
  else Raise ValueError.

End Extraction.
End Extraction.

(** A directory prefix: empty, or ending with the separator. *)
Definition is_dir (dir : str) : Prop :=
  dir = [] \/ exists d, dir = d ++ ["/"%char].

(** The extensions [detect_file_type] knows, with the type of each. *)
Definition extension_table : list (str * str) :=
  [(py ".pdf", py "pdf"); (py ".docx", py "docx"); (py ".doc", py "docx");
   (py ".pptx", py "pptx"); (py ".ppt", py "pptx");
   (py ".xlsx", py "excel"); (py ".xls", py "excel");
   (py ".csv", py "csv")].

(** A character other than the dot. *)
Definition not_dot (d : ascii) : bool := negb (Ascii.eqb d ".").

(** ** utils_text.py *)

Module UtilsText.

Definition STOP : list str :=
  map py ["a"; "an"; "the"; "and"; "or"; "but"; "if"; "then"; "of"; "to";
          "in"; "on"; "at"; "for"; "from"; "with"; "without"; "into";
          "onto"; "is"; "are"; "was"; "were"; "be"; "been"; "being";
          "i"; "you"; "he"; "she"; "it"; "we"; "they"; "this"; "that";
          "these"; "those"; "as"; "by"; "about"]%string.

(** The class [[A-Za-z']]. *)
Definition vocab_char (c : ascii) : bool :=
  between 65 90 c || between 97 122 c || Ascii.eqb c "'".

(** [re.findall] for a pattern [[...]+]: the maximal runs of characters
    of the class, left to right. [cur] is the run being read, last
    character first. *)
Fixpoint findall_from (ok : ascii -> bool) (cur s : str) : list str :=
  match s with
  | [] => match cur with [] => [] | _ => [rev cur] end
  | c :: s' =>
      if ok c then findall_from ok (c :: cur) s'
      else match cur with
           | [] => findall_from ok [] s'
           | _ => rev cur :: findall_from ok [] s'
           end
  end.

Definition findall (ok : ascii -> bool) (s : str) : list str :=
  findall_from ok [] s.

(** One turn of the loop over [words]. *)
Definition vocab_step (freq : list (str * nat)) (w : str)
  : list (str * nat) :=
  if length w <? 3 then freq
  else if mem w STOP then freq
  else Counter.incr w freq.

(** [text] is [None] when the caller passes [None]. *)
Definition extract_vocab (text : option str) (top_k : Z) : list str :=
  let text := match text with
              | Some ((_ :: _) as t) => t
              | _ => []
              end in
  let words := findall vocab_char (lower text) in
  let freq := fold_left vocab_step words [] in
  let ranked := slice_to (Counter.sorted_desc freq) top_k in
  map fst ranked.

Definition practice_sentence (w : str) : str :=
  py "I will practice the word '" ++ w ++ py "' every day.".

Definition usage_sentence (w : str) : str :=
  py "Can you use '" ++ w ++ py "' in a sentence?".

Definition make_sample_sentences (words : option (list str)) : list str :=
  let words := match words with
               | Some ((_ :: _) as l) => l
               | _ => []
               end in
  flat_map (fun w => [practice_sentence w; usage_sentence w])
    (take 10 words).

(** The words the loop of [extract_vocab] counts. *)
Definition vocab_ok (w : str) : bool :=
  negb (length w <? 3) && negb (mem w STOP).

Definition counted (text : option str) : list str :=
  let text := match text with
              | Some ((_ :: _) as t) => t
              | _ => []
              end in
  List.filter vocab_ok (findall vocab_char (lower text)).

(** A lowercase ASCII letter or the apostrophe. *)
Definition lower_or_quote (c : ascii) : bool :=
  between 97 122 c || Ascii.eqb c "'".

End UtilsText.

(** ** main.py: the callers of the pipeline *)

(** [s.split(sep)] for a separator of one character. *)
Fixpoint split (sep : ascii) (s : str) : list str :=
  match s with
  | [] => [[]]
  | c :: s' =>
      if Ascii.eqb c sep then [] :: split sep s'
      else match split sep s' with
           | f :: fs => (c :: f) :: fs
           | [] => [[c]]
           end
  end.

(** The answer of an endpoint: its value, or the status code of the
    HTTPException it raises. *)
Inductive http (A : Type) :=
| Done (a : A)
| HTTPException (status_code : nat).
Arguments Done {A} a.
Arguments HTTPException {A} status_code.

(** What [upload_lecture_with_questions] answers and stores, as far as
    the pipeline decides it. *)
Record upload := {
  upload_file_type : str;
  upload_extracted_text : option str;
  upload_questions_generated : nat
}.

Module Main.
Import QuestionGenerator Extraction.
Section Endpoints.

Context `{nltk : Nltk} `{readers : Readers}.

(** The mapping [auto_generate_assignment] builds from its parameters;
    [//] is the floor division. *)
Definition auto_generate_config (num_questions : Z) (question_types : str)
  : gmap string Z :=
  let question_types_list := split "," question_types in
  <["vocabulary"%string := 0%Z]>
    (<["fill_blank"%string :=
         if mem (py "fill_blank") question_types_list
         then (num_questions / 2)%Z else 0%Z]>
       (<["multiple_choice"%string :=
            if mem (py "multiple_choice") question_types_list
            then (num_questions / 2)%Z else 0%Z]>
          (<["reading_comprehension"%string := 0%Z]> ∅))).

(** [auto_generate_assignment] from the combined text on: the questions
    it generates. *)
Definition auto_generate_questions (combined_text : str)
  (num_questions : Z) (question_types : str)
  : M (gmap string (list question)) :=
  generate_all_questions combined_text
    (Some (auto_generate_config num_questions question_types)).

(** The loop over [questions.items()] saves the questions filed under
    ['multiple_choice'] and counts them. *)
Definition total_saved (questions : gmap string (list question)) : nat :=
  length (default [] (questions !! "multiple_choice"%string)).

Definition allowed_types : list str := [py "pdf"; py "docx"; py "pptx"].

Definition upload_config : gmap string Z :=
  <["vocabulary"%string := 5%Z]>
    (<["fill_blank"%string := 5%Z]>
       (<["multiple_choice"%string := 10%Z]>
          (<["reading_comprehension"%string := 3%Z]> ∅))).

(** The [try] block of [upload_lecture_with_questions] with its
    [except Exception]: the text extracted and [len(questions_generated)]
    when the block is left. *)
Definition upload_generation (file_path file_type : str) (r : rng)
  : str * nat :=
  match extract_text_from_file file_path file_type with
  | Raise _ => ([], 0)
  | Ok extracted_text =>
      match extracted_text with
      | [] => (extracted_text, 0)
      | _ =>
          if length extracted_text <? 50 then (extracted_text, 0)
          else
            match generate_all_questions extracted_text
                    (Some upload_config) r with
            | Ok (questions_generated, _) =>
                (extracted_text, size questions_generated)
            | Raise _ => (extracted_text, 0)
            end
      end
  end.

(** [upload_lecture_with_questions], with the path the file is saved
    under given; saving the file and the database row are left out. *)
Definition upload_lecture_with_questions (filename file_path : str)
  (generate_questions : bool) (r : rng) : http upload :=
  let file_type := detect_file_type filename in
  if negb (mem file_type allowed_types) then HTTPException 400
  else
    let '(extracted_text, n) :=
      if generate_questions then upload_generation file_path file_type r
      else ([], 0) in
    Done {| upload_file_type := file_type;
            upload_extracted_text :=
              match extracted_text with
              | [] => None
              | _ => Some (take 5000 extracted_text)
              end;
            upload_questions_generated := n |}.

End Endpoints.
End Main.

(** ** Readers to run the extraction on

    A stand-in for the document libraries: pdfplumber finds two pages in
    [slides.pdf] and only whitespace elsewhere, PyPDF2 finds one page
    everywhere, [notes.docx] has two paragraphs and every other Word or
    PowerPoint file fails to open. *)
Module PlainReaders.

#[global] Instance readers : Readers := {|
  pdfplumber_pages p :=
    if str_eqb p (py "slides.pdf")
    then [py "Reading  skills"; py "Listening & speaking"]
    else [py "  "];
  pypdf2_pages p := [py "Scanned  page"];
  docx_paragraphs p :=
    if str_eqb p (py "notes.docx")
    then Some [py "First paragraph."; py "Second   one."]
    else None;
  pptx_shape_texts p := None
|}.

End PlainReaders.

(** * Properties *)

(** ** Running the code *)

Example plain_words :
  word_tokenize (py "The dog barks loudly at the fox.")
  = map py ["The"; "dog"; "barks"; "loudly"; "at"; "the"; "fox"; "."]%string.
Proof. reflexivity. Qed.

Example plain_sentences :
  sent_tokenize (py "The quick fox jumps. The dog barks loudly.")
  = map py ["The quick fox jumps."; "The dog barks loudly."]%string.
Proof. reflexivity. Qed.

Example clean_text_example :
  FileParser.clean_text
    (list_ascii_of_string ("  Hello," ++ String "009" "world  #1" ++ String "010" ""))
  = py "Hello, world 1".
Proof. reflexivity. Qed.

(** ** The text normalizer *)

Module FileParserFacts.
Import FileParser Normalized.

Lemma space_is_space : isspace_char " " = true.
Proof. reflexivity. Qed.

Lemma space_kept : kept_char " " = true.
Proof. reflexivity. Qed.

Lemma sub_spaces_tidy b s : tidy b (sub_spaces b s) = true.
Proof.
  revert b. induction s as [|c s IH]; intros b; simpl; [done|].
  destruct (isspace_char c) eqn:Hc.
  - destruct b; simpl; [apply IH|]. rewrite IH. reflexivity.
  - simpl. rewrite Hc. apply IH.
Qed.

Lemma tidy_fixed b s : tidy b s = true -> sub_spaces b s = s.
Proof.
  revert b. induction s as [|c s IH]; intros b; simpl; [done|].
  destruct (isspace_char c) eqn:Hc.
  - intros H. apply andb_true_iff in H as [H Hs].
    apply andb_true_iff in H as [Heq Hb].
    apply Ascii.eqb_eq in Heq. subst c.
    destruct b; [discriminate|]. f_equal. by apply IH.
  - intros H. f_equal. by apply IH.
Qed.

Lemma tidy_weaken b s : tidy b s = true -> tidy false s = true.
Proof.
  destruct s as [|c s]; simpl; [done|].
  destruct (isspace_char c); [|done].
  intros H. apply andb_true_iff in H as [H Hs].
  apply andb_true_iff in H as [Heq _]. by rewrite Heq, Hs.
Qed.

Lemma tidy_spaces b s c :
  tidy b s = true -> In c s -> isspace_char c = true -> c = " "%char.
Proof.
  revert b. induction s as [|d s IH]; intros b; simpl; [done|].
  intros H [->|Hin] Hc.
  - rewrite Hc in H. apply andb_true_iff in H as [H _].
    apply andb_true_iff in H as [Heq _]. by apply Ascii.eqb_eq in Heq.
  - destruct (isspace_char d).
    + apply andb_true_iff in H as [_ H]. by apply (IH true).
    + by apply (IH false).
Qed.

Lemma tidy_no_double b s i :
  tidy b s = true -> s !! i = Some " "%char -> s !! S i <> Some " "%char.
Proof.
  revert b i. induction s as [|d s IH]; intros b i; simpl; [done|].
  intros H Hi. destruct i as [|i]; simpl in *.
  - injection Hi as ->. rewrite space_is_space in H.
    apply andb_true_iff in H as [_ H].
    destruct s as [|e s]; simpl in *; [done|].
    intros [= ->]. by rewrite space_is_space in H.
  - destruct (isspace_char d).
    + apply andb_true_iff in H as [_ H]. by apply (IH true).
    + by apply (IH false).
Qed.

Lemma lstrip_tidy b s : tidy b s = true -> tidy false (lstrip s) = true.
Proof.
  revert b. induction s as [|c s IH]; intros b H; simpl; [done|].
  destruct (isspace_char c) eqn:Hc.
  - simpl in H. rewrite Hc in H. apply andb_true_iff in H as [_ H].
    by apply (IH true).
  - by apply (tidy_weaken b).
Qed.

Lemma rstrip_tidy b s : tidy b s = true -> tidy b (rstrip s) = true.
Proof.
  revert b. induction s as [|c s IH]; intros b H; simpl; [done|].
  simpl in H. destruct (isspace_char c) eqn:Hc.
  - apply andb_true_iff in H as [H Hs]. apply IH in Hs.
    destruct (rstrip s) as [|d r]; [done|].
    change (tidy b (c :: d :: r)) with
      (if isspace_char c then Ascii.eqb c " " && negb b && tidy true (d :: r)
       else tidy false (d :: r)).
    by rewrite Hc, H, Hs.
  - apply IH in H. destruct (rstrip s) as [|d r].
    + simpl. by rewrite Hc.
    + change (tidy b (c :: d :: r)) with
        (if isspace_char c then Ascii.eqb c " " && negb b && tidy true (d :: r)
         else tidy false (d :: r)).
      by rewrite Hc.
Qed.

Lemma lstrip_head s : edge_ok (head (lstrip s)).
Proof.
  induction s as [|c s IH]; simpl; [by intros ?|].
  destruct (isspace_char c) eqn:Hc; [done|].
  intros d [= <-]. done.
Qed.

Lemma rstrip_head s : rstrip s <> [] -> head (rstrip s) = head s.
Proof.
  destruct s as [|c s]; simpl; [done|].
  destruct (rstrip s), (isspace_char c); done.
Qed.

Lemma rstrip_last s : edge_ok (last (rstrip s)).
Proof.
  induction s as [|c s IH]; simpl; [by intros ?|].
  destruct (rstrip s) as [|d r] eqn:Hr.
  - destruct (isspace_char c) eqn:Hc; [by intros ?|].
    intros e [= <-]. done.
  - exact IH.
Qed.

Lemma lstrip_fixed s : edge_ok (head s) -> lstrip s = s.
Proof.
  destruct s as [|c s]; simpl; [done|].
  intros H. by rewrite (H c eq_refl).
Qed.

Lemma rstrip_fixed s : edge_ok (last s) -> rstrip s = s.
Proof.
  induction s as [|c s IH]; simpl; [done|].
  destruct s as [|d s].
  - intros H. simpl. by rewrite (H c eq_refl).
  - intros H. rewrite IH by exact H. done.
Qed.

Lemma sub_spaces_Forall (P : ascii -> Prop) b s :
  P " "%char -> Forall P s -> Forall P (sub_spaces b s).
Proof.
  intros Hsp. revert b. induction s as [|c s IH]; intros b Hs; simpl; [done|].
  inversion Hs; subst.
  destruct (isspace_char c); [destruct b|]; auto.
Qed.

Lemma sub_special_kept s : Forall (fun c => kept_char c = true) (sub_special s).
Proof.
  induction s as [|c s IH]; simpl; constructor; [|done].
  destruct (kept_char c) eqn:Hc; [done|reflexivity].
Qed.

Lemma sub_special_fixed s :
  Forall (fun c => kept_char c = true) s -> sub_special s = s.
Proof.
  induction 1 as [|c s Hc _ IH]; [done|].
  unfold sub_special in *. simpl. by rewrite Hc, IH.
Qed.

Lemma lstrip_Forall (P : ascii -> Prop) s : Forall P s -> Forall P (lstrip s).
Proof.
  induction 1 as [|c s Hc Hs IH]; simpl; [done|].
  destruct (isspace_char c); auto.
Qed.

Lemma rstrip_Forall (P : ascii -> Prop) s : Forall P s -> Forall P (rstrip s).
Proof.
  induction 1 as [|c s Hc Hs IH]; simpl; [done|].
  destruct (rstrip s); [destruct (isspace_char c)|]; auto.
Qed.

Lemma clean_text_normal s : normal (clean_text s).
Proof.
  unfold clean_text, strip.
  set (t := sub_spaces false (sub_special (sub_spaces false s))).
  assert (Ht : tidy false t = true) by apply sub_spaces_tidy.
  assert (Hk : Forall (fun c => kept_char c = true) t).
  { apply sub_spaces_Forall; [reflexivity|apply sub_special_kept]. }
  repeat split.
  - apply rstrip_tidy. by apply (lstrip_tidy false).
  - by apply rstrip_Forall, lstrip_Forall.
  - destruct (rstrip (lstrip t)) eqn:Hr; [by intros ?|].
    rewrite <- Hr, rstrip_head by (rewrite Hr; done). apply lstrip_head.
  - apply rstrip_last.
Qed.

Lemma normal_fixed s : normal s -> clean_text s = s.
Proof.
  intros (Ht & Hk & Hh & Hl). unfold clean_text, strip.
  rewrite (tidy_fixed false s Ht), (sub_special_fixed s Hk).
  rewrite (tidy_fixed false s Ht), (lstrip_fixed s Hh).
  by apply rstrip_fixed.
Qed.

Lemma sub_spaces_filter (Q : ascii -> Prop) `{Qdec : !forall c, Decision (Q c)} b s :
  (forall c, Q c -> isspace_char c = false) ->
  filter Q (sub_spaces b s) = filter Q s.
Proof.
  intros HQ. revert b. induction s as [|c s IH]; intros b; simpl; [done|].
  destruct (isspace_char c) eqn:Hc.
  - rewrite (filter_cons_False Q c s)
      by (intros H; apply HQ in H; congruence).
    destruct b; [apply IH|].
    rewrite filter_cons_False; [apply IH|].
    intros H. apply HQ in H. by rewrite space_is_space in H.
  - rewrite !filter_cons. by rewrite IH.
Qed.

Lemma lstrip_filter (Q : ascii -> Prop) `{Qdec : !forall c, Decision (Q c)} s :
  (forall c, Q c -> isspace_char c = false) ->
  filter Q (lstrip s) = filter Q s.
Proof.
  intros HQ. induction s as [|c s IH]; simpl; [done|].
  destruct (isspace_char c) eqn:Hc; [|done].
  rewrite filter_cons_False; [done|].
  intros H. apply HQ in H. congruence.
Qed.

Lemma rstrip_filter (Q : ascii -> Prop) `{Qdec : !forall c, Decision (Q c)} s :
  (forall c, Q c -> isspace_char c = false) ->
  filter Q (rstrip s) = filter Q s.
Proof.
  intros HQ. induction s as [|c s IH]; simpl; [done|].
  rewrite (filter_cons Q c s), <- IH.
  destruct (rstrip s) as [|d r] eqn:Hr.
  - destruct (isspace_char c) eqn:Hc.
    + destruct (decide (Q c)) as [H|]; [|done].
      apply HQ in H. congruence.
    + by rewrite filter_cons.
  - by rewrite filter_cons.
Qed.

Lemma sub_special_filter s :
  filter (fun c => isspace_char c = false) (sub_special s)
  = filter (fun c => isspace_char c = false /\ kept_char c = true) s.
Proof.
  induction s as [|c s IH]; [done|].
  unfold sub_special in *. simpl. rewrite !filter_cons, IH.
  destruct (kept_char c) eqn:Hk.
  - repeat case_decide; try done; exfalso; tauto.
  - rewrite space_is_space.
    repeat case_decide; try done; exfalso; intuition congruence.
Qed.

(** *** Runs of copied characters *)

Lemma solid_of_space c : isspace_char c = true -> solid c = false.
Proof. intros H. unfold solid. rewrite H. apply andb_false_r. Qed.

Lemma solid_kept c : solid c = true -> kept_char c = true.
Proof. unfold solid. intros H. by apply andb_true_iff in H as [? _]. Qed.

Lemma solid_not_space c : solid c = true -> isspace_char c = false.
Proof.
  unfold solid. intros H. apply andb_true_iff in H as [_ H].
  by apply negb_true_iff in H.
Qed.

Lemma solid_runs_gap c s : solid c = false -> solid_runs (c :: s) = solid_runs s.
Proof. intros H. cbn [solid_runs]. by rewrite H. Qed.

Lemma solid_runs_solid c s :
  solid c = true ->
  solid_runs (c :: s) = push c (starts_solid s) (solid_runs s).
Proof. intros H. cbn [solid_runs]. by rewrite H. Qed.

Lemma starts_solid_space c s :
  isspace_char c = true -> starts_solid (c :: s) = false.
Proof. intros H. by apply solid_of_space. Qed.

Lemma sub_spaces_starts s :
  starts_solid (sub_spaces false s) = starts_solid s.
Proof.
  destruct s as [|c s]; [done|]. cbn [sub_spaces].
  destruct (isspace_char c) eqn:Hc; [|done].
  rewrite (starts_solid_space c s Hc). by apply starts_solid_space.
Qed.

Lemma sub_spaces_runs b s : solid_runs (sub_spaces b s) = solid_runs s.
Proof.
  revert b. induction s as [|c s IH]; intros b; [done|].
  cbn [sub_spaces]. destruct (isspace_char c) eqn:Hc.
  - rewrite (solid_runs_gap c s) by (by apply solid_of_space).
    destruct b; [apply IH|].
    rewrite solid_runs_gap by (by apply solid_of_space). apply IH.
  - destruct (solid c) eqn:Hs.
    + rewrite !solid_runs_solid by done. by rewrite sub_spaces_starts, IH.
    + rewrite !solid_runs_gap by done. apply IH.
Qed.

Lemma sub_special_solid c :
  solid (if kept_char c then c else " "%char) = solid c.
Proof.
  destruct (kept_char c) eqn:Hk; [done|].
  unfold solid. rewrite Hk. reflexivity.
Qed.

Lemma sub_special_starts s : starts_solid (sub_special s) = starts_solid s.
Proof. destruct s as [|c s]; [done|]. apply sub_special_solid. Qed.

Lemma sub_special_runs s : solid_runs (sub_special s) = solid_runs s.
Proof.
  induction s as [|c s IH]; [done|].
  change (sub_special (c :: s))
    with ((if kept_char c then c else " "%char) :: sub_special s).
  destruct (solid c) eqn:Hs.
  - rewrite (solid_kept c Hs).
    rewrite !solid_runs_solid by done. by rewrite sub_special_starts, IH.
  - rewrite !solid_runs_gap; [done|done|by rewrite sub_special_solid].
Qed.

Lemma lstrip_runs s : solid_runs (lstrip s) = solid_runs s.
Proof.
  induction s as [|c s IH]; [done|]. cbn [lstrip].
  destruct (isspace_char c) eqn:Hc; [|done].
  rewrite IH. symmetry. by apply solid_runs_gap, solid_of_space.
Qed.

Lemma rstrip_nil_runs s :
  rstrip s = [] -> solid_runs s = [] /\ starts_solid s = false.
Proof.
  induction s as [|c s IH]; [done|]. cbn [rstrip].
  destruct (rstrip s) as [|d r]; [|done].
  destruct (isspace_char c) eqn:Hc; [|done]. intros _.
  destruct IH as [IH _]; [done|].
  split; [|by apply starts_solid_space].
  rewrite solid_runs_gap by (by apply solid_of_space). done.
Qed.

Lemma rstrip_starts s : rstrip s <> [] -> starts_solid (rstrip s) = starts_solid s.
Proof.
  intros H. apply rstrip_head in H.
  destruct (rstrip s), s; simpl in *; congruence.
Qed.

Lemma rstrip_runs s : solid_runs (rstrip s) = solid_runs s.
Proof.
  induction s as [|c s IH]; [done|]. cbn [rstrip].
  destruct (rstrip s) as [|d r] eqn:Hr.
  - destruct (rstrip_nil_runs s Hr) as [Hnil Hst].
    destruct (isspace_char c) eqn:Hc.
    + rewrite solid_runs_gap by (by apply solid_of_space). by rewrite Hnil.
    + destruct (solid c) eqn:Hs.
      * rewrite !solid_runs_solid by done. by rewrite Hnil, Hst.
      * rewrite !solid_runs_gap by done. by rewrite Hnil.
  - destruct (solid c) eqn:Hs.
    + rewrite !solid_runs_solid by done. rewrite IH.
      assert (Hst : starts_solid (rstrip s) = starts_solid s)
        by (apply rstrip_starts; by rewrite Hr).
      rewrite Hr in Hst. by rewrite Hst, (solid_runs_solid c s Hs).
    + rewrite (solid_runs_gap c s Hs), (solid_runs_gap c _ Hs). exact IH.
Qed.

Lemma clean_text_runs s : solid_runs (clean_text s) = solid_runs s.
Proof.
  unfold clean_text, strip.
  by rewrite rstrip_runs, lstrip_runs, sub_spaces_runs, sub_special_runs,
    sub_spaces_runs.
Qed.

Lemma join_space_cons c w ws :
  join_space ((c :: w) :: ws) = c :: join_space (w :: ws).
Proof. cbn [join_space]. by destruct ws. Qed.

(** A tidy text of kept characters that does not end with a space is its
    runs joined by single spaces, up to a space in front. *)
Lemma join_runs_tidy r :
  tidy false r = true -> Forall (fun c => kept_char c = true) r ->
  edge_ok (last r) ->
  join_space (solid_runs r)
  = match r with
    | c :: r' => if isspace_char c then r' else r
    | [] => []
    end.
Proof.
  induction r as [|c r IH]; [done|]. intros Ht Hk Hl.
  inversion Hk as [|? ? Hc Hk']; subst.
  assert (Hl' : r <> [] -> edge_ok (last r)).
  { intros Hne. destruct r; [done|]. exact Hl. }
  destruct (isspace_char c) eqn:Hs.
  - rewrite solid_runs_gap by (by apply solid_of_space).
    cbn [tidy] in Ht. rewrite Hs in Ht.
    apply andb_true_iff in Ht as [_ Ht].
    destruct r as [|d r]; [done|].
    rewrite IH; [|by apply (tidy_weaken true)|done|by apply Hl'].
    cbn [tidy] in Ht. destruct (isspace_char d); [|done].
    apply andb_true_iff in Ht as [Ht _].
    apply andb_true_iff in Ht as [_ Ht]. discriminate Ht.
  - assert (Hsolid : solid c = true) by (unfold solid; by rewrite Hc, Hs).
    rewrite solid_runs_solid by done.
    cbn [tidy] in Ht. rewrite Hs in Ht.
    destruct r as [|d r]; [done|].
    specialize (IH Ht Hk' (Hl' ltac:(done))).
    cbn [starts_solid]. destruct (isspace_char d) eqn:Hd.
    + rewrite (solid_of_space d Hd). cbn [push].
      assert (Hsp : d = " "%char) by
        (apply (tidy_spaces false (d :: r)); [done|by left|done]).
      destruct r as [|e r].
      { exfalso. specialize (Hl d eq_refl). congruence. }
      destruct (solid_runs (d :: e :: r)) as [|w ws]; [discriminate IH|].
      change (join_space ([c] :: w :: ws))
        with (c :: " "%char :: join_space (w :: ws)).
      by rewrite IH, Hsp.
    + inversion Hk' as [|? ? Hkd _]; subst.
      assert (Hsd : solid d = true) by (unfold solid; by rewrite Hkd, Hd).
      rewrite Hsd. cbn [push].
      destruct (solid_runs (d :: r)) as [|w ws]; [discriminate IH|].
      rewrite join_space_cons. by rewrite IH.
Qed.

Lemma clean_text_joined s : clean_text s = join_space (solid_runs s).
Proof.
  destruct (clean_text_normal s) as (Ht & Hk & Hh & Hl).
  rewrite <- clean_text_runs, (join_runs_tidy _ Ht Hk Hl).
  destruct (clean_text s) as [|c r]; [done|]. by rewrite (Hh c eq_refl).
Qed.

Lemma push_nonempty c b runs : push c b runs <> [].
Proof. by destruct b, runs. Qed.

Lemma starts_solid_runs s : starts_solid s = true -> solid_runs s <> [].
Proof.
  destruct s as [|c s]; [done|]. intros H.
  rewrite (solid_runs_solid c s H). apply push_nonempty.
Qed.

Lemma push_app c b X Y :
  (b = true -> X <> []) -> push c b (X ++ Y) = push c b X ++ Y.
Proof.
  intros H. destruct b; [|done]. destruct X; [by destruct H|done].
Qed.

Lemma solid_runs_app u t :
  starts_solid t = false -> solid_runs (u ++ t) = solid_runs u ++ solid_runs t.
Proof.
  intros Ht. induction u as [|c u IH]; [done|].
  change ((c :: u) ++ t) with (c :: (u ++ t)).
  destruct (solid c) eqn:Hc.
  - rewrite (solid_runs_solid c _ Hc), (solid_runs_solid c u Hc), IH.
    assert (Hst : starts_solid (u ++ t) = starts_solid u)
      by (destruct u; [exact Ht|done]).
    rewrite Hst. apply push_app, starts_solid_runs.
  - by rewrite (solid_runs_gap c _ Hc), (solid_runs_gap c u Hc).
Qed.

Lemma solid_runs_gaps gap t :
  Forall (fun c => solid c = false) gap -> solid_runs (gap ++ t) = solid_runs t.
Proof.
  induction 1 as [|c gap Hc _ IH]; [done|].
  change ((c :: gap) ++ t) with (c :: (gap ++ t)).
  by rewrite (solid_runs_gap c _ Hc).
Qed.

Lemma join_space_app L R :
  L <> [] -> R <> [] ->
  join_space (L ++ R) = join_space L ++ " "%char :: join_space R.
Proof.
  intros HL HR. induction L as [|w L IH]; [done|].
  destruct L as [|w' L].
  - destruct R; [done|reflexivity].
  - change (join_space ((w :: w' :: L) ++ R))
      with (w ++ " "%char :: join_space ((w' :: L) ++ R)).
    rewrite IH by done.
    change (join_space (w :: w' :: L))
      with (w ++ " "%char :: join_space (w' :: L)).
    by rewrite <- app_assoc.
Qed.

Lemma join_runs_last u a :
  solid a = true -> exists x, join_space (solid_runs (u ++ [a])) = x ++ [a].
Proof.
  intros Ha. induction u as [|c u [x IH]].
  - exists []. cbn [app]. by rewrite (solid_runs_solid a [] Ha).
  - change ((c :: u) ++ [a]) with (c :: (u ++ [a])).
    destruct (solid c) eqn:Hc.
    + rewrite (solid_runs_solid c _ Hc).
      destruct (solid_runs (u ++ [a])) as [|w ws].
      { by destruct x. }
      destruct (starts_solid (u ++ [a])); cbn [push].
      * exists (c :: x). by rewrite join_space_cons, IH.
      * exists (c :: " "%char :: x).
        change (join_space ([c] :: w :: ws))
          with (c :: " "%char :: join_space (w :: ws)).
        by rewrite IH.
    + exists x. by rewrite (solid_runs_gap c _ Hc).
Qed.

Lemma join_runs_head b v :
  solid b = true -> exists y, join_space (solid_runs (b :: v)) = b :: y.
Proof.
  intros Hb. rewrite (solid_runs_solid b v Hb).
  destruct (starts_solid v), (solid_runs v) as [|w ws]; cbn [push].
  - by exists [].
  - exists (join_space (w :: ws)). apply join_space_cons.
  - by exists [].
  - by exists (" "%char :: join_space (w :: ws)).
Qed.

(** Two copied characters with something between them that is not copied
    end up one space apart. *)
Lemma clean_text_gap u a gap b v :
  solid a = true -> solid b = true ->
  gap <> [] -> Forall (fun c => solid c = false) gap ->
  exists x y,
    clean_text (u ++ [a]) = x ++ [a] /\ clean_text (b :: v) = b :: y
    /\ clean_text (u ++ a :: gap ++ b :: v) = x ++ a :: " "%char :: b :: y.
Proof.
  intros Ha Hb Hne Hgap.
  destruct (join_runs_last u a Ha) as [x Hx].
  destruct (join_runs_head b v Hb) as [y Hy].
  exists x, y. rewrite !clean_text_joined.
  split; [done|]. split; [done|].
  replace (u ++ a :: gap ++ b :: v) with ((u ++ [a]) ++ gap ++ b :: v)
    by (by rewrite <- app_assoc).
  rewrite solid_runs_app, (solid_runs_gaps gap _ Hgap).
  - rewrite join_space_app, Hx, Hy.
    + by rewrite <- app_assoc.
    + intros H. rewrite H in Hx. by destruct x.
    + intros H. by rewrite H in Hy.
  - destruct gap as [|c gap]; [done|]. by inversion Hgap.
Qed.

Lemma join_push c st runs :
  runs <> [] ->
  join_space (push c st runs)
  = (if st then [c] else [c; " "%char]) ++ join_space runs.
Proof.
  destruct runs as [|w ws]; [done|]. intros _.
  destruct st; cbn [push]; [apply join_space_cons|reflexivity].
Qed.

Lemma join_nonempty runs x a : join_space runs = x ++ [a] -> runs <> [].
Proof. intros H ->. by destruct x. Qed.

Lemma join_runs_adjacent u a b v x :
  solid a = true -> solid b = true ->
  join_space (solid_runs (u ++ [a])) = x ++ [a] ->
  join_space (solid_runs (u ++ a :: b :: v))
  = x ++ a :: join_space (solid_runs (b :: v)).
Proof.
  intros Ha Hb. revert x. induction u as [|c u IH]; intros x Hx.
  - cbn [app] in *. rewrite (solid_runs_solid a [] Ha) in Hx.
    destruct x as [|? [|? ?]]; try discriminate Hx.
    rewrite (solid_runs_solid a _ Ha). cbn [starts_solid]. rewrite Hb.
    apply (join_push a true), starts_solid_runs. exact Hb.
  - change ((c :: u) ++ a :: b :: v) with (c :: (u ++ a :: b :: v)).
    change ((c :: u) ++ [a]) with (c :: (u ++ [a])) in Hx.
    destruct (solid c) eqn:Hc.
    + destruct (join_runs_last u a Ha) as [x' Hx'].
      assert (Hst : starts_solid (u ++ a :: b :: v) = starts_solid (u ++ [a]))
        by (by destruct u).
      rewrite (solid_runs_solid c _ Hc), Hst.
      rewrite (solid_runs_solid c _ Hc) in Hx.
      rewrite join_push, Hx' in Hx by (by apply (join_nonempty _ x' a)).
      specialize (IH x' Hx'). rewrite join_push, IH.
      * rewrite app_assoc in Hx. apply app_inj_tail in Hx as [<- _].
        by rewrite <- app_assoc.
      * intros H. rewrite H in IH. by destruct x'.
    + rewrite (solid_runs_gap c _ Hc). rewrite (solid_runs_gap c _ Hc) in Hx.
      by apply IH.
Qed.

(** Copied characters next to each other stay next to each other. *)
Lemma clean_text_adjacent u a b v :
  solid a = true -> solid b = true ->
  exists x y,
    clean_text (u ++ [a]) = x ++ [a] /\ clean_text (b :: v) = b :: y
    /\ clean_text (u ++ a :: b :: v) = x ++ a :: b :: y.
Proof.
  intros Ha Hb.
  destruct (join_runs_last u a Ha) as [x Hx].
  destruct (join_runs_head b v Hb) as [y Hy].
  exists x, y. rewrite !clean_text_joined.
  split; [done|]. split; [done|].
  by rewrite (join_runs_adjacent u a b v x Ha Hb Hx), Hy.
Qed.


(** The characters of a cleaned text. *)
Lemma clean_text_chars (s : str) :
  let r := clean_text s in
  Forall (fun c => c = " "%char \/
            (isspace_char c = false /\
             (isword_char c = true \/ ispunct_listed c = true))) r
  /\ (forall i, r !! i = Some " "%char -> r !! S i <> Some " "%char)
  /\ head r <> Some " "%char /\ last r <> Some " "%char
  /\ filter (fun c => isspace_char c = false) r
     = filter (fun c => isspace_char c = false /\ kept_char c = true) s
  /\ clean_text [] = [].
Proof.
  intros r. destruct (clean_text_normal s) as (Ht & Hk & Hh & Hl).
  change (clean_text s) with r in Ht, Hk, Hh, Hl. repeat split.
  - apply Forall_forall. intros c Hc.
    destruct (isspace_char c) eqn:Hs.
    + left. apply (tidy_spaces false r); [done| |done].
      by apply list_elem_of_In.
    + right. split; [done|].
      rewrite Forall_forall in Hk. specialize (Hk c Hc).
      unfold kept_char in Hk. rewrite Hs, orb_false_r in Hk.
      by apply orb_true_iff in Hk.
  - intros i. by apply (tidy_no_double false).
  - intros H. by apply Hh in H.
  - intros H. by apply Hl in H.
  - unfold r, clean_text, strip.
    rewrite rstrip_filter, lstrip_filter, sub_spaces_filter by done.
    rewrite sub_special_filter. apply sub_spaces_filter. by intros c [? _].
Qed.

(** C6, as the code has it: the result of [clean_text] is made of word
    characters (alphanumerics and the underscore), the listed punctuation
    and single spaces, with no space first or last; its characters other
    than spaces are the kept characters of the input, in order.  Spaces
    stand exactly where the input separates two copied characters: the
    result is the maximal runs of copied characters (kept and not
    whitespace) joined by one space each, so that two copied characters
    with a non-empty stretch of whitespace and removed characters between
    them come out one space apart (a removed character is turned into a
    space, not deleted), and two copied characters next to each other stay
    next to each other; the empty string is a possible result. *)
Theorem clean_text_shape (s : str) :
  let r := clean_text s in
  Forall (fun c => c = " "%char \/
            (isspace_char c = false /\
             (isword_char c = true \/ ispunct_listed c = true))) r
  /\ (forall i, r !! i = Some " "%char -> r !! S i <> Some " "%char)
  /\ head r <> Some " "%char /\ last r <> Some " "%char
  /\ filter (fun c => isspace_char c = false) r
     = filter (fun c => isspace_char c = false /\ kept_char c = true) s
  /\ r = join_space (solid_runs s)
  /\ (forall u a gap b v,
        s = u ++ a :: gap ++ b :: v ->
        solid a = true -> solid b = true ->
        gap <> [] -> Forall (fun c => solid c = false) gap ->
        exists x y,
          clean_text (u ++ [a]) = x ++ [a] /\ clean_text (b :: v) = b :: y
          /\ r = x ++ a :: " "%char :: b :: y)
  /\ (forall u a b v,
        s = u ++ a :: b :: v ->
        solid a = true -> solid b = true ->
        exists x y,
          clean_text (u ++ [a]) = x ++ [a] /\ clean_text (b :: v) = b :: y
          /\ r = x ++ a :: b :: y)
  /\ clean_text [] = [].
Proof.
  intros r.
  destruct (clean_text_chars s) as (Hchars & Hsingle & Hhead & Hlast & Hfilter & Hnil).
  split; [exact Hchars|]. split; [exact Hsingle|].
  split; [exact Hhead|]. split; [exact Hlast|]. split; [exact Hfilter|].
  split; [apply clean_text_joined|].
  split; [|split; [|exact Hnil]].
  - intros u a gap b v -> Ha Hb Hne Hgap. by apply clean_text_gap.
  - intros u a b v -> Ha Hb. by apply clean_text_adjacent.
Qed.

(** The runs of a text with every kind of separator, and the text cleaned. *)
Example clean_text_runs_example :
  solid_runs (py "  Hello,   world#again_1 ")
  = [py "Hello,"; py "world"; py "again_1"]
  /\ clean_text (py "  Hello,   world#again_1 ") = py "Hello, world again_1"
  /\ clean_text (py "a#b") = py "a b".
Proof. repeat split. Qed.

(** C6, as the specification words it, fails: the underscore is a word
    character of the pattern, so it survives although it is outside the
    set the specification names. *)
Lemma clean_text_keeps_underscore :
  clean_text (py "snake_case") = py "snake_case"
  /\ ~ Forall (fun c => spec_charset c = true) (clean_text (py "snake_case")).
Proof.
  split; [reflexivity|].
  intros H. rewrite Forall_forall in H.
  assert (Hin : "_"%char ∈ clean_text (py "snake_case"))
    by (apply list_elem_of_In; vm_compute; tauto).
  apply H in Hin. discriminate Hin.
Qed.

(** C10: [clean_text] is idempotent. *)
Theorem clean_text_idempotent (s : str) :
  clean_text (clean_text s) = clean_text s.
Proof. apply normal_fixed, clean_text_normal. Qed.

End FileParserFacts.

(** ** Counting and ranking *)

Module RankingFacts.
Import Ranking Counter.

Lemma str_eqb_eq a b : str_eqb a b = true <-> a = b.
Proof. unfold str_eqb. apply bool_decide_eq_true. Qed.

Lemma str_eqb_neq a b : str_eqb a b = false <-> a <> b.
Proof. unfold str_eqb. apply bool_decide_eq_false. Qed.

Lemma mem_In x l : mem x l = true <-> In x l.
Proof.
  unfold mem. rewrite existsb_exists. split.
  - intros (y & Hy & Heq). apply str_eqb_eq in Heq. by subst.
  - intros H. exists x. split; [done|]. by apply str_eqb_eq.
Qed.

Lemma mem_not_In x l : mem x l = false <-> ~ In x l.
Proof. rewrite <- mem_In. destruct (mem x l); split; congruence. Qed.

(** *** [before] *)

Lemma before_In {A} (l : list A) x y : before l x y -> In x l /\ In y l.
Proof.
  induction 1 as [x y l H|z x y l _ [IH1 IH2]]; simpl; auto.
Qed.

Lemma before_app_split {A} (l1 l2 : list A) x y :
  In x l1 -> In y l2 -> before (l1 ++ l2) x y.
Proof.
  intros Hx Hy. induction l1 as [|z l1 IH]; [done|].
  destruct Hx as [->|Hx]; simpl.
  - apply before_here. apply in_or_app. by right.
  - apply before_later. by apply IH.
Qed.

Lemma before_take {A} n (l : list A) x y :
  before (take n l) x y -> before l x y.
Proof.
  revert n. induction l as [|z l IH]; intros [|n]; simpl; try by inversion 1.
  inversion 1; subst.
  - apply before_here. apply list_elem_of_In.
    apply (subseteq_take n l). by apply list_elem_of_In.
  - apply before_later. by eapply IH.
Qed.

Lemma before_map {A B} (f : A -> B) (l : list A) x y :
  before l x y -> before (map f l) (f x) (f y).
Proof.
  induction 1; simpl.
  - apply before_here. by apply in_map.
  - by apply before_later.
Qed.

Lemma before_map_inv {A B} (f : A -> B) (l : list A) u v :
  before (map f l) u v ->
  exists x y, u = f x /\ v = f y /\ before l x y.
Proof.
  induction l as [|z l IH]; simpl; [by inversion 1|].
  inversion 1 as [x0 y0 l0 Hy|z0 x0 y0 l0 Hb]; subst.
  - apply in_map_iff in Hy as (y & <- & Hy).
    exists z, y. repeat split. by apply before_here.
  - destruct (IH Hb) as (x & y & -> & -> & Hb').
    exists x, y. repeat split. by apply before_later.
Qed.

Lemma before_lookup {A} (l : list A) i j x y :
  i < j -> l !! i = Some x -> l !! j = Some y -> before l x y.
Proof.
  revert i j. induction l as [|z l IH]; intros i j Hij Hi Hj; [done|].
  destruct j as [|j]; [lia|]. simpl in Hj.
  destruct i as [|i]; simpl in Hi.
  - injection Hi as ->. apply before_here.
    apply list_elem_of_In. by eapply list_elem_of_lookup_2.
  - apply before_later. apply (IH i j); [lia|done|done].
Qed.

(** *** Words in order of first occurrence *)

Lemma distinct_from_In seen words x :
  In x (distinct_from seen words) <-> In x words /\ ~ In x seen.
Proof.
  revert seen. induction words as [|w rest IH]; intros seen; simpl.
  - tauto.
  - destruct (mem w seen) eqn:Hm.
    + apply mem_In in Hm. rewrite IH. split.
      * intros [? ?]. auto.
      * intros [[->|?] ?]; [done|auto].
    + apply mem_not_In in Hm. simpl. rewrite IH. simpl. split.
      * intros [->|[? ?]]; [auto|]. split; [auto|]. tauto.
      * intros [[->|?] ?]; [auto|].
        destruct (decide (w = x)) as [->|Hne]; [auto|]. right. tauto.
Qed.

Lemma distinct_from_NoDup seen words : List.NoDup (distinct_from seen words).
Proof.
  revert seen. induction words as [|w rest IH]; intros seen; simpl.
  - constructor.
  - destruct (mem w seen); [apply IH|].
    constructor; [|apply IH].
    rewrite distinct_from_In. simpl. tauto.
Qed.

Lemma distinct_from_ext seen1 seen2 words :
  (forall x, In x seen1 <-> In x seen2) ->
  distinct_from seen1 words = distinct_from seen2 words.
Proof.
  revert seen1 seen2. induction words as [|w rest IH]; intros s1 s2 H; [done|].
  simpl. assert (Hm : mem w s1 = mem w s2).
  { destruct (mem w s1) eqn:H1; symmetry.
    - apply mem_In. apply H. by apply mem_In.
    - apply mem_not_In. rewrite <- H. by apply mem_not_In. }
  rewrite Hm. destruct (mem w s2); [by apply IH|].
  f_equal. apply IH. intros x. simpl. by rewrite H.
Qed.

Lemma first_index_cons_ne w x rest :
  w <> x -> first_index x (w :: rest) = S (first_index x rest).
Proof. intros H. simpl. apply str_eqb_neq in H. by rewrite H. Qed.

Lemma first_index_cons_eq w rest : first_index w (w :: rest) = 0.
Proof.
  simpl. assert (H : str_eqb w w = true) by by apply str_eqb_eq.
  by rewrite H.
Qed.

Lemma distinct_from_before seen words a b :
  before (distinct_from seen words) a b ->
  first_index a words < first_index b words.
Proof.
  revert seen. induction words as [|w rest IH]; intros seen; simpl.
  - inversion 1.
  - destruct (mem w seen) eqn:Hm.
    + intros Hb. pose proof (before_In _ _ _ Hb) as [Ha Hb'].
      apply distinct_from_In in Ha as [_ Ha].
      apply distinct_from_In in Hb' as [_ Hb'].
      apply mem_In in Hm.
      assert (w <> a) by (intros ->; done).
      assert (w <> b) by (intros ->; done).
      apply IH in Hb.
      change (first_index a (w :: rest) < first_index b (w :: rest)).
      rewrite !first_index_cons_ne by done. lia.
    + inversion 1 as [x y l Hy|z x y l Hb]; subst.
      * apply distinct_from_In in Hy as [_ Hy]. simpl in Hy.
        assert (a <> b) by tauto.
        change (first_index a (a :: rest) < first_index b (a :: rest)).
        rewrite first_index_cons_eq, first_index_cons_ne by done. lia.
      * pose proof (before_In _ _ _ Hb) as [Ha Hb'].
        apply distinct_from_In in Ha as [_ Ha].
        apply distinct_from_In in Hb' as [_ Hb']. simpl in Ha, Hb'.
        assert (w <> a) by tauto. assert (w <> b) by tauto.
        apply IH in Hb.
        change (first_index a (w :: rest) < first_index b (w :: rest)).
        rewrite !first_index_cons_ne by done. lia.
Qed.

(** *** The Counter *)

Lemma incr_keys w c :
  map fst (incr w c)
  = if mem w (map fst c) then map fst c else map fst c ++ [w].
Proof.
  induction c as [|[k n] c IH]; simpl; [done|].
  unfold mem in *. simpl.
  destruct (str_eqb k w) eqn:Hk.
  - apply str_eqb_eq in Hk. subst k.
    assert (H : str_eqb w w = true) by by apply str_eqb_eq.
    by rewrite H.
  - apply str_eqb_neq in Hk.
    assert (H : str_eqb w k = false) by (apply str_eqb_neq; congruence).
    rewrite H. simpl. rewrite IH.
    by destruct (existsb (str_eqb w) (map fst c)).
Qed.

Lemma get_incr_eq w c : get (incr w c) w = S (get c w).
Proof.
  induction c as [|[k n] c IH]; simpl.
  - assert (H : str_eqb w w = true) by by apply str_eqb_eq.
    by rewrite H.
  - destruct (str_eqb k w) eqn:Hk; simpl; by rewrite Hk.
Qed.

Lemma get_incr_ne w x c : x <> w -> get (incr w c) x = get c x.
Proof.
  intros Hne. induction c as [|[k n] c IH]; simpl.
  - assert (H : str_eqb w x = false) by (apply str_eqb_neq; congruence).
    by rewrite H.
  - destruct (str_eqb k w) eqn:Hk; simpl.
    + apply str_eqb_eq in Hk. subst k.
      assert (H : str_eqb w x = false) by (apply str_eqb_neq; congruence).
      by rewrite H.
    + destruct (str_eqb k x); [done|apply IH].
Qed.

Lemma freq_cons w x rest :
  freq x (w :: rest) = (if str_eqb w x then 1 else 0) + freq x rest.
Proof.
  unfold freq. rewrite filter_cons.
  destruct (str_eqb w x) eqn:H.
  - apply str_eqb_eq in H. by rewrite decide_True.
  - apply str_eqb_neq in H. by rewrite decide_False.
Qed.

Lemma fold_incr_keys words c :
  map fst (fold_left (fun c w => incr w c) words c)
  = map fst c ++ distinct_from (map fst c) words.
Proof.
  revert c. induction words as [|w rest IH]; intros c; simpl.
  - by rewrite app_nil_r.
  - rewrite IH, incr_keys.
    destruct (mem w (map fst c)) eqn:Hm; [done|].
    rewrite <- app_assoc. simpl. do 2 f_equal.
    apply distinct_from_ext. intros x. rewrite in_app_iff. simpl. tauto.
Qed.

Lemma fold_incr_get words c x :
  get (fold_left (fun c w => incr w c) words c) x = get c x + freq x words.
Proof.
  revert c. induction words as [|w rest IH]; intros c; simpl.
  - unfold freq. simpl. lia.
  - rewrite IH, freq_cons. destruct (str_eqb w x) eqn:H.
    + apply str_eqb_eq in H. subst. rewrite get_incr_eq. lia.
    + apply str_eqb_neq in H. rewrite get_incr_ne by congruence. lia.
Qed.

Lemma of_list_keys words : map fst (of_list words) = distinct words.
Proof. unfold of_list. by rewrite fold_incr_keys. Qed.

Lemma get_In c w n : List.NoDup (map fst c) -> In (w, n) c -> get c w = n.
Proof.
  induction c as [|[k m] c IH]; simpl; [done|].
  intros Hnd [Heq|Hin].
  - injection Heq as -> ->.
    assert (H : str_eqb w w = true) by by apply str_eqb_eq.
    by rewrite H.
  - inversion Hnd as [|? ? Hk Hnd']; subst.
    destruct (str_eqb k w) eqn:H.
    + apply str_eqb_eq in H. subst k. exfalso. apply Hk.
      apply in_map_iff. by exists (w, n).
    + by apply IH.
Qed.

Lemma of_list_count words w n :
  In (w, n) (of_list words) -> n = freq w words.
Proof.
  intros Hin. rewrite <- (get_In (of_list words) w n); [|  |done].
  - unfold of_list. by rewrite fold_incr_get.
  - rewrite of_list_keys. apply distinct_from_NoDup.
Qed.

(** *** The stable descending sort *)

Lemma desc_tail y l : desc (y :: l) -> desc l.
Proof. intros H p q Hb. apply H. by apply before_later. Qed.

Lemma insert_desc_perm x l : Permutation (insert_desc x l) (x :: l).
Proof.
  induction l as [|y l IH]; simpl; [done|].
  destruct (snd x <? snd y); [|done].
  rewrite IH. apply perm_swap.
Qed.

Lemma sorted_desc_perm c : Permutation (sorted_desc c) c.
Proof.
  induction c as [|x c IH]; simpl; [done|].
  rewrite insert_desc_perm. by constructor.
Qed.

Lemma insert_desc_before x l p q :
  desc l -> before (insert_desc x l) p q ->
  (p = x /\ In q l /\ snd q <= snd x)
  \/ (q = x /\ In p l /\ snd x < snd p)
  \/ before l p q.
Proof.
  induction l as [|y l IH]; intros Hd; simpl.
  - inversion 1 as [? ? ? Hq|? ? ? ? Hb]; subst; [done|inversion Hb].
  - destruct (snd x <? snd y) eqn:Hlt.
    + apply Nat.ltb_lt in Hlt.
      inversion 1 as [? ? ? Hq|? ? ? ? Hb]; subst.
      * apply (Permutation_in _ (insert_desc_perm x l)) in Hq.
        destruct Hq as [->|Hq].
        -- right. left. simpl. auto.
        -- right. right. by apply before_here.
      * destruct (IH (desc_tail _ _ Hd) Hb) as [(-> & Hq & Hle)|[(-> & Hp & Hl)|Hb']].
        -- left. simpl. auto.
        -- right. left. simpl. auto.
        -- right. right. by apply before_later.
    + apply Nat.ltb_ge in Hlt.
      inversion 1 as [? ? ? Hq|? ? ? ? Hb]; subst.
      * left. repeat split; [done|].
        destruct Hq as [->|Hq]; [done|].
        assert (snd q <= snd y) by (apply Hd; by apply before_here). lia.
      * auto.
Qed.

Lemma sorted_desc_stable c p q :
  before (sorted_desc c) p q ->
  snd q < snd p \/ (snd p = snd q /\ before c p q).
Proof.
  revert p q. induction c as [|x c IH]; intros p q; simpl.
  - inversion 1.
  - intros Hb. apply insert_desc_before in Hb.
    + destruct Hb as [(-> & Hq & Hle)|[(-> & Hp & Hl)|Hb]].
      * apply (Permutation_in _ (sorted_desc_perm c)) in Hq.
        destruct (decide (snd q < snd x)); [by left|].
        right. split; [lia|]. by apply before_here.
      * by left.
      * destruct (IH _ _ Hb) as [?|[? ?]]; [by left|].
        right. split; [done|]. by apply before_later.
    + intros p' q' Hb'. destruct (IH _ _ Hb') as [?|[? _]]; lia.
Qed.

End RankingFacts.

(** ** The keyword ranker *)

Module KeywordFacts.
Import Ranking Counter RankingFacts QuestionGenerator.
Section Keywords.

Context `{nltk : Nltk}.

Lemma extract_keywords_unfold text top_k :
  extract_keywords text top_k
  = map fst (take (Z.to_nat top_k) (sorted_desc (of_list (eligible text)))).
Proof. reflexivity. Qed.

Lemma eligible_In text w :
  In w (eligible text) <->
  In w (word_tokenize (lower text)) /\ keyword_ok w = true.
Proof.
  unfold eligible. rewrite <- !list_elem_of_In, list_elem_of_filter. tauto.
Qed.

Lemma keyword_ok_spec w :
  keyword_ok w = true <->
  isalpha w = true /\ ~ In w stop_words /\ 4 <= length w.
Proof.
  unfold keyword_ok. rewrite !andb_true_iff, negb_true_iff.
  rewrite mem_not_In, Nat.ltb_lt. intuition lia.
Qed.

Lemma ranked_keys text :
  Permutation (map fst (sorted_desc (of_list (eligible text))))
    (distinct (eligible text)).
Proof.
  rewrite <- of_list_keys. apply Permutation_map, sorted_desc_perm.
Qed.

Lemma ranked_before text p q :
  before (sorted_desc (of_list (eligible text))) p q ->
  ranks_before (eligible text) (fst p) (fst q).
Proof.
  intros Hb. pose proof (before_In _ _ _ Hb) as [Hp Hq].
  apply (Permutation_in _ (sorted_desc_perm _)) in Hp, Hq.
  destruct p as [a na], q as [b nb]. simpl.
  pose proof (of_list_count _ _ _ Hp) as Ha.
  pose proof (of_list_count _ _ _ Hq) as Hb'.
  apply sorted_desc_stable in Hb as [Hlt|[Heq Hb]]; simpl in *.
  - left. lia.
  - right. split; [lia|].
    apply (before_map fst) in Hb. rewrite of_list_keys in Hb.
    by apply distinct_from_before in Hb.
Qed.

Lemma extract_keywords_sub text top_k w :
  In w (extract_keywords text top_k) -> In w (distinct (eligible text)).
Proof.
  rewrite extract_keywords_unfold. intros Hw.
  apply (Permutation_in _ (ranked_keys text)).
  apply in_map_iff in Hw as (p & <- & Hp). apply in_map.
  apply list_elem_of_In. apply (subseteq_take (Z.to_nat top_k)).
  by apply list_elem_of_In.
Qed.

Lemma extract_keywords_ok text top_k w :
  In w (extract_keywords text top_k) -> keyword_ok w = true.
Proof.
  intros Hw. apply extract_keywords_sub in Hw.
  apply distinct_from_In in Hw as [Hw _]. apply eligible_In in Hw. tauto.
Qed.

Lemma extract_keywords_NoDup text top_k :
  List.NoDup (extract_keywords text top_k).
Proof.
  rewrite extract_keywords_unfold.
  set (S := sorted_desc (of_list (eligible text))).
  assert (Hnd : List.NoDup (map fst S)).
  { eapply Permutation_NoDup; [symmetry; apply ranked_keys|].
    apply distinct_from_NoDup. }
  rewrite <- (take_drop (Z.to_nat top_k) S), map_app in Hnd.
  by apply NoDup_app_remove_r in Hnd.
Qed.

Lemma extract_keywords_length text top_k :
  length (extract_keywords text top_k)
  = Nat.min (Z.to_nat top_k) (length (distinct (eligible text))).
Proof.
  rewrite extract_keywords_unfold, length_map, length_take.
  rewrite <- (Permutation_length (ranked_keys text)), length_map. done.
Qed.

(** The ranking, in terms of the tokens that pass the filter. *)
Lemma extract_keywords_eligible (text : str) (top_k : Z) :
  let words := eligible text in
  let out := extract_keywords text top_k in
  length out = Nat.min (Z.to_nat top_k) (length (distinct words))
  /\ length out <= Z.to_nat top_k
  /\ List.NoDup out
  /\ (forall w, In w out ->
        In w (word_tokenize (lower text)) /\ isalpha w = true
        /\ ~ In w stop_words /\ 4 <= length w)
  /\ (forall i j a b, i < j -> out !! i = Some a -> out !! j = Some b ->
        ranks_before words a b)
  /\ (forall a b, In a out -> In b words -> ~ In b out ->
        ranks_before words a b)
  /\ (word_tokenize (lower text) = [] -> out = []).
Proof.
  intros words out. unfold out. rewrite extract_keywords_unfold.
  fold words. set (S := sorted_desc (of_list words)).
  set (k := Z.to_nat top_k).
  assert (Hkeys : Permutation (map fst S) (distinct words))
    by apply ranked_keys.
  assert (Hnd : List.NoDup (map fst S)).
  { eapply Permutation_NoDup; [symmetry; exact Hkeys|].
    apply distinct_from_NoDup. }
  assert (Hsplit : map fst S = map fst (take k S) ++ map fst (drop k S))
    by (by rewrite <- map_app, take_drop).
  assert (Hlen : length (map fst (take k S))
                 = Nat.min k (length (distinct words))).
  { rewrite length_map, length_take.
    rewrite <- (Permutation_length Hkeys), length_map. done. }
  repeat split.
  - exact Hlen.
  - rewrite Hlen. lia.
  - rewrite Hsplit in Hnd. by apply NoDup_app_remove_r in Hnd.
  - assert (Hw : In w (distinct words)).
    { apply (Permutation_in _ Hkeys). rewrite Hsplit.
      apply in_or_app. by left. }
    apply distinct_from_In in Hw as [Hw _].
    apply eligible_In in Hw. tauto.
  - assert (Hw : In w (distinct words)).
    { apply (Permutation_in _ Hkeys). rewrite Hsplit.
      apply in_or_app. by left. }
    apply distinct_from_In in Hw as [Hw _].
    apply eligible_In in Hw as [_ Hw]. apply keyword_ok_spec in Hw. tauto.
  - assert (Hw : In w (distinct words)).
    { apply (Permutation_in _ Hkeys). rewrite Hsplit.
      apply in_or_app. by left. }
    apply distinct_from_In in Hw as [Hw _].
    apply eligible_In in Hw as [_ Hw]. apply keyword_ok_spec in Hw. tauto.
  - assert (Hw : In w (distinct words)).
    { apply (Permutation_in _ Hkeys). rewrite Hsplit.
      apply in_or_app. by left. }
    apply distinct_from_In in Hw as [Hw _].
    apply eligible_In in Hw as [_ Hw]. apply keyword_ok_spec in Hw. tauto.
  - intros i j a b Hij Hi Hj.
    pose proof (before_lookup _ _ _ _ _ Hij Hi Hj) as Hb.
    apply before_map_inv in Hb as (p & q & -> & -> & Hb).
    apply before_take in Hb. by apply ranked_before.
  - intros a b Ha Hb Hnb.
    apply in_map_iff in Ha as (p & <- & Hp).
    assert (Hb' : In b (map fst S)).
    { apply (Permutation_in _ (Permutation_sym Hkeys)).
      apply distinct_from_In. split; [done|by intros []]. }
    rewrite Hsplit in Hb'. apply in_app_or in Hb' as [Hb'|Hb']; [done|].
    apply in_map_iff in Hb' as (q & <- & Hq).
    apply (ranked_before text p q). fold words. fold S.
    rewrite <- (take_drop k S). by apply before_app_split.
  - intros Hnil. unfold S, words, eligible. rewrite Hnil. simpl.
    by rewrite take_nil.
Qed.

(** The filter of the list comprehension keeps exactly the tokens that are
    alphabetic, not stopwords, and four characters long or longer. *)
Lemma eligible_filter text :
  eligible text
  = filter (fun w => isalpha w = true /\ (w ∉ stop_words) /\ 4 <= length w)
      (word_tokenize (lower text)).
Proof.
  unfold eligible. apply list_filter_iff. intros w.
  rewrite keyword_ok_spec, list_elem_of_In. tauto.
Qed.

(** A token that passes the filter is returned, unless the output is
    full and holds only terms ranked ahead of it. *)
Lemma extract_keywords_complete text top_k w :
  In w (eligible text) ->
  In w (extract_keywords text top_k)
  \/ (length (extract_keywords text top_k) = Z.to_nat top_k
      /\ forall a, In a (extract_keywords text top_k) ->
           ranks_before (eligible text) a w).
Proof.
  intros Hw. rewrite extract_keywords_unfold.
  set (S := sorted_desc (of_list (eligible text))).
  set (k := Z.to_nat top_k).
  assert (Hin : In w (map fst S)).
  { apply (Permutation_in _ (Permutation_sym (ranked_keys text))).
    apply distinct_from_In. split; [done|by intros []]. }
  rewrite <- (take_drop k S), map_app in Hin.
  apply in_app_or in Hin as [Hin|Hin]; [by left|right].
  apply in_map_iff in Hin as (q & <- & Hq). split.
  - rewrite length_map, length_take.
    destruct (Nat.le_gt_cases (length S) k) as [Hle|Hlt]; [|lia].
    rewrite drop_ge in Hq by done. destruct Hq.
  - intros a Ha. apply in_map_iff in Ha as (p & <- & Hp).
    apply (ranked_before text p q). fold S.
    rewrite <- (take_drop k S). by apply before_app_split.
Qed.

(** Every token that passes the filter is returned when [top_k] is at
    least the number of distinct ones. *)
Lemma extract_keywords_all text top_k w :
  length (distinct (eligible text)) <= Z.to_nat top_k ->
  In w (eligible text) -> In w (extract_keywords text top_k).
Proof.
  intros Hk Hw. rewrite extract_keywords_unfold.
  pose proof (Permutation_length (ranked_keys text)) as Hlen.
  rewrite length_map in Hlen. rewrite take_ge by lia.
  apply (Permutation_in _ (Permutation_sym (ranked_keys text))).
  apply distinct_from_In. split; [done|by intros []].
Qed.

(** C3: [extract_keywords] ranks the tokens of the lowercased text that
    are alphabetic, not stopwords, and four characters long or longer:
    its output holds the distinct ones in order of descending frequency,
    ties in order of first appearance, cut to the first [top_k].  So it
    has at most [top_k] terms and no duplicates; every term is such a
    token; every such token is in it, unless it is full and all its terms
    rank ahead of that token (all of them are in it when [top_k] is at
    least their number); and there is no term at all when the text has
    no token. *)
Theorem extract_keywords_ranked (text : str) (top_k : Z) :
  let tokens := word_tokenize (lower text) in
  let words :=
    filter (fun w => isalpha w = true /\ (w ∉ stop_words) /\ 4 <= length w)
      tokens in
  let out := extract_keywords text top_k in
  length out = Nat.min (Z.to_nat top_k) (length (distinct words))
  /\ length out <= Z.to_nat top_k
  /\ List.NoDup out
  /\ (forall w, In w out ->
        In w tokens /\ isalpha w = true
        /\ ~ In w stop_words /\ 4 <= length w)
  /\ (forall w, In w tokens -> isalpha w = true -> ~ In w stop_words ->
        4 <= length w ->
        In w out
        \/ (length out = Z.to_nat top_k
            /\ forall a, In a out -> ranks_before words a w))
  /\ (length (distinct words) <= Z.to_nat top_k ->
      forall w, In w tokens -> isalpha w = true -> ~ In w stop_words ->
        4 <= length w -> In w out)
  /\ (forall i j a b, i < j -> out !! i = Some a -> out !! j = Some b ->
        ranks_before words a b)
  /\ (forall a b, In a out -> In b words -> ~ In b out ->
        ranks_before words a b)
  /\ (tokens = [] -> out = []).
Proof.
  intros tokens words out.
  assert (Hwords : words = eligible text) by (symmetry; apply eligible_filter).
  assert (Hel : forall w, In w tokens -> isalpha w = true ->
                  ~ In w stop_words -> 4 <= length w -> In w (eligible text)).
  { intros w Hin Ha Hs Hl. apply eligible_In. split; [done|].
    by apply keyword_ok_spec. }
  rewrite Hwords.
  destruct (extract_keywords_eligible text top_k)
    as (Hlen & Hle & Hnd & Hsub & Hord & Hcut & Hnil).
  split; [exact Hlen|]. split; [exact Hle|]. split; [exact Hnd|].
  split; [exact Hsub|].
  split; [|split; [|split; [exact Hord|split; [exact Hcut|exact Hnil]]]].
  - intros w Hin Ha Hs Hl. by apply extract_keywords_complete, Hel.
  - intros Hk w Hin Ha Hs Hl. by apply extract_keywords_all, Hel.
Qed.

(** The ranking on a sentence: [that] and [this] are stopwords, [cat] is
    too short; [rats], seen twice, comes first, and of the two words seen
    once the one seen first. *)
Example extract_keywords_example :
  extract_keywords (nltk := Plain.nltk)
    (py "That cat likes rats, this dog hates RATS.") 2
  = [py "rats"; py "likes"].
Proof. reflexivity. Qed.

End Keywords.
End KeywordFacts.

(** ** Reading comprehension *)

Module ReadingFacts.
Import QuestionGenerator.
Section Reading.

Context `{nltk : Nltk}.

Lemma take_min {A} (l : list A) (n : Z) :
  take (Z.to_nat (Z.min n (Z.of_nat (length l)))) l = take (Z.to_nat n) l.
Proof.
  destruct (Z.le_ge_cases n (Z.of_nat (length l))) as [H|H].
  - by rewrite Z.min_l.
  - rewrite Z.min_r by lia. rewrite Nat2Z.id.
    rewrite take_ge by lia. rewrite take_ge by lia. done.
Qed.

(** C8: one question for each of the first [count] sentences in document
    order (all of them when there are fewer; no sentence is filtered out),
    with the fixed prompt and with the first 100 characters of the
    sentence followed by the ellipsis, which is appended to a shorter
    sentence as well. *)
Theorem reading_comprehension_spec (text : str) (count : Z) :
  let sentences := sent_tokenize text in
  let qs := generate_reading_comprehension text count in
  length qs = Nat.min (Z.to_nat count) (length sentences)
  /\ (forall i s, i < Z.to_nat count -> sentences !! i = Some s ->
        qs !! i = Some (ReadingComprehension
                          (py "According to the text, what is the main idea?")
                          (take 100 s ++ py "...") (py "medium")))
  /\ (forall i s, i < Z.to_nat count -> sentences !! i = Some s ->
        length s <= 100 ->
        qs !! i = Some (ReadingComprehension
                          (py "According to the text, what is the main idea?")
                          (s ++ py "...") (py "medium"))).
Proof.
  intros sentences qs.
  assert (Hqs : qs = map reading_question (take (Z.to_nat count) sentences)).
  { unfold qs, generate_reading_comprehension. fold sentences.
    by rewrite take_min. }
  assert (Hi : forall i s, i < Z.to_nat count -> sentences !! i = Some s ->
                 qs !! i = Some (reading_question s)).
  { intros i s Hlt Hs. rewrite Hqs.
    change (map reading_question) with (fmap (M := list) reading_question).
    by rewrite list_lookup_fmap, lookup_take_lt, Hs. }
  repeat split.
  - by rewrite Hqs, length_map, length_take.
  - exact Hi.
  - intros i s Hlt Hs Hlen. rewrite (Hi i s Hlt Hs).
    unfold reading_question. by rewrite take_ge.
Qed.

End Reading.
End ReadingFacts.

Example reading_short_sentence :
  QuestionGenerator.generate_reading_comprehension (py "It rains. We stay.") 1
  = [ReadingComprehension
       (py "According to the text, what is the main idea?")
       (py "It rains....") (py "medium")].
Proof. reflexivity. Qed.

(** ** The random source *)

Module RandomFacts.
Import Random.

Lemma bind_Ok {A B} (m : M A) (f : A -> M B) r a r' :
  m r = Ok (a, r') -> (m ≫= f) r = f a r'.
Proof. intros H. unfold mbind, M_bind. by rewrite H. Qed.

Lemma bind_Raise {A B} (m : M A) (f : A -> M B) r e :
  m r = Raise e -> (m ≫= f) r = Raise e.
Proof. intros H. unfold mbind, M_bind. by rewrite H. Qed.

Lemma bind_inv {A B} (m : M A) (f : A -> M B) r b r2 :
  (m ≫= f) r = Ok (b, r2) ->
  exists a r1, m r = Ok (a, r1) /\ f a r1 = Ok (b, r2).
Proof.
  unfold mbind, M_bind. destruct (m r) as [[a r1]|e]; [|done].
  intros H. by exists a, r1.
Qed.

Lemma randbelow_lt n r :
  0 < n -> exists j r', randbelow n r = Ok (j, r') /\ j < n.
Proof.
  intros Hn. eexists _, _. split; [reflexivity|].
  apply Nat.mod_upper_bound. lia.
Qed.

Lemma choice_In {A} (seq : list A) r :
  seq <> [] -> exists x r', choice seq r = Ok (x, r') /\ In x seq.
Proof.
  intros Hne. destruct seq as [|a l]; [done|].
  destruct (randbelow_lt (length (a :: l)) r) as (j & r' & Hj & Hlt);
    [simpl; lia|].
  destruct (lookup_lt_is_Some_2 (a :: l) j Hlt) as [x Hx].
  exists x, r'. split.
  - unfold choice. rewrite (bind_Ok _ _ _ _ _ Hj). by rewrite Hx.
  - apply list_elem_of_In. by eapply list_elem_of_lookup_2.
Qed.

Lemma insert_perm {A} (l : list A) j x y :
  l !! j = Some x -> Permutation (x :: <[j := y]> l) (y :: l).
Proof.
  revert j. induction l as [|z l IH]; intros [|j] H; simpl in *; try done.
  - injection H as ->. apply perm_swap.
  - rewrite perm_swap, (IH j H). apply perm_swap.
Qed.

Lemma swap_perm {A} (x : list A) i j : Permutation (swap x i j) x.
Proof.
  unfold swap. destruct (x !! i) as [a|] eqn:Hi; [|done].
  destruct (x !! j) as [b|] eqn:Hj; [|done].
  destruct (decide (i = j)) as [->|Hne].
  - assert (a = b) by congruence. subst b.
    rewrite (list_insert_id x j a Hi). by rewrite (list_insert_id x j a Hi).
  - apply (Permutation_cons_inv (a := b)).
    rewrite (insert_perm (<[i := b]> x) j b a)
      by (by rewrite list_lookup_insert_ne).
    by apply insert_perm.
Qed.

Lemma shuffle_loop_perm {A} i (x : list A) r :
  exists out r', shuffle_loop i x r = Ok (out, r') /\ Permutation out x.
Proof.
  revert x r. induction i as [|i IH]; intros x r; simpl.
  - by exists x, r.
  - destruct (randbelow_lt (S i + 1) r) as (j & r1 & Hj & _); [lia|].
    rewrite (bind_Ok _ _ _ _ _ Hj).
    destruct (IH (swap x (S i) j) r1) as (out & r' & Hout & Hp).
    exists out, r'. split; [done|]. by rewrite Hp, swap_perm.
Qed.

Lemma shuffle_perm {A} (x : list A) r :
  exists out r', shuffle x r = Ok (out, r') /\ Permutation out x.
Proof. apply shuffle_loop_perm. Qed.

Lemma pool_step_snoc {A} (init : list A) j x y :
  (init ++ [y]) !! j = Some x ->
  Permutation (x :: take (length init) (<[j := y]> (init ++ [y])))
    (init ++ [y]).
Proof.
  intros Hj.
  assert (Hlt : j < length (init ++ [y])) by (by eapply lookup_lt_Some).
  rewrite length_app in Hlt. simpl in Hlt.
  destruct (decide (j = length init)) as [->|Hne].
  - rewrite (list_insert_id _ _ y).
    + rewrite list_lookup_middle in Hj by done. injection Hj as <-.
      rewrite take_app_length. by rewrite Permutation_app_comm.
    + by apply list_lookup_middle.
  - rewrite insert_app_l by lia.
    rewrite take_app_length' by (rewrite length_insert; lia).
    rewrite lookup_app_l in Hj by lia.
    rewrite (insert_perm init j x y Hj). by rewrite Permutation_app_comm.
Qed.

Lemma pool_step_perm {A} (pool : list A) j x y :
  pool !! j = Some x -> pool !! (length pool - 1) = Some y ->
  Permutation (x :: take (length pool - 1) (<[j := y]> pool)) pool.
Proof.
  destruct pool as [|z l] using rev_ind; [done|]. clear IHl.
  intros Hj Hy. rewrite length_app in *. simpl in *.
  replace (length l + 1 - 1) with (length l) in * by lia.
  rewrite list_lookup_middle in Hy by done. injection Hy as ->.
  by apply pool_step_snoc.
Qed.

Lemma sample_loop_perm {A} k (pool : list A) r :
  k <= length pool ->
  exists out r' rest, sample_loop k pool r = Ok (out, r')
     /\ length out = k /\ Permutation (out ++ rest) pool.
Proof.
  revert pool r. induction k as [|k IH]; intros pool r Hk; simpl.
  - by exists [], r, pool.
  - destruct (randbelow_lt (length pool) r) as (j & r1 & Hj & Hlt); [lia|].
    rewrite (bind_Ok _ _ _ _ _ Hj).
    destruct (lookup_lt_is_Some_2 pool j Hlt) as [x Hx].
    destruct (lookup_lt_is_Some_2 pool (length pool - 1)) as [y Hy]; [lia|].
    rewrite Hx, Hy.
    set (pool' := take (length pool - 1) (<[j := y]> pool)).
    destruct (IH pool' r1) as (out & r' & rest & Hout & Hlen & Hp).
    { unfold pool'. rewrite length_take, length_insert. lia. }
    rewrite (bind_Ok _ _ _ _ _ Hout).
    exists (x :: out), r', rest. repeat split; [simpl; lia|].
    simpl. rewrite Hp. by apply pool_step_perm.
Qed.

Lemma sample_perm {A} (population : list A) (k : Z) r :
  (0 <= k <= Z.of_nat (length population))%Z ->
  exists out r' rest, sample population k r = Ok (out, r')
     /\ length out = Z.to_nat k /\ Permutation (out ++ rest) population.
Proof.
  intros Hk. unfold sample.
  replace ((k <? 0)%Z || (Z.of_nat (length population) <? k)%Z) with false
    by (symmetry; apply orb_false_iff; split; apply Z.ltb_ge; lia).
  apply sample_loop_perm. lia.
Qed.

Lemma sample_negative {A} (population : list A) (k : Z) r :
  (k < 0)%Z -> sample population k r = Raise ValueError.
Proof.
  intros Hk. unfold sample.
  replace (k <? 0)%Z with true by (symmetry; apply Z.ltb_lt; lia). done.
Qed.

End RandomFacts.

(** ** Strings *)

Module StringFacts.

Lemma startswith_app p t : startswith p (p ++ t) = true.
Proof.
  induction p as [|a p IH]; simpl; [done|].
  by rewrite Ascii.eqb_refl, IH.
Qed.

Lemma startswith_inv p s :
  startswith p s = true -> exists t, s = p ++ t.
Proof.
  revert s. induction p as [|a p IH]; intros s; simpl.
  - intros _. by exists s.
  - destruct s as [|b s]; [done|].
    intros H. apply andb_true_iff in H as [Hab Hp].
    apply Ascii.eqb_eq in Hab. subst b.
    destruct (IH s Hp) as [t ->]. by exists t.
Qed.

Lemma startswith_drop (p t : str) : drop (length p) (p ++ t) = t.
Proof. by rewrite drop_app_length. Qed.

Lemma startswith_head c p d s :
  c <> d -> startswith (c :: p) (d :: s) = false.
Proof.
  intros Hne. simpl. apply Ascii.eqb_neq in Hne. by rewrite Hne.
Qed.

Lemma startswith_nil_r c p : startswith (c :: p) [] = false.
Proof. reflexivity. Qed.

(** [replace_first] rewrites the leftmost occurrence and nothing else. *)
Lemma replace_first_found old new s :
  contains old s = true ->
  exists pre post,
    s = pre ++ old ++ post
    /\ replace_first old new s = pre ++ new ++ post
    /\ (forall i, i < length pre -> ~ occurs_at old s i).
Proof.
  induction s as [|c s IH].
  - simpl. rewrite orb_false_r. intros H.
    destruct (startswith_inv _ _ H) as [t Ht].
    exists [], t. simpl. rewrite H. split; [done|]. split.
    + rewrite Ht at 1. by rewrite startswith_drop.
    + simpl. lia.
  - intros H.
    destruct (startswith old (c :: s)) eqn:Hs.
    + destruct (startswith_inv _ _ Hs) as [t Ht].
      exists [], t. split; [done|]. split.
      * change (replace_first old new (c :: s)) with
          (if startswith old (c :: s) then new ++ drop (length old) (c :: s)
           else c :: replace_first old new s).
        rewrite Hs, Ht. by rewrite startswith_drop.
      * simpl. lia.
    + change (contains old (c :: s)) with
        (startswith old (c :: s) || contains old s) in H.
      rewrite Hs in H. simpl in H.
      destruct (IH H) as (pre & post & Hsplit & Hrep & Hfirst).
      exists (c :: pre), post. split; [by rewrite Hsplit|]. split.
      * change (replace_first old new (c :: s)) with
          (if startswith old (c :: s) then new ++ drop (length old) (c :: s)
           else c :: replace_first old new s).
        by rewrite Hs, Hrep.
      * intros [|i] Hi; unfold occurs_at; simpl.
        -- by rewrite Hs.
        -- apply Hfirst. simpl in Hi. lia.
Qed.

Lemma replace_first_absent old new s :
  contains old s = false -> replace_first old new s = s.
Proof.
  induction s as [|c s IH].
  - simpl. rewrite orb_false_r. by intros ->.
  - change (contains old (c :: s)) with
      (startswith old (c :: s) || contains old s).
    intros H. apply orb_false_iff in H as [Hs Hc].
    change (replace_first old new (c :: s)) with
      (if startswith old (c :: s) then new ++ drop (length old) (c :: s)
       else c :: replace_first old new s).
    by rewrite Hs, IH.
Qed.

(** When the first character of [old] does not occur in [pre], the
    leftmost occurrence of [old] in [pre ++ old ++ post] is the one
    shown. *)
Lemma replace_first_at c old new pre post :
  ~ In c pre ->
  replace_first (c :: old) new (pre ++ (c :: old) ++ post)
  = pre ++ new ++ post.
Proof.
  induction pre as [|d pre IH]; intros Hc.
  - change ([] ++ (c :: old) ++ post) with ((c :: old) ++ post).
    destruct post as [|e post'] eqn:Hp.
    + rewrite app_nil_r.
      assert (H := startswith_app (c :: old) []). rewrite app_nil_r in H.
      simpl in *. rewrite H. rewrite drop_all. by rewrite app_nil_r.
    + assert (H := startswith_app (c :: old) (e :: post')).
      assert (Hd := startswith_drop (c :: old) (e :: post')).
      simpl in *. by rewrite H, Hd.
  - simpl in Hc.
    change ((d :: pre) ++ (c :: old) ++ post)
      with (d :: (pre ++ (c :: old) ++ post)).
    change (replace_first (c :: old) new (d :: (pre ++ (c :: old) ++ post)))
      with (if startswith (c :: old) (d :: (pre ++ (c :: old) ++ post))
            then new ++ drop (length (c :: old))
                          (d :: (pre ++ (c :: old) ++ post))
            else d :: replace_first (c :: old) new (pre ++ (c :: old) ++ post)).
    rewrite startswith_head by (intros ->; tauto). rewrite IH by tauto. done.
Qed.

Lemma count_from_absent c p s :
  ~ In c s -> count_from 0 (c :: p) s = 0.
Proof.
  induction s as [|d s IH]; intros Hc; [done|].
  simpl in Hc.
  change (count_from 0 (c :: p) (d :: s)) with
    (if startswith (c :: p) (d :: s)
     then S (count_from (length (c :: p) - 1) (c :: p) s)
     else count_from 0 (c :: p) s).
  rewrite startswith_head by (intros ->; tauto). apply IH. tauto.
Qed.

Lemma count_from_skip k sub s t :
  length s = k -> count_from k sub (s ++ t) = count_from 0 sub t.
Proof.
  revert s. induction k as [|k IH]; intros s Hs.
  - destruct s; [done|discriminate].
  - destruct s as [|d s]; [discriminate|]. simpl. apply IH.
    simpl in Hs. lia.
Qed.

(** A marker whose first character is absent from the text around it
    occurs exactly once. *)
Lemma count_once c p pre post :
  ~ In c pre -> ~ In c post ->
  count (c :: p) (pre ++ (c :: p) ++ post) = 1.
Proof.
  intros Hpre Hpost. unfold count.
  induction pre as [|d pre IH].
  - change ([] ++ (c :: p) ++ post) with (c :: (p ++ post)).
    change (count_from 0 (c :: p) (c :: (p ++ post))) with
      (if startswith (c :: p) (c :: (p ++ post))
       then S (count_from (length (c :: p) - 1) (c :: p) (p ++ post))
       else count_from 0 (c :: p) (p ++ post)).
    assert (H := startswith_app (c :: p) post). simpl in H.
    simpl startswith. rewrite H.
    replace (length (c :: p) - 1) with (length p) by (simpl; lia).
    rewrite count_from_skip by done. by rewrite count_from_absent.
  - simpl in Hpre.
    change ((d :: pre) ++ (c :: p) ++ post)
      with (d :: (pre ++ (c :: p) ++ post)).
    change (count_from 0 (c :: p) (d :: (pre ++ (c :: p) ++ post))) with
      (if startswith (c :: p) (d :: (pre ++ (c :: p) ++ post))
       then S (count_from (length (c :: p) - 1) (c :: p)
                 (pre ++ (c :: p) ++ post))
       else count_from 0 (c :: p) (pre ++ (c :: p) ++ post)).
    rewrite startswith_head by (intros ->; tauto). apply IH. tauto.
Qed.

End StringFacts.

(** ** The fill-blank synthesizer *)

Module FillBlankFacts.
Import QuestionGenerator RandomFacts StringFacts.
Section FillBlank.

Context `{nltk : Nltk}.

Lemma content_words_In sentence w :
  In w (filter (fun w => content_ok w = true) (word_tokenize sentence))
  <-> In w (word_tokenize sentence) /\ content_ok w = true.
Proof. rewrite <- !list_elem_of_In, list_elem_of_filter. tauto. Qed.

Lemma fill_blank_one_spec sentence r :
  exists q r', fill_blank_one sentence r = Ok (q, r')
    /\ ((q = [] /\ forall w, In w (word_tokenize sentence) ->
                     content_ok w = false)
        \/ (exists x, q = [x] /\ blank_of sentence x)).
Proof.
  unfold fill_blank_one.
  destruct (filter (fun w => content_ok w = true) (word_tokenize sentence))
    as [|w ws] eqn:Hcw.
  - exists [], r. split; [done|]. left. split; [done|].
    intros w Hw. destruct (content_ok w) eqn:Hok; [|done].
    assert (H : In w []) by (rewrite <- Hcw; by apply content_words_In).
    destruct H.
  - destruct (Random.choice (w :: ws) r) as [[x r']|e] eqn:Hch.
    + destruct (choice_In (w :: ws) r) as (x' & r'' & Hch' & Hin); [done|].
      rewrite Hch in Hch'. injection Hch' as <- <-.
      exists [FillBlank (replace_first x blank_marker sentence) x sentence], r'.
      split; [by rewrite (bind_Ok _ _ _ _ _ Hch)|].
      right. eexists. split; [done|]. exists x.
      rewrite <- Hcw in Hin. apply content_words_In in Hin. tauto.
    + destruct (choice_In (w :: ws) r) as (x' & r'' & Hch' & _); [done|].
      congruence.
Qed.

Lemma fill_blank_loop_spec selected r :
  exists qs r', fill_blank_loop selected r = Ok (qs, r')
    /\ length qs <= length selected
    /\ forall q, In q qs -> exists s, In s selected /\ blank_of s q.
Proof.
  revert r. induction selected as [|s rest IH]; intros r; simpl.
  - exists [], r. repeat split; [done|]. intros q [].
  - destruct (fill_blank_one_spec s r) as (q & r1 & Hq & Hcase).
    rewrite (bind_Ok _ _ _ _ _ Hq).
    destruct (IH r1) as (qs & r2 & Hqs & Hlen & Hall).
    rewrite (bind_Ok _ _ _ _ _ Hqs).
    exists (q ++ qs), r2. split; [done|].
    destruct Hcase as [[-> _]|(x & -> & Hx)]; simpl.
    + split; [lia|]. intros q Hin.
      destruct (Hall q Hin) as (s' & ? & ?). exists s'. auto.
    + split; [lia|]. intros q [<-|Hin].
      * exists s. auto.
      * destruct (Hall q Hin) as (s' & ? & ?). exists s'. auto.
Qed.

Lemma long_sentences_In text s :
  In s (long_sentences text)
  <-> In s (sent_tokenize text) /\ 8 < length (word_tokenize s).
Proof.
  unfold long_sentences.
  rewrite <- !list_elem_of_In, list_elem_of_filter, Nat.ltb_lt. tauto.
Qed.

(** The sample of sentences, for a count that is not negative. *)
Lemma select_sentences_total text n r :
  (0 <= n)%Z ->
  exists selected r' rest,
    select_sentences text n r = Ok (selected, r')
    /\ length selected
       = Nat.min (Z.to_nat n) (length (long_sentences text))
    /\ Permutation (selected ++ rest) (long_sentences text).
Proof.
  intros Hn. unfold select_sentences.
  set (k := Z.min n (Z.of_nat (length (long_sentences text)))).
  destruct (sample_perm (long_sentences text) k r)
    as (out & r' & rest & Hs & Hlen & Hp); [lia|].
  exists out, r', rest. repeat split; [done| |done]. lia.
Qed.

Lemma select_sentences_negative text n r :
  (n < 0)%Z -> select_sentences text n r = Raise ValueError.
Proof.
  intros Hn. unfold select_sentences. apply sample_negative. lia.
Qed.

Lemma generate_fill_blank_total text n r :
  (0 <= n)%Z ->
  exists qs r', generate_fill_blank_questions text n r = Ok (qs, r')
    /\ (Z.of_nat (length qs) <= n)%Z
    /\ forall q, In q qs ->
         exists s, In s (long_sentences text) /\ blank_of s q.
Proof.
  intros Hn. unfold generate_fill_blank_questions.
  destruct (select_sentences_total text n r Hn)
    as (sel & r1 & rest & Hsel & Hlen & Hp).
  rewrite (bind_Ok _ _ _ _ _ Hsel).
  destruct (fill_blank_loop_spec sel r1) as (qs & r2 & Hqs & Hle & Hall).
  exists qs, r2. split; [done|]. split; [lia|].
  intros q Hq. destruct (Hall q Hq) as (s & Hs & Hb).
  exists s. split; [|done].
  apply (Permutation_in _ Hp). apply in_or_app. by left.
Qed.

Lemma generate_fill_blank_negative text n r :
  (n < 0)%Z -> generate_fill_blank_questions text n r = Raise ValueError.
Proof.
  intros Hn. unfold generate_fill_blank_questions.
  by rewrite (bind_Raise _ _ _ _ (select_sentences_negative text n r Hn)).
Qed.

Lemma generate_fill_blank_emitted text n r qs r' q :
  generate_fill_blank_questions text n r = Ok (qs, r') -> In q qs ->
  exists s, In s (long_sentences text) /\ blank_of s q.
Proof.
  intros Hgen Hq. destruct (Z.lt_ge_cases n 0) as [Hn|Hn].
  - by rewrite generate_fill_blank_negative in Hgen.
  - destruct (generate_fill_blank_total text n r Hn)
      as (qs' & r'' & Hgen' & _ & Hall).
    rewrite Hgen in Hgen'. injection Hgen' as <- <-. by apply Hall.
Qed.

(** The part of C4 the code keeps: the blanked word is an alphabetic token
    of its sentence with four characters or more, so a sentence without
    such a token gives no question. *)
Lemma fill_blank_answer_content text n r qs r' prompt answer sentence :
  generate_fill_blank_questions text n r = Ok (qs, r') ->
  In (FillBlank prompt answer sentence) qs ->
  In answer (word_tokenize sentence) /\ isalpha answer = true
  /\ 4 <= length answer.
Proof.
  intros Hgen Hq.
  destruct (generate_fill_blank_emitted _ _ _ _ _ _ Hgen Hq)
    as (s & _ & a & Ha & Hok & Heq).
  injection Heq as -> -> ->. split; [done|].
  unfold content_ok in Hok. apply andb_true_iff in Hok as [? Hl].
  apply Nat.ltb_lt in Hl. split; [done|lia].
Qed.



(** C1, as the code has it: in every emitted fill-blank question the
    prompt is the sentence with the first textual occurrence of the answer,
    and only that one, replaced by the marker (the answer being a token
    that occurs in the sentence as written); when the sentence holds no
    underscore of its own, the marker occurs exactly once in the prompt
    and putting the answer back in its place gives the original
    sentence. *)
Theorem fill_blank_round_trip (text : str) (n : Z) (r r' : rng)
  (qs : list question) (prompt answer sentence : str) :
  generate_fill_blank_questions text n r = Ok (qs, r') ->
  In (FillBlank prompt answer sentence) qs ->
  contains answer sentence = true ->
  (exists pre post,
      sentence = pre ++ answer ++ post
      /\ prompt = pre ++ blank_marker ++ post
      /\ forall i, i < length pre -> ~ occurs_at answer sentence i)
  /\ (~ In "_"%char sentence ->
      count blank_marker prompt = 1
      /\ replace_first blank_marker answer prompt = sentence).
Proof.
  intros Hgen Hq Hocc.
  destruct (generate_fill_blank_emitted _ _ _ _ _ _ Hgen Hq)
    as (s & _ & a & _ & _ & Heq).
  injection Heq as -> -> ->.
  destruct (replace_first_found a blank_marker s Hocc)
    as (pre & post & Hs & Hp & Hfirst).
  split; [by exists pre, post|].
  intros Hus. rewrite Hp.
  assert (Hpre : ~ In "_"%char pre).
  { intros H. apply Hus. rewrite Hs. apply in_or_app. by left. }
  assert (Hpost : ~ In "_"%char post).
  { intros H. apply Hus. rewrite Hs. apply in_or_app. right.
    apply in_or_app. by right. }
  change blank_marker with ("_"%char :: py "____"). split.
  - by apply count_once.
  - rewrite replace_first_at by done. by rewrite Hs.
Qed.

End FillBlank.
End FillBlankFacts.



Example select_sentences_run :
  eval (QuestionGenerator.select_sentences
          (py "The quick brown fox jumps over the lazy dog today. The dog barks loudly at the fox every single morning.")
          1) (Plain.draws [1])
  = Ok [py "The dog barks loudly at the fox every single morning."].
Proof. reflexivity. Qed.

(** C1 at a plain sentence: the word [brown] is blanked. *)
Lemma fill_blank_round_trip_witness :
  eval (QuestionGenerator.generate_fill_blank_questions
          (py "The quick brown fox jumps over the lazy dog today.") 1)
       (Plain.draws [0; 1])
  = Ok [FillBlank (py "The quick _____ fox jumps over the lazy dog today.")
          (py "brown")
          (py "The quick brown fox jumps over the lazy dog today.")]
  /\ count blank_marker
       (py "The quick _____ fox jumps over the lazy dog today.") = 1
  /\ replace_first blank_marker (py "brown")
       (py "The quick _____ fox jumps over the lazy dog today.")
     = py "The quick brown fox jumps over the lazy dog today.".
Proof.
  split; [reflexivity|].
  destruct (QuestionGenerator.generate_fill_blank_questions
              (py "The quick brown fox jumps over the lazy dog today.") 1
              (Plain.draws [0; 1])) as [[qs r']|e] eqn:Hgen;
    [|discriminate Hgen].
  apply (FillBlankFacts.fill_blank_round_trip (nltk := Plain.nltk)
           (py "The quick brown fox jumps over the lazy dog today.") 1
           (Plain.draws [0; 1]) r' qs
           (py "The quick _____ fox jumps over the lazy dog today.")
           (py "brown")
           (py "The quick brown fox jumps over the lazy dog today.")).
  - exact Hgen.
  - revert Hgen. vm_compute. intros [= <- _]. by left.
  - reflexivity.
  - vm_compute. intuition discriminate.
Defined.

(** C1, as the specification words it, fails on a sentence that already
    holds a blank: the prompt then shows the marker twice, and putting the
    answer back in place of the first marker does not give the sentence. *)
Lemma fill_blank_marker_twice :
  eval (QuestionGenerator.generate_fill_blank_questions
          (py "Please fill _____ with some word that fits this sentence well.") 1)
       (Plain.draws [0; 4])
  = Ok [FillBlank
          (py "Please fill _____ with some _____ that fits this sentence well.")
          (py "word")
          (py "Please fill _____ with some word that fits this sentence well.")]
  /\ count blank_marker
       (py "Please fill _____ with some _____ that fits this sentence well.")
     = 2
  /\ replace_first blank_marker (py "word")
       (py "Please fill _____ with some _____ that fits this sentence well.")
     <> py "Please fill _____ with some word that fits this sentence well.".
Proof. repeat split; [reflexivity..|discriminate]. Qed.

(** C4 on the code: a stopword of four letters is blanked. *)
Lemma fill_blank_blanks_stopword :
  eval (QuestionGenerator.generate_fill_blank_questions
          (py "Nobody knew that those words were chosen with great care.") 1)
       (Plain.draws [0; 2])
  = Ok [FillBlank
          (py "Nobody knew _____ those words were chosen with great care.")
          (py "that")
          (py "Nobody knew that those words were chosen with great care.")]
  /\ mem (py "that") stop_words = true.
Proof. split; reflexivity. Qed.

(** ** The multiple-choice synthesizer *)

Module MultipleChoiceFacts.
Import QuestionGenerator RandomFacts RankingFacts KeywordFacts.
Section MultipleChoice.

Context `{nltk : Nltk}.

Lemma wrong_ok_eq keyword w :
  wrong_ok keyword w = true <-> w <> keyword /\ 3 < length w.
Proof.
  unfold wrong_ok. rewrite andb_true_iff, negb_true_iff, Nat.ltb_lt.
  by rewrite str_eqb_neq.
Qed.

Lemma collect_wrong_spec keyword keywords acc :
  length acc < 3 ->
  collect_wrong keyword keywords acc
  = acc ++ take (3 - length acc)
             (List.filter (wrong_ok keyword) keywords).
Proof.
  revert acc. induction keywords as [|w rest IH]; intros acc Hacc.
  - simpl. by rewrite take_nil, app_nil_r.
  - cbn [collect_wrong List.filter]. destruct (wrong_ok keyword w).
    + destruct (3 - length acc) as [|m] eqn:Hm; [lia|].
      rewrite firstn_cons.
      destruct (3 <=? length (acc ++ [w])) eqn:Hle.
      * apply Nat.leb_le in Hle. rewrite length_app in Hle. simpl in Hle.
        assert (m = 0) as -> by lia. by rewrite take_0.
      * apply Nat.leb_gt in Hle. rewrite length_app in Hle. simpl in Hle.
        rewrite IH by (rewrite length_app; simpl; lia).
        rewrite length_app. simpl. rewrite <- app_assoc. simpl.
        do 3 f_equal. lia.
    + by apply IH.
Qed.

Lemma pad_wrong_spec fuel acc :
  3 <= fuel + length acc ->
  pad_wrong fuel acc
  = acc ++ map distractor (seq (length acc) (3 - length acc)).
Proof.
  revert acc. induction fuel as [|fuel IH]; intros acc Hf.
  - simpl. replace (3 - length acc) with 0 by lia. simpl.
    by rewrite app_nil_r.
  - cbn [pad_wrong]. destruct (length acc <? 3) eqn:Hlt.
    + apply Nat.ltb_lt in Hlt.
      rewrite IH by (rewrite length_app; simpl; lia).
      rewrite length_app. simpl length. rewrite <- app_assoc.
      destruct (3 - length acc) as [|m] eqn:Hm; [lia|].
      replace (3 - (length acc + 1)) with m by lia.
      replace (length acc + 1) with (S (length acc)) by lia. done.
    + apply Nat.ltb_ge in Hlt.
      replace (3 - length acc) with 0 by lia. simpl. by rewrite app_nil_r.
Qed.

Lemma wrong_answers_for_spec keyword keywords :
  wrong_answers_for keyword keywords
  = others keyword keywords
    ++ map distractor (seq (length (others keyword keywords))
                         (3 - length (others keyword keywords))).
Proof.
  unfold wrong_answers_for. rewrite collect_wrong_spec by (simpl; lia).
  change ([] ++ take (3 - length (@nil str))
                  (List.filter (wrong_ok keyword) keywords))
    with (others keyword keywords).
  apply pad_wrong_spec. lia.
Qed.

Lemma others_length keyword keywords : length (others keyword keywords) <= 3.
Proof. unfold others. rewrite length_take. lia. Qed.

Lemma wrong_answers_for_length keyword keywords :
  length (wrong_answers_for keyword keywords) = 3.
Proof.
  rewrite wrong_answers_for_spec, length_app, length_map, length_seq.
  pose proof (others_length keyword keywords). lia.
Qed.

Lemma distractor_not_alpha n : isalpha (distractor n) = false.
Proof. reflexivity. Qed.

Lemma pads_NoDup a : List.NoDup (map distractor (seq a (3 - a))).
Proof.
  destruct a as [|[|[|a]]]; simpl; repeat constructor; simpl;
    intuition discriminate.
Qed.

Lemma pads_In a o :
  In o (map distractor (seq a (3 - a))) -> exists n, n < 3 /\ o = distractor n.
Proof.
  intros H. apply in_map_iff in H as (n & <- & Hn).
  apply in_seq in Hn. exists n. split; [lia|done].
Qed.

Lemma slice_to_In {A} (l : list A) n x : In x (slice_to l n) -> In x l.
Proof.
  unfold slice_to. intros H. apply list_elem_of_In in H.
  apply list_elem_of_In.
  destruct (n <? 0)%Z; by apply subseteq_take in H.
Qed.

Lemma slice_to_length {A} (l : list A) n :
  (0 <= n)%Z -> length (slice_to l n) = Nat.min (Z.to_nat n) (length l).
Proof.
  intros Hn. unfold slice_to.
  replace (n <? 0)%Z with false by (symmetry; apply Z.ltb_ge; lia).
  by rewrite length_take.
Qed.

Lemma others_In keyword keywords o :
  In o (others keyword keywords) -> In o keywords /\ o <> keyword.
Proof.
  unfold others. intros H. apply list_elem_of_In in H.
  apply subseteq_take in H. apply list_elem_of_In in H.
  apply filter_In in H as [Hin Hok]. apply wrong_ok_eq in Hok. tauto.
Qed.

Lemma others_NoDup keyword keywords :
  List.NoDup keywords -> List.NoDup (others keyword keywords).
Proof.
  intros Hnd. apply (List.NoDup_filter (wrong_ok keyword)) in Hnd.
  rewrite <- (take_drop 3 (List.filter (wrong_ok keyword) keywords)) in Hnd.
  by apply NoDup_app_remove_r in Hnd.
Qed.

Lemma options_NoDup keyword keywords :
  List.NoDup keywords ->
  (forall w, In w keywords -> isalpha w = true) ->
  isalpha keyword = true ->
  List.NoDup (keyword :: wrong_answers_for keyword keywords).
Proof.
  intros Hnd Halpha Hk. rewrite wrong_answers_for_spec.
  set (pads := map distractor (seq (length (others keyword keywords))
                                 (3 - length (others keyword keywords)))).
  assert (Hpads : forall o, In o pads -> isalpha o = false).
  { intros o Ho. apply pads_In in Ho as (n & _ & ->).
    apply distractor_not_alpha. }
  constructor.
  - intros Hin. apply in_app_or in Hin as [Hin|Hin].
    + apply others_In in Hin. tauto.
    + apply Hpads in Hin. congruence.
  - apply NoDup_ListNoDup. apply NoDup_app. repeat split.
    + apply NoDup_ListNoDup. by apply others_NoDup.
    + intros o Ho Ho'. apply list_elem_of_In in Ho, Ho'.
      apply others_In in Ho as [Ho _]. apply Halpha in Ho.
      apply Hpads in Ho'. congruence.
    + apply NoDup_ListNoDup. apply pads_NoDup.
Qed.

Lemma filter_all {A} (f : A -> bool) (l : list A) :
  (forall x, In x l -> f x = true) -> List.filter f l = l.
Proof.
  induction l as [|x l IH]; intros H; simpl; [done|].
  rewrite (H x) by (by left). f_equal. apply IH. intros y Hy. apply H.
  by right.
Qed.

Lemma keywords_split keyword keywords :
  List.NoDup keywords -> In keyword keywords ->
  (forall w, In w keywords -> 3 < length w) ->
  Permutation keywords (keyword :: List.filter (wrong_ok keyword) keywords).
Proof.
  induction keywords as [|w rest IH]; intros Hnd Hin Hlen; [done|].
  inversion Hnd as [|? ? Hw Hnd']; subst.
  destruct (decide (w = keyword)) as [->|Hne].
  - simpl. assert (Hk : wrong_ok keyword keyword = false).
    { unfold wrong_ok.
      assert (H : str_eqb keyword keyword = true) by by apply str_eqb_eq.
      by rewrite H. }
    rewrite Hk. rewrite filter_all; [done|].
    intros x Hx. apply wrong_ok_eq. split.
    + intros ->. done.
    + apply Hlen. by right.
  - simpl. assert (Hk : wrong_ok keyword w = true).
    { apply wrong_ok_eq. split; [done|]. apply Hlen. by left. }
    rewrite Hk. destruct Hin as [?|Hin]; [done|].
    rewrite perm_swap. constructor. apply IH; [done..|].
    intros x Hx. apply Hlen. by right.
Qed.

Lemma multiple_choice_one_spec keywords keyword r :
  exists options r',
    multiple_choice_one keywords keyword r
    = Ok (MultipleChoice mc_prompt options keyword (py "medium"), r')
    /\ Permutation options (keyword :: wrong_answers_for keyword keywords).
Proof.
  unfold multiple_choice_one.
  rewrite (take_ge (wrong_answers_for keyword keywords))
    by (rewrite wrong_answers_for_length; lia).
  destruct (shuffle_perm (keyword :: wrong_answers_for keyword keywords) r)
    as (out & r' & Hout & Hp).
  exists out, r'. split; [|done]. by rewrite (bind_Ok _ _ _ _ _ Hout).
Qed.

Lemma multiple_choice_loop_spec keywords todo r :
  exists qs r',
    multiple_choice_loop keywords todo r = Ok (qs, r')
    /\ length qs = length todo
    /\ forall q, In q qs ->
         exists keyword options,
           In keyword todo
           /\ q = MultipleChoice mc_prompt options keyword (py "medium")
           /\ Permutation options
                (keyword :: wrong_answers_for keyword keywords).
Proof.
  revert r. induction todo as [|kw rest IH]; intros r; simpl.
  - exists [], r. split; [done|]. split; [done|]. intros q [].
  - destruct (multiple_choice_one_spec keywords kw r)
      as (options & r1 & Hone & Hp).
    rewrite (bind_Ok _ _ _ _ _ Hone).
    destruct (IH r1) as (qs & r2 & Hqs & Hlen & Hall).
    rewrite (bind_Ok _ _ _ _ _ Hqs).
    eexists _, r2. split; [reflexivity|]. split; [simpl; lia|].
    intros q [<-|Hq].
    + exists kw, options. auto.
    + destruct (Hall q Hq) as (kw' & o' & ? & ? & ?).
      exists kw', o'. auto.
Qed.

(** C2: the multiple-choice synthesizer returns (it does not raise), and
    every question it emits has four pairwise distinct options, the
    correct answer among them; an option is a ranked keyword of the text
    or a placeholder [distractor_N], and when fewer than four keywords are
    available the options are those keywords and the placeholders that
    fill the remaining slots. *)
Theorem multiple_choice_options (text : str) (count : Z) (r : rng) :
  let keywords := extract_keywords text (count * 3) in
  exists qs r',
    generate_multiple_choice_questions text count r = Ok (qs, r')
    /\ forall q, In q qs ->
         exists options correct,
           q = MultipleChoice mc_prompt options correct (py "medium")
           /\ length options = 4
           /\ List.NoDup options
           /\ In correct options
           /\ In correct keywords
           /\ (forall o, In o options ->
                 In o keywords \/ exists n, n < 3 /\ o = distractor n)
           /\ (length keywords < 4 ->
               Permutation options
                 (keywords ++ map distractor
                                (seq (length keywords - 1)
                                   (4 - length keywords)))).
Proof.
  intros keywords. unfold generate_multiple_choice_questions. fold keywords.
  destruct (multiple_choice_loop_spec keywords
              (slice_to keywords count) r) as (qs & r' & Hqs & _ & Hall).
  exists qs, r'. split; [done|]. intros q Hq.
  destruct (Hall q Hq) as (kw & options & Hkw & -> & Hp).
  apply slice_to_In in Hkw.
  assert (Hok : forall w, In w keywords -> keyword_ok w = true)
    by (intros w; apply extract_keywords_ok).
  assert (Halpha : forall w, In w keywords -> isalpha w = true).
  { intros w Hw. apply Hok, keyword_ok_spec in Hw. tauto. }
  assert (Hlen : forall w, In w keywords -> 3 < length w).
  { intros w Hw. apply Hok, keyword_ok_spec in Hw. lia. }
  assert (Hnd : List.NoDup keywords) by apply extract_keywords_NoDup.
  exists options, kw. repeat split.
  - rewrite (Permutation_length Hp). simpl.
    by rewrite wrong_answers_for_length.
  - eapply Permutation_NoDup; [symmetry; exact Hp|].
    apply options_NoDup; auto.
  - apply (Permutation_in _ (Permutation_sym Hp)). by left.
  - done.
  - intros o Ho. apply (Permutation_in _ Hp) in Ho.
    destruct Ho as [<-|Ho]; [by left|].
    rewrite wrong_answers_for_spec in Ho.
    apply in_app_or in Ho as [Ho|Ho].
    + left. apply others_In in Ho. tauto.
    + right. by apply pads_In in Ho.
  - intros Hfew. rewrite Hp, wrong_answers_for_spec.
    pose proof (keywords_split kw keywords Hnd Hkw Hlen) as Hsplit.
    pose proof (Permutation_length Hsplit) as Hl. simpl in Hl.
    assert (Hothers : others kw keywords
                      = List.filter (wrong_ok kw) keywords).
    { unfold others. apply take_ge. lia. }
    rewrite Hothers.
    replace (length (List.filter (wrong_ok kw) keywords))
      with (length keywords - 1) by lia.
    replace (3 - (length keywords - 1)) with (4 - length keywords) by lia.
    rewrite app_comm_cons. by rewrite <- Hsplit.
Qed.

End MultipleChoice.
End MultipleChoiceFacts.

Example multiple_choice_run :
  eval (QuestionGenerator.generate_multiple_choice_questions
          (py "Birds sing. Birds fly.") 1) (Plain.draws [0])
  = Ok [MultipleChoice (py "Which word best fits the context?")
          (map py ["sing"; "distractor_1"; "distractor_2"; "birds"]%string)
          (py "birds") (py "medium")].
Proof. reflexivity. Qed.

(** ** The orchestrator *)

Module OrchestratorFacts.
Import Ranking QuestionGenerator RandomFacts KeywordFacts FillBlankFacts.
Import MultipleChoiceFacts.
Section Orchestrator.

Context `{nltk : Nltk}.

Lemma getitem_Some (config : gmap string Z) key v r :
  config !! key = Some v -> getitem config key r = Ok (v, r).
Proof. intros H. unfold getitem. by rewrite H. Qed.

Lemma getitem_None (config : gmap string Z) key r :
  config !! key = None -> getitem config key r = Raise (KeyError key).
Proof. intros H. unfold getitem. by rewrite H. Qed.

Lemma getitem_inv (config : gmap string Z) key v r r' :
  getitem config key r = Ok (v, r') -> config !! key = Some v /\ r' = r.
Proof.
  unfold getitem. destruct (config !! key); [|done].
  by intros [= -> ->].
Qed.

(** A ranked list cut by [slice_to] is no longer than the count and no
    longer than the list of distinct eligible words. *)
Lemma keyword_slice_length text n c :
  (0 < c)%Z ->
  let l := slice_to (extract_keywords text (n * c)) n in
  length l <= Z.to_nat n /\ length l <= length (distinct (eligible text)).
Proof.
  intros Hc l. unfold l.
  pose proof (extract_keywords_length text (n * c)) as Hlen.
  destruct (Z.lt_ge_cases n 0) as [Hn|Hn].
  - replace (Z.to_nat (n * c)) with 0 in Hlen by nia.
    simpl in Hlen. apply length_zero_iff_nil in Hlen. rewrite Hlen.
    unfold slice_to. destruct (n <? 0)%Z; rewrite take_nil; simpl; lia.
  - rewrite slice_to_length by done. lia.
Qed.

Lemma generate_vocabulary_length text n :
  length (generate_vocabulary_questions text n) <= Z.to_nat n
  /\ length (generate_vocabulary_questions text n)
     <= length (distinct (eligible text)).
Proof.
  unfold generate_vocabulary_questions. rewrite length_map.
  apply keyword_slice_length. lia.
Qed.

Lemma generate_multiple_choice_total text n r :
  exists qs r',
    generate_multiple_choice_questions text n r = Ok (qs, r')
    /\ length qs <= Z.to_nat n
    /\ length qs <= length (distinct (eligible text)).
Proof.
  unfold generate_multiple_choice_questions.
  destruct (multiple_choice_loop_spec (extract_keywords text (n * 3))
              (slice_to (extract_keywords text (n * 3)) n) r)
    as (qs & r' & Hqs & Hlen & _).
  exists qs, r'. split; [done|]. rewrite Hlen.
  apply keyword_slice_length. lia.
Qed.

Lemma generate_fill_blank_length text n r :
  (0 <= n)%Z ->
  exists qs r',
    generate_fill_blank_questions text n r = Ok (qs, r')
    /\ length qs <= Z.to_nat n
    /\ length qs <= length (long_sentences text).
Proof.
  intros Hn. unfold generate_fill_blank_questions.
  destruct (select_sentences_total text n r Hn)
    as (sel & r1 & rest & Hsel & Hlen & Hp).
  rewrite (bind_Ok _ _ _ _ _ Hsel).
  destruct (fill_blank_loop_spec sel r1) as (qs & r2 & Hqs & Hle & _).
  exists qs, r2. split; [done|]. lia.
Qed.

Lemma generate_reading_length text n :
  length (generate_reading_comprehension text n) <= Z.to_nat n
  /\ length (generate_reading_comprehension text n)
     <= length (sent_tokenize text).
Proof.
  unfold generate_reading_comprehension.
  rewrite length_map, length_take. lia.
Qed.

Lemma requested_effective config key :
  requested config key = effective config !! key.
Proof. by destruct config. Qed.

Lemma generate_all_unfold text config r :
  generate_all_questions text config r
  = (nv ← getitem (effective config) "vocabulary"%string;
     nf ← getitem (effective config) "fill_blank"%string;
     f ← generate_fill_blank_questions text nf;
     nm ← getitem (effective config) "multiple_choice"%string;
     m ← generate_multiple_choice_questions text nm;
     nr ← getitem (effective config) "reading_comprehension"%string;
     mret (all_questions (generate_vocabulary_questions text nv) f m
             (generate_reading_comprehension text nr))) r.
Proof. reflexivity. Qed.

Lemma generate_all_inv text config r res r' :
  generate_all_questions text config r = Ok (res, r') ->
  forall key, In key recognized -> is_Some (requested config key).
Proof.
  rewrite generate_all_unfold. intros H.
  apply bind_inv in H as (nv & r1 & Hv & H). apply getitem_inv in Hv as [Hv _].
  apply bind_inv in H as (nf & r2 & Hf & H). apply getitem_inv in Hf as [Hf _].
  apply bind_inv in H as (f & r3 & _ & H).
  apply bind_inv in H as (nm & r4 & Hm & H). apply getitem_inv in Hm as [Hm _].
  apply bind_inv in H as (m & r5 & _ & H).
  apply bind_inv in H as (nr & r6 & Hr & H). apply getitem_inv in Hr as [Hr _].
  intros key Hkey. rewrite requested_effective. simpl in Hkey.
  destruct Hkey as [<-|[<-|[<-|[<-|[]]]]]; eauto.
Qed.

(** C9: with the default counts, or with a mapping that gives each of the
    four types a count (the fill-blank count not negative),
    [generate_all_questions] returns its four sequences for every text and
    every outcome of the random draws; no sequence is longer than the
    count asked or than the material the text offers (distinct eligible
    keywords, long sentences, sentences), so a text without tokens and
    sentences, such as the empty string, yields four empty sequences. *)
Theorem synthesis_never_raises (text : str)
  (config : option (gmap string Z)) (r : rng) (nv nf nm nr : Z) :
  requested config "vocabulary"%string = Some nv ->
  requested config "fill_blank"%string = Some nf ->
  requested config "multiple_choice"%string = Some nm ->
  requested config "reading_comprehension"%string = Some nr ->
  (0 <= nf)%Z ->
  exists v f m rc r',
    generate_all_questions text config r = Ok (all_questions v f m rc, r')
    /\ v = generate_vocabulary_questions text nv
    /\ length v <= Z.to_nat nv
    /\ length v <= length (distinct (eligible text))
    /\ length f <= Z.to_nat nf
    /\ length f <= length (long_sentences text)
    /\ length m <= Z.to_nat nm
    /\ length m <= length (distinct (eligible text))
    /\ length rc <= Z.to_nat nr
    /\ length rc <= length (sent_tokenize text)
    /\ (word_tokenize (lower text) = [] -> sent_tokenize text = [] ->
        v = [] /\ f = [] /\ m = [] /\ rc = []).
Proof.
  rewrite !requested_effective. intros Hv Hf Hm Hr Hnf.
  destruct (generate_fill_blank_length text nf r Hnf)
    as (f & r1 & Hgf & Hf1 & Hf2).
  destruct (generate_multiple_choice_total text nm r1)
    as (m & r2 & Hgm & Hm1 & Hm2).
  pose proof (generate_vocabulary_length text nv) as [Hv1 Hv2].
  pose proof (generate_reading_length text nr) as [Hr1 Hr2].
  exists (generate_vocabulary_questions text nv), f, m,
    (generate_reading_comprehension text nr), r2.
  split.
  { rewrite generate_all_unfold.
    rewrite (bind_Ok _ _ _ _ _ (getitem_Some _ _ _ r Hv)).
    rewrite (bind_Ok _ _ _ _ _ (getitem_Some _ _ _ r Hf)).
    rewrite (bind_Ok _ _ _ _ _ Hgf).
    rewrite (bind_Ok _ _ _ _ _ (getitem_Some _ _ _ r1 Hm)).
    rewrite (bind_Ok _ _ _ _ _ Hgm).
    rewrite (bind_Ok _ _ _ _ _ (getitem_Some _ _ _ r2 Hr)).
    reflexivity. }
  repeat (split; [done|]).
  intros Hw Hs.
  assert (Hd : length (distinct (eligible text)) = 0)
    by (unfold eligible; by rewrite Hw).
  assert (Hl : length (long_sentences text) = 0)
    by (unfold long_sentences; by rewrite Hs).
  rewrite Hs in Hr2. simpl in Hr2.
  repeat split; apply length_zero_iff_nil; lia.
Qed.

(** C5, as the code has it: a key that is not one of the four recognized
    ones is ignored; a mapping that lacks a recognized key makes
    [generate_all_questions] raise ([KeyError] for ['vocabulary'], the
    first key read); the default counts 5, 5, 5 and 3 are used only when
    no mapping is passed. *)
Theorem config_keys (text : str) (r : rng) :
  (forall (config : gmap string Z) key v,
      ~ In key recognized ->
      generate_all_questions text (Some (<[key := v]> config)) r
      = generate_all_questions text (Some config) r)
  /\ (forall (config : gmap string Z),
        config !! "vocabulary"%string = None ->
        generate_all_questions text (Some config) r
        = Raise (KeyError "vocabulary"))
  /\ (forall (config : gmap string Z) key,
        In key recognized -> config !! key = None ->
        exists e, generate_all_questions text (Some config) r = Raise e)
  /\ generate_all_questions text None r
     = generate_all_questions text (Some default_config) r
  /\ map (requested None) recognized
     = [Some 5%Z; Some 5%Z; Some 5%Z; Some 3%Z].
Proof.
  split; [|split; [|split; [|split]]].
  - intros config key v Hkey. rewrite !generate_all_unfold.
    simpl in Hkey. unfold effective, getitem.
    rewrite !lookup_insert_ne by (intros ->; tauto). done.
  - intros config Hnone. rewrite generate_all_unfold.
    by rewrite (bind_Raise _ _ _ _ (getitem_None _ _ r Hnone)).
  - intros config key Hkey Hnone.
    destruct (generate_all_questions text (Some config) r)
      as [[res r']|e] eqn:Hgen; [|by exists e].
    destruct (generate_all_inv _ _ _ _ _ Hgen key Hkey) as [n Hn].
    simpl in Hn. congruence.
  - reflexivity.
  - reflexivity.
Qed.

End Orchestrator.
End OrchestratorFacts.

(** C9 at the empty string, with the default counts. *)
Lemma synthesis_never_raises_witness :
  exists v f m rc r',
    QuestionGenerator.generate_all_questions (py "") None (Plain.draws [0])
    = Ok (QuestionGenerator.all_questions v f m rc, r')
    /\ v = QuestionGenerator.generate_vocabulary_questions (py "") 5
    /\ length v <= Z.to_nat 5
    /\ length v
       <= length (Ranking.distinct (QuestionGenerator.eligible (py "")))
    /\ length f <= Z.to_nat 5
    /\ length f <= length (QuestionGenerator.long_sentences (py ""))
    /\ length m <= Z.to_nat 5
    /\ length m
       <= length (Ranking.distinct (QuestionGenerator.eligible (py "")))
    /\ length rc <= Z.to_nat 3
    /\ length rc <= length (sent_tokenize (py ""))
    /\ (word_tokenize (lower (py "")) = [] -> sent_tokenize (py "") = [] ->
        v = [] /\ f = [] /\ m = [] /\ rc = []).
Proof.
  apply (OrchestratorFacts.synthesis_never_raises (nltk := Plain.nltk)
           (py "") None (Plain.draws [0]) 5 5 5 3);
    [reflexivity..|lia].
Defined.

Example generate_all_empty :
  eval (QuestionGenerator.generate_all_questions (py "") None)
       (Plain.draws [0])
  = Ok (QuestionGenerator.all_questions [] [] [] []).
Proof. reflexivity. Qed.

(** C5, as the specification words it, fails: a mapping without the key
    ['fill_blank'] does not count as asking for no such question, the
    call raises. *)
Lemma missing_key_raises :
  eval (QuestionGenerator.generate_all_questions
          (py "Birds sing. Birds fly.")
          (Some {[ "vocabulary"%string := 1%Z ]}))
       (Plain.draws [0])
  = Raise (KeyError "fill_blank").
Proof. reflexivity. Qed.

Example extract_keywords_run :
  QuestionGenerator.extract_keywords
    (py "The quick brown fox jumps over the lazy dog. The dog barks loudly at the fox every single morning.")
    3
  = map py ["quick"; "brown"; "jumps"]%string.
Proof. reflexivity. Qed.

Example extract_keywords_ties :
  QuestionGenerator.extract_keywords
    (py "Birds sing. Birds fly high. Clouds sing.") 3
  = map py ["birds"; "sing"; "high"]%string.
Proof. reflexivity. Qed.

Example vocabulary_underfill :
  QuestionGenerator.generate_vocabulary_questions
    (py "Birds sing. Birds fly.") 5
  = [Vocabulary (py "What is the meaning of " ++ [quote_char] ++ py "birds"
                   ++ [quote_char] ++ py "?") (py "birds") (py "medium");
     Vocabulary (py "What is the meaning of " ++ [quote_char] ++ py "sing"
                   ++ [quote_char] ++ py "?") (py "sing") (py "medium")].
Proof. reflexivity. Qed.

(** One underscore next to the replaced occurrence is enough to lose the
    round trip: the first occurrence of [word] lies inside [some_word], the
    marker merges with the underscore before it, and the first run of five
    underscores no longer starts where the answer stood. *)
Example fill_blank_single_underscore :
  eval (QuestionGenerator.generate_fill_blank_questions
          (py "The token some_word holds one word that breaks this simple rule.") 1)
       (Plain.draws [0; 2])
  = Ok [FillBlank
          (py "The token some______ holds one word that breaks this simple rule.")
          (py "word")
          (py "The token some_word holds one word that breaks this simple rule.")]
  /\ replace_first blank_marker (py "word")
       (py "The token some______ holds one word that breaks this simple rule.")
     = py "The token someword_ holds one word that breaks this simple rule.".
Proof. split; reflexivity. Qed.

(** ** More on the synthesizers *)

Module SynthesizerFacts.
Import Ranking Counter RankingFacts QuestionGenerator RandomFacts.
Import KeywordFacts FillBlankFacts MultipleChoiceFacts OrchestratorFacts.
Section Synthesizers.

Context `{nltk : Nltk}.

(** A shorter cut of the ranking is a prefix of a longer one. *)
Lemma extract_keywords_take text (k k' : Z) :
  (k <= k')%Z ->
  extract_keywords text k = take (Z.to_nat k) (extract_keywords text k').
Proof.
  intros Hk. rewrite !extract_keywords_unfold.
  change (map fst) with (fmap (M := list) (@fst str nat)).
  rewrite <- fmap_take, take_take. do 2 f_equal. lia.
Qed.

Lemma slice_keywords text (n c : Z) :
  (1 <= c)%Z ->
  slice_to (extract_keywords text (n * c)) n = extract_keywords text n.
Proof.
  intros Hc. destruct (Z.lt_ge_cases n 0) as [Hn|Hn].
  - assert (Hnil : forall k, (k < 0)%Z -> extract_keywords text k = []).
    { intros k Hk. rewrite extract_keywords_unfold.
      replace (Z.to_nat k) with 0 by lia. by rewrite take_0. }
    rewrite (Hnil (n * c)%Z) by nia. rewrite (Hnil n) by lia.
    unfold slice_to. destruct (n <? 0)%Z; by rewrite take_nil.
  - unfold slice_to.
    replace (n <? 0)%Z with false by (symmetry; apply Z.ltb_ge; lia).
    symmetry. apply extract_keywords_take. nia.
Qed.

(** X1: the vocabulary synthesizer asks about the [n] best ranked
    keywords, one question each, in rank order; ranking twice as many
    first changes nothing. *)
Theorem vocabulary_questions_ranked (text : str) (n : Z) :
  generate_vocabulary_questions text n
  = map vocabulary_question (extract_keywords text n)
  /\ length (generate_vocabulary_questions text n)
     = Nat.min (Z.to_nat n) (length (distinct (eligible text))).
Proof.
  assert (H : generate_vocabulary_questions text n
              = map vocabulary_question (extract_keywords text n)).
  { unfold generate_vocabulary_questions. by rewrite slice_keywords. }
  split; [done|]. rewrite H, length_map. apply extract_keywords_length.
Qed.

Lemma multiple_choice_loop_corrects keywords todo r qs r' :
  multiple_choice_loop keywords todo r = Ok (qs, r') -> corrects qs = todo.
Proof.
  revert r qs r'. induction todo as [|kw rest IH]; intros r qs r'; simpl.
  - by intros [= <- _].
  - destruct (multiple_choice_one_spec keywords kw r)
      as (options & r1 & Hone & _).
    rewrite (bind_Ok _ _ _ _ _ Hone). intros H.
    apply bind_inv in H as (qs' & r2 & Hloop & H).
    injection H as <- _. simpl. f_equal. by eapply IH.
Qed.

(** X2: the multiple-choice synthesizer emits one question for each of
    the [n] best ranked keywords, in rank order, each keyword being the
    correct answer of its question; no keyword is asked twice. *)
Theorem multiple_choice_corrects (text : str) (n : Z) (r : rng) :
  exists qs r',
    generate_multiple_choice_questions text n r = Ok (qs, r')
    /\ corrects qs = extract_keywords text n
    /\ length qs = Nat.min (Z.to_nat n) (length (distinct (eligible text)))
    /\ List.NoDup (corrects qs).
Proof.
  unfold generate_multiple_choice_questions.
  destruct (multiple_choice_loop_spec (extract_keywords text (n * 3))
              (slice_to (extract_keywords text (n * 3)) n) r)
    as (qs & r' & Hqs & Hlen & _).
  pose proof (multiple_choice_loop_corrects _ _ _ _ _ Hqs) as Hc.
  rewrite slice_keywords in Hc, Hlen by lia.
  exists qs, r'. split; [done|]. split; [done|]. split.
  - rewrite Hlen. apply extract_keywords_length.
  - rewrite Hc. apply extract_keywords_NoDup.
Qed.

Lemma pads_last a : a <= 2 -> In (distractor 2) (map distractor (seq a (3 - a))).
Proof.
  intros Ha. apply in_map, in_seq. lia.
Qed.

Lemma others_full keyword keywords :
  List.NoDup keywords -> In keyword keywords ->
  (forall w, In w keywords -> 3 < length w) ->
  length (others keyword keywords) = Nat.min 3 (length keywords - 1).
Proof.
  intros Hnd Hin Hlen. unfold others. rewrite length_take.
  pose proof (Permutation_length (keywords_split _ _ Hnd Hin Hlen)) as Hl.
  simpl in Hl. lia.
Qed.

(** X3: the options of an emitted multiple-choice question are all
    keywords of the text exactly when the ranked pool (the best
    [3 * count] keywords) holds four keywords or more; with a smaller pool
    the placeholder [distractor_2] is always among the options. *)
Theorem multiple_choice_placeholders (text : str) (count : Z) (r : rng) :
  let keywords := extract_keywords text (count * 3) in
  exists qs r',
    generate_multiple_choice_questions text count r = Ok (qs, r')
    /\ forall p options c d, In (MultipleChoice p options c d) qs ->
         ((forall o, In o options -> In o keywords)
          <-> 4 <= length keywords)
         /\ (length keywords < 4 -> In (distractor 2) options).
Proof.
  intros keywords. unfold generate_multiple_choice_questions. fold keywords.
  destruct (multiple_choice_loop_spec keywords
              (slice_to keywords count) r) as (qs & r' & Hqs & _ & Hall).
  exists qs, r'. split; [done|]. intros p options c d Hq.
  destruct (Hall _ Hq) as (kw & options' & Hkw & Heq & Hp).
  injection Heq as -> -> -> ->. apply slice_to_In in Hkw.
  assert (Hok : forall w, In w keywords -> keyword_ok w = true)
    by (intros w; apply extract_keywords_ok).
  assert (Hlen : forall w, In w keywords -> 3 < length w).
  { intros w Hw. apply Hok, keyword_ok_spec in Hw. lia. }
  assert (Hnd : List.NoDup keywords) by apply extract_keywords_NoDup.
  pose proof (others_full kw keywords Hnd Hkw Hlen) as Hothers.
  rewrite wrong_answers_for_spec in Hp.
  assert (Hsmall : length keywords < 4 -> In (distractor 2) options').
  { intros Hfew. apply (Permutation_in _ (Permutation_sym Hp)).
    right. apply in_or_app. right. apply pads_last. lia. }
  split; [split|exact Hsmall].
  - intros Hsub. destruct (Nat.lt_ge_cases (length keywords) 4) as [Hfew|]; [|done].
    apply Hsmall, Hsub, Hok, keyword_ok_spec in Hfew.
    destruct Hfew as [Ha _]. by rewrite distractor_not_alpha in Ha.
  - intros Hmany o Ho. apply (Permutation_in _ Hp) in Ho.
    destruct Ho as [<-|Ho]; [done|].
    apply in_app_or in Ho as [Ho|Ho].
    + apply others_In in Ho. tauto.
    + replace (3 - length (others kw keywords)) with 0 in Ho by lia.
      destruct Ho.
Qed.

(** X4: asked for a single multiple-choice question, the synthesizer
    always fills an option with [distractor_2], however rich the text: it
    ranks only three keywords. Asked for two or more on a text with four
    distinct eligible words or more, it uses no placeholder. *)
Theorem multiple_choice_single (text : str) (count : Z) (r : rng) :
  exists qs r',
    generate_multiple_choice_questions text count r = Ok (qs, r')
    /\ (count = 1%Z ->
        forall p options c d, In (MultipleChoice p options c d) qs ->
          In (distractor 2) options)
    /\ ((2 <= count)%Z -> 4 <= length (distinct (eligible text)) ->
        forall p options c d, In (MultipleChoice p options c d) qs ->
          forall o, In o options ->
            In o (extract_keywords text (count * 3))
            /\ forall k, o <> distractor k).
Proof.
  unfold generate_multiple_choice_questions.
  set (keywords := extract_keywords text (count * 3)).
  destruct (multiple_choice_loop_spec keywords
              (slice_to keywords count) r) as (qs & r' & Hqs & _ & Hall).
  exists qs, r'. split; [done|].
  assert (Hok : forall w, In w keywords -> keyword_ok w = true)
    by (intros w; apply extract_keywords_ok).
  assert (Hlen : forall w, In w keywords -> 3 < length w).
  { intros w Hw. apply Hok, keyword_ok_spec in Hw. lia. }
  assert (Hnd : List.NoDup keywords) by apply extract_keywords_NoDup.
  pose proof (extract_keywords_length text (count * 3)) as Hpool.
  fold keywords in Hpool.
  split.
  - intros -> p options c d Hq.
    destruct (Hall _ Hq) as (kw & options' & Hkw & Heq & Hp).
    injection Heq as -> -> -> ->. apply slice_to_In in Hkw.
    pose proof (others_full kw keywords Hnd Hkw Hlen) as Hothers.
    rewrite wrong_answers_for_spec in Hp.
    apply (Permutation_in _ (Permutation_sym Hp)).
    right. apply in_or_app. right. apply pads_last.
    assert (length keywords <= 3)
      by (rewrite Hpool; change (Z.to_nat (1 * 3)) with 3; lia).
    lia.
  - intros Hcount Hrich p options c d Hq o Ho.
    destruct (Hall _ Hq) as (kw & options' & Hkw & Heq & Hp).
    injection Heq as -> -> -> ->. apply slice_to_In in Hkw.
    pose proof (others_full kw keywords Hnd Hkw Hlen) as Hothers.
    rewrite wrong_answers_for_spec in Hp.
    assert (Hin : In o keywords).
    { apply (Permutation_in _ Hp) in Ho. destruct Ho as [<-|Ho]; [done|].
      apply in_app_or in Ho as [Ho|Ho].
      - apply others_In in Ho. tauto.
      - replace (3 - length (others kw keywords)) with 0 in Ho by lia.
        destruct Ho. }
    split; [done|]. intros k ->.
    apply Hok, keyword_ok_spec in Hin.
    destruct Hin as [Ha _]. by rewrite distractor_not_alpha in Ha.
Qed.

Lemma has_content_false sentence :
  (forall w, In w (word_tokenize sentence) -> content_ok w = false) ->
  has_content sentence = false.
Proof.
  intros H. unfold has_content. apply not_true_is_false. intros Hex.
  apply existsb_exists in Hex as (w & Hw & Hok). apply H in Hw. congruence.
Qed.

Lemma blank_of_content sentence q :
  blank_of sentence q ->
  has_content sentence = true /\ originals [q] = [sentence].
Proof.
  intros (a & Ha & Hok & ->). split; [|done].
  unfold has_content. apply existsb_exists. by exists a.
Qed.

Lemma fill_blank_loop_originals selected r :
  exists qs r',
    fill_blank_loop selected r = Ok (qs, r')
    /\ originals qs = List.filter has_content selected.
Proof.
  revert r. induction selected as [|s rest IH]; intros r; simpl.
  - by exists [], r.
  - destruct (fill_blank_one_spec s r) as (q & r1 & Hq & Hcase).
    rewrite (bind_Ok _ _ _ _ _ Hq).
    destruct (IH r1) as (qs & r2 & Hqs & Ho).
    rewrite (bind_Ok _ _ _ _ _ Hqs).
    exists (q ++ qs), r2. split; [done|].
    unfold originals in *. rewrite flat_map_app, Ho.
    destruct Hcase as [[-> Hnone]|(x & -> & Hx)].
    + by rewrite (has_content_false s Hnone).
    + apply blank_of_content in Hx as [-> Hx].
      unfold originals in Hx. by rewrite Hx.
Qed.

Lemma filter_split {A} (f : A -> bool) (l : list A) :
  Permutation (List.filter f l ++ List.filter (fun x => negb (f x)) l) l.
Proof.
  induction l as [|x l IH]; simpl; [done|].
  destruct (f x); simpl.
  - by constructor.
  - rewrite <- Permutation_middle. by constructor.
Qed.

(** X5: for a count that is not negative, the fill-blank questions come
    from the sampled sentences in the order sampled, one for every sampled
    sentence that has an alphabetic token longer than three characters and
    none for the others; so no sentence of the text is used more often than
    it occurs among the long sentences. *)
Theorem fill_blank_originals (text : str) (n : Z) (r : rng) :
  (0 <= n)%Z ->
  exists selected r1 qs r' rest,
    select_sentences text n r = Ok (selected, r1)
    /\ generate_fill_blank_questions text n r = Ok (qs, r')
    /\ originals qs = List.filter has_content selected
    /\ length qs = length (originals qs)
    /\ Permutation (originals qs ++ rest) (long_sentences text).
Proof.
  intros Hn.
  destruct (select_sentences_total text n r Hn)
    as (sel & r1 & rest & Hsel & _ & Hp).
  destruct (fill_blank_loop_originals sel r1) as (qs & r' & Hqs & Ho).
  exists sel, r1, qs, r',
    (List.filter (fun s => negb (has_content s)) sel ++ rest).
  split; [done|]. split.
  { unfold generate_fill_blank_questions.
    by rewrite (bind_Ok _ _ _ _ _ Hsel). }
  split; [done|]. split.
  - destruct (fill_blank_loop_spec sel r1) as (qs' & r'' & Hqs' & _ & Hall).
    rewrite Hqs in Hqs'. injection Hqs' as <- <-.
    clear -Hall. induction qs as [|q qs IH]; [done|].
    destruct (Hall q (or_introl eq_refl)) as (s & _ & a & _ & _ & ->).
    simpl. f_equal. apply IH. intros q' Hq'. apply Hall. by right.
  - rewrite Ho, app_assoc, filter_split. done.
Qed.

(** X6: a negative count is no request for nothing everywhere: the
    vocabulary, multiple-choice and reading synthesizers return no
    question, but the fill-blank synthesizer raises ValueError, and so
    does [generate_all_questions] for a mapping with such a fill-blank
    count. *)
Theorem negative_counts (text : str) (n : Z) (r : rng) :
  (n < 0)%Z ->
  generate_vocabulary_questions text n = []
  /\ generate_reading_comprehension text n = []
  /\ generate_multiple_choice_questions text n r = Ok ([], r)
  /\ generate_fill_blank_questions text n r = Raise ValueError
  /\ (forall (config : gmap string Z) nv,
        config !! "vocabulary"%string = Some nv ->
        config !! "fill_blank"%string = Some n ->
        generate_all_questions text (Some config) r = Raise ValueError).
Proof.
  intros Hn.
  assert (Hnil : forall c, (1 <= c)%Z -> extract_keywords text (n * c) = []).
  { intros c Hc. rewrite extract_keywords_unfold.
    replace (Z.to_nat (n * c)) with 0 by nia. by rewrite take_0. }
  assert (Hslice : forall c, (1 <= c)%Z ->
            slice_to (extract_keywords text (n * c)) n = []).
  { intros c Hc. rewrite (Hnil c Hc). unfold slice_to.
    destruct (n <? 0)%Z; by rewrite take_nil. }
  split; [|split; [|split; [|split]]].
  - unfold generate_vocabulary_questions. by rewrite Hslice by lia.
  - unfold generate_reading_comprehension.
    replace (Z.to_nat (Z.min n (Z.of_nat (length (sent_tokenize text)))))
      with 0 by lia.
    by rewrite take_0.
  - unfold generate_multiple_choice_questions. by rewrite Hslice by lia.
  - by apply generate_fill_blank_negative.
  - intros config nv Hv Hf. rewrite generate_all_unfold.
    rewrite (bind_Ok _ _ _ _ _ (getitem_Some _ _ _ r Hv)).
    rewrite (bind_Ok _ _ _ _ _ (getitem_Some _ _ _ r Hf)).
    by rewrite (bind_Raise _ _ _ _
                  (generate_fill_blank_negative text n r Hn)).
Qed.

Lemma contains_app_r sub pre post :
  contains sub post = true -> contains sub (pre ++ post) = true.
Proof.
  intros H. induction pre as [|c pre IH]; [done|].
  change ((c :: pre) ++ post) with (c :: (pre ++ post)).
  change (contains sub (c :: (pre ++ post))) with
    (startswith sub (c :: (pre ++ post)) || contains sub (pre ++ post)).
  rewrite IH. apply orb_true_r.
Qed.

Lemma contains_prefix sub post : contains sub (sub ++ post) = true.
Proof.
  destruct (sub ++ post) eqn:Heq.
  - destruct sub; [done|discriminate].
  - rewrite <- Heq.
    assert (H := StringFacts.startswith_app sub post).
    destruct (sub ++ post); simpl; by rewrite H.
Qed.

(** X7: when the answer occurs in its sentence as written, the prompt of
    an emitted fill-blank question holds the blank marker, differs from the
    sentence and is as long as the sentence with the answer traded for five
    characters; when it does not occur, the prompt is the sentence
    unchanged. *)
Theorem fill_blank_prompt (text : str) (n : Z) (r r' : rng)
  (qs : list question) (prompt answer sentence : str) :
  generate_fill_blank_questions text n r = Ok (qs, r') ->
  In (FillBlank prompt answer sentence) qs ->
  (contains answer sentence = true ->
     contains blank_marker prompt = true
     /\ prompt <> sentence
     /\ length prompt + length answer = length sentence + 5)
  /\ (contains answer sentence = false -> prompt = sentence).
Proof.
  intros Hgen Hq.
  destruct (generate_fill_blank_emitted _ _ _ _ _ _ Hgen Hq)
    as (s & _ & a & _ & Hok & Heq).
  injection Heq as -> -> ->. split.
  - intros Hocc.
    destruct (StringFacts.replace_first_found a blank_marker s Hocc)
      as (pre & post & Hs & Hp & _).
    rewrite Hp. split; [|split].
    + apply contains_app_r, contains_prefix.
    + rewrite Hs. intros Heq. apply app_inv_head in Heq.
      unfold content_ok, isalpha in Hok.
      destruct a as [|c a']; [discriminate Hok|].
      apply andb_true_iff in Hok as [Hal _]. simpl in Hal.
      apply andb_true_iff in Hal as [Hc _].
      injection Heq as <- _. discriminate Hc.
    + rewrite Hs, !length_app. simpl. lia.
  - intros Habs. by apply StringFacts.replace_first_absent.
Qed.

End Synthesizers.
End SynthesizerFacts.

(** ** More on the text normalizer *)

Module NormalizerFacts.
Import FileParser Normalized FileParserFacts.

Lemma sub_spaces_blank b ws : blank ws -> blank (sub_spaces b ws).
Proof.
  intros H. revert b. induction H as [|c ws Hc _ IH]; intros b; simpl.
  - constructor.
  - rewrite Hc. destruct b; [apply IH|]. constructor; [done|apply IH].
Qed.

Lemma sub_special_blank ws : blank ws -> sub_special ws = ws.
Proof.
  intros H. apply sub_special_fixed.
  eapply Forall_impl; [exact H|]. intros c Hc. unfold kept_char.
  rewrite Hc. by rewrite orb_true_r.
Qed.

Lemma lstrip_blank ws s : blank ws -> lstrip (ws ++ s) = lstrip s.
Proof.
  induction 1 as [|c ws Hc _ IH]; simpl; [done|]. by rewrite Hc.
Qed.

Lemma rstrip_blank_nil ws : blank ws -> rstrip ws = [].
Proof.
  induction 1 as [|c ws Hc _ IH]; simpl; [done|]. by rewrite IH, Hc.
Qed.

Lemma rstrip_blank s ws : blank ws -> rstrip (s ++ ws) = rstrip s.
Proof.
  intros H. induction s as [|c s IH]; simpl.
  - by apply rstrip_blank_nil.
  - by rewrite IH.
Qed.

(** In front of whitespace the collapse leaves at most whitespace. *)
Lemma sub_spaces_app_blank b s ws :
  blank ws ->
  exists ws', blank ws' /\ sub_spaces b (s ++ ws) = sub_spaces b s ++ ws'.
Proof.
  intros H. revert b. induction s as [|c s IH]; intros b; simpl.
  - exists (sub_spaces b ws). split; [by apply sub_spaces_blank|done].
  - destruct (isspace_char c).
    + destruct (IH true) as (ws' & Hb & ->). exists ws'. by destruct b.
    + destruct (IH false) as (ws' & Hb & ->). by exists ws'.
Qed.

Lemma lstrip_app_blank s ws :
  blank ws -> exists ws', blank ws' /\ lstrip (s ++ ws) = lstrip s ++ ws'.
Proof.
  intros H. induction s as [|c s IH]; simpl.
  - exists []. split; [constructor|]. rewrite <- (app_nil_r ws).
    by rewrite lstrip_blank.
  - destruct (isspace_char c); [exact IH|]. by exists ws.
Qed.

(** The collapse of a text that starts inside a run and of the same text
    read from its start differ by a leading space at most. *)
Lemma lstrip_sub_spaces b s :
  lstrip (sub_spaces b s) = lstrip (sub_spaces true s).
Proof.
  destruct s as [|c s]; simpl; [done|].
  destruct (isspace_char c) eqn:Hc; [|done].
  destruct b; reflexivity.
Qed.

Lemma sub_spaces_cons_space b c s :
  isspace_char c = true ->
  lstrip (sub_spaces b (c :: s)) = lstrip (sub_spaces true s).
Proof.
  intros Hc. simpl. rewrite Hc. destruct b; reflexivity.
Qed.

Lemma sub_special_cons_space s :
  sub_special (" "%char :: s) = " "%char :: sub_special s.
Proof. reflexivity. Qed.

(** The normalizer up to the trimming on the left. *)
Lemma clean_text_cons_space c s :
  isspace_char c = true -> clean_text (c :: s) = clean_text s.
Proof.
  intros Hc. unfold clean_text, strip. f_equal.
  assert (Hhead : forall t,
            lstrip (sub_spaces false (sub_special (" "%char :: t)))
            = lstrip (sub_spaces true (sub_special t))).
  { intros t. rewrite sub_special_cons_space.
    by apply sub_spaces_cons_space. }
  simpl sub_spaces at 2. rewrite Hc, Hhead.
  destruct s as [|d s]; [done|]. simpl sub_spaces at 2 4.
  destruct (isspace_char d) eqn:Hd.
  - by rewrite Hhead.
  - by rewrite (lstrip_sub_spaces false).
Qed.

Lemma clean_text_app_blank s ws :
  blank ws -> clean_text (s ++ ws) = clean_text s.
Proof.
  intros H. unfold clean_text, strip.
  destruct (sub_spaces_app_blank false s ws H) as (w1 & H1 & ->).
  unfold sub_special at 1. rewrite map_app.
  fold (sub_special (sub_spaces false s)). fold (sub_special w1).
  rewrite (sub_special_blank w1 H1).
  destruct (sub_spaces_app_blank false
              (sub_special (sub_spaces false s)) w1 H1) as (w2 & H2 & ->).
  destruct (lstrip_app_blank
              (sub_spaces false (sub_special (sub_spaces false s))) w2 H2)
    as (w3 & H3 & ->).
  by apply rstrip_blank.
Qed.

(** X8: whitespace around a text does not matter to the normalizer. *)
Theorem clean_text_surrounding (before s after : str) :
  Forall (fun c => isspace_char c = true) before ->
  Forall (fun c => isspace_char c = true) after ->
  clean_text (before ++ s ++ after) = clean_text s.
Proof.
  intros Hb Ha. induction Hb as [|c ws Hc _ IH]; simpl.
  - by apply clean_text_app_blank.
  - by rewrite clean_text_cons_space.
Qed.

Lemma sub_spaces_length b s : length (sub_spaces b s) <= length s.
Proof.
  revert b. induction s as [|c s IH]; intros b; simpl; [done|].
  pose proof (IH true). pose proof (IH false).
  destruct (isspace_char c); [destruct b|]; simpl; lia.
Qed.

Lemma lstrip_length s : length (lstrip s) <= length s.
Proof.
  induction s as [|c s IH]; simpl; [done|].
  destruct (isspace_char c); simpl; lia.
Qed.

Lemma rstrip_length s : length (rstrip s) <= length s.
Proof.
  induction s as [|c s IH]; simpl; [done|].
  destruct (rstrip s); [destruct (isspace_char c)|]; simpl in *; lia.
Qed.

Lemma clean_text_kept_chars s :
  filter (fun c => isspace_char c = false) (clean_text s)
  = filter (fun c => isspace_char c = false /\ kept_char c = true) s.
Proof.
  unfold clean_text, strip.
  rewrite rstrip_filter, lstrip_filter, sub_spaces_filter by done.
  rewrite sub_special_filter. apply sub_spaces_filter. by intros c [? _].
Qed.

Lemma clean_text_all_dropped s :
  Forall (fun c => isspace_char c = true \/ kept_char c = false) s ->
  clean_text s = [].
Proof.
  intros Hall. pose proof (clean_text_kept_chars s) as Hf.
  assert (Hs : filter (fun c => isspace_char c = false
                                /\ kept_char c = true) s = []).
  { clear Hf. induction Hall as [|c t Hc _ IH]; [done|].
    rewrite filter_cons_False; [exact IH|]. intros [? ?].
    destruct Hc; congruence. }
  rewrite Hs in Hf.
  destruct (clean_text_normal s) as (Ht & _ & Hh & _).
  destruct (clean_text s) as [|c t]; [done|]. exfalso.
  specialize (Hh c eq_refl).
  rewrite filter_cons_True in Hf by done. discriminate Hf.
Qed.

(** X9: the normalizer never lengthens a text, and it returns the empty
    string exactly for a text with no character that is kept besides
    whitespace. *)
Theorem clean_text_empty_iff (s : str) :
  length (clean_text s) <= length s
  /\ (clean_text s = [] <->
      Forall (fun c => isspace_char c = true \/ kept_char c = false) s).
Proof.
  split.
  - unfold clean_text, strip.
    etransitivity; [apply rstrip_length|].
    etransitivity; [apply lstrip_length|].
    etransitivity; [apply sub_spaces_length|].
    unfold sub_special. rewrite length_map. apply sub_spaces_length.
  - pose proof (clean_text_kept_chars s) as Hf. split.
    + intros Hnil. rewrite Hnil in Hf. simpl in Hf. symmetry in Hf.
      apply Forall_forall. intros c Hc.
      destruct (isspace_char c) eqn:Hs; [by left|]. right.
      destruct (kept_char c) eqn:Hk; [|done]. exfalso.
      assert (Hin : c ∈ filter (fun c => isspace_char c = false
                                          /\ kept_char c = true) s)
        by (by apply list_elem_of_filter).
      rewrite Hf in Hin. by apply not_elem_of_nil in Hin.
    + intros Hall.
      assert (Hs : filter (fun c => isspace_char c = false
                                    /\ kept_char c = true) s = []).
      { clear Hf. induction Hall as [|c t Hc _ IH]; [done|].
        rewrite filter_cons_False; [exact IH|]. intros [? ?].
        destruct Hc; congruence. }
      rewrite Hs in Hf.
      destruct (clean_text_normal s) as (Ht & _ & Hh & _).
      destruct (clean_text s) as [|c t]; [done|]. exfalso.
      specialize (Hh c eq_refl).
      rewrite filter_cons_True in Hf by done. discriminate Hf.
Qed.

End NormalizerFacts.

(** ** File names *)

Module PathFacts.
Import Paths.

Lemma rfind_from_absent c s i best :
  ~ In c s -> rfind_from c s i best = best.
Proof.
  revert i best. induction s as [|d s IH]; intros i best Hc; simpl; [done|].
  simpl in Hc. assert (Hd : Ascii.eqb d c = false)
    by (apply Ascii.eqb_neq; tauto).
  rewrite Hd. apply IH. tauto.
Qed.

Lemma rfind_from_app c s t i best :
  rfind_from c (s ++ t) i best
  = rfind_from c t (i + length s) (rfind_from c s i best).
Proof.
  revert i best. induction s as [|d s IH]; intros i best; simpl.
  - by rewrite Nat.add_0_r.
  - rewrite IH. f_equal. lia.
Qed.

Lemma rfind_from_last c t i best :
  ~ In c t -> rfind_from c (c :: t) i best = Z.of_nat i.
Proof.
  intros Hc. simpl. rewrite Ascii.eqb_refl. by apply rfind_from_absent.
Qed.

Lemma has_name_spec before name after :
  has_name (before ++ name ++ after) (length before) (length name)
  = existsb not_dot name.
Proof.
  revert before. induction name as [|d name IH]; intros before; simpl.
  - done.
  - rewrite lookup_app_r by lia. rewrite Nat.sub_diag. simpl.
    unfold not_dot at 1. destruct (Ascii.eqb d "."); [|done]. simpl.
    specialize (IH (before ++ [d])).
    rewrite <- app_assoc, length_app in IH. simpl in IH.
    by rewrite Nat.add_1_r in IH.
Qed.

Lemma rfind_sep_dir dir rest :
  is_dir dir -> ~ In "/"%char rest ->
  (rfind "/" (dir ++ rest) + 1)%Z = Z.of_nat (length dir).
Proof.
  intros [->|[d ->]] Hrest; unfold rfind.
  - simpl. by rewrite rfind_from_absent.
  - rewrite <- app_assoc.
    change (["/"%char] ++ rest) with ("/"%char :: rest).
    rewrite rfind_from_app, rfind_from_last by done.
    rewrite length_app. simpl. lia.
Qed.

Lemma rfind_dot dir name e :
  ~ In "."%char e ->
  rfind "." (dir ++ name ++ "."%char :: e)
  = Z.of_nat (length dir + length name).
Proof.
  intros He. unfold rfind. rewrite app_assoc, rfind_from_app.
  rewrite rfind_from_last by done. rewrite length_app. lia.
Qed.

Lemma splitext_ext dir name e :
  is_dir dir -> ~ In "/"%char name -> ~ In "/"%char e ->
  ~ In "."%char e -> existsb not_dot name = true ->
  splitext (dir ++ name ++ "."%char :: e) = (dir ++ name, "."%char :: e).
Proof.
  intros Hdir Hname Hse Hde Hnd. unfold splitext.
  assert (Hsep : (rfind "/" (dir ++ name ++ "."%char :: e) + 1)%Z
                 = Z.of_nat (length dir)).
  { apply rfind_sep_dir; [done|]. rewrite in_app_iff. simpl.
    intros [?|[?|?]]; [tauto|discriminate|tauto]. }
  rewrite (rfind_dot dir name e Hde).
  replace (rfind "/" (dir ++ name ++ "."%char :: e))
    with (Z.of_nat (length dir) - 1)%Z by lia.
  replace (Z.of_nat (length dir) - 1 <? Z.of_nat (length dir + length name))%Z
    with true by (symmetry; apply Z.ltb_lt; lia).
  replace (Z.to_nat (Z.of_nat (length dir) - 1 + 1)) with (length dir) by lia.
  replace (Z.to_nat (Z.of_nat (length dir + length name)
                     - (Z.of_nat (length dir) - 1 + 1)))
    with (length name) by lia.
  rewrite has_name_spec, Hnd. simpl. rewrite Nat2Z.id.
  rewrite (app_assoc dir name).
  rewrite <- length_app.
  by rewrite take_app_length, drop_app_length.
Qed.

Lemma all_dots_snoc dots :
  dots <> [] -> Forall (fun d => d = "."%char) dots ->
  exists dots', dots = dots' ++ ["."%char]
    /\ Forall (fun d => d = "."%char) dots'.
Proof.
  destruct dots as [|d dots] using rev_ind; [done|]. clear IHdots.
  intros _ H. apply Forall_app in H as [H1 H2].
  inversion H2; subst. by exists dots.
Qed.

Lemma splitext_dots dir dots e :
  is_dir dir -> dots <> [] -> Forall (fun d => d = "."%char) dots ->
  ~ In "."%char e -> ~ In "/"%char e ->
  splitext (dir ++ dots ++ e) = (dir ++ dots ++ e, []).
Proof.
  intros Hdir Hne Hdots Hde Hse.
  destruct (all_dots_snoc dots Hne Hdots) as (dots' & -> & Hdots').
  rewrite <- app_assoc. change (["."%char] ++ e) with ("."%char :: e).
  unfold splitext.
  assert (Hslash : ~ In "/"%char dots').
  { intros Hin. rewrite Forall_forall in Hdots'.
    apply list_elem_of_In, Hdots' in Hin. discriminate. }
  assert (Hsep : (rfind "/" (dir ++ dots' ++ "."%char :: e) + 1)%Z
                 = Z.of_nat (length dir)).
  { apply rfind_sep_dir; [done|]. rewrite in_app_iff. simpl.
    intros [?|[?|?]]; [tauto|discriminate|tauto]. }
  rewrite (rfind_dot dir dots' e Hde).
  replace (rfind "/" (dir ++ dots' ++ "."%char :: e))
    with (Z.of_nat (length dir) - 1)%Z by lia.
  replace (Z.to_nat (Z.of_nat (length dir) - 1 + 1)) with (length dir) by lia.
  replace (Z.to_nat (Z.of_nat (length dir + length dots')
                     - (Z.of_nat (length dir) - 1 + 1)))
    with (length dots') by lia.
  rewrite has_name_spec.
  assert (Hnone : existsb not_dot dots' = false).
  { apply not_true_is_false. intros Hex.
    apply existsb_exists in Hex as (d & Hd & Hnd).
    rewrite Forall_forall in Hdots'.
    apply list_elem_of_In, Hdots' in Hd. by subst d. }
  rewrite Hnone. by rewrite andb_false_r.
Qed.

Lemma splitext_join p : fst (splitext p) ++ snd (splitext p) = p.
Proof.
  unfold splitext. destruct (_ && _); simpl.
  - apply take_drop.
  - apply app_nil_r.
Qed.

End PathFacts.

(** ** File types and extraction *)

Module ExtractionFacts.
Import FileParser Normalized FileParserFacts NormalizerFacts.
Import Paths PathFacts Extraction RankingFacts.

Lemma lower_app a b : lower (a ++ b) = lower a ++ lower b.
Proof. unfold lower. apply map_app. Qed.

(** X10: [detect_file_type] answers with one of six tags (never with
    ['doc'] or ['ppt']), and a tag other than ['unknown'] means that the
    lowercased file name ends with an extension listed for that tag. *)
Theorem detect_file_type_tags (filename : str) :
  In (detect_file_type filename)
     (map py ["pdf"; "docx"; "pptx"; "excel"; "csv"; "unknown"]%string)
  /\ (detect_file_type filename <> py "unknown" ->
      exists stem ext,
        lower filename = stem ++ ext
        /\ In (ext, detect_file_type filename) extension_table).
Proof.
  pose proof (splitext_join filename) as Hjoin.
  apply (f_equal lower) in Hjoin. rewrite lower_app in Hjoin.
  unfold detect_file_type.
  set (ext := lower (snd (splitext filename))) in *.
  set (stem := lower (fst (splitext filename))) in *.
  destruct (mem ext [py ".pdf"]) eqn:H1.
  { apply mem_In in H1. split; [simpl; tauto|]. intros _.
    exists stem, ext. split; [done|].
    destruct H1 as [<-|[]]. simpl. tauto. }
  destruct (mem ext [py ".docx"; py ".doc"]) eqn:H2.
  { apply mem_In in H2. split; [simpl; tauto|]. intros _.
    exists stem, ext. split; [done|].
    destruct H2 as [<-|[<-|[]]]; simpl; tauto. }
  destruct (mem ext [py ".pptx"; py ".ppt"]) eqn:H3.
  { apply mem_In in H3. split; [simpl; tauto|]. intros _.
    exists stem, ext. split; [done|].
    destruct H3 as [<-|[<-|[]]]; simpl; tauto. }
  destruct (mem ext [py ".xlsx"; py ".xls"]) eqn:H4.
  { apply mem_In in H4. split; [simpl; tauto|]. intros _.
    exists stem, ext. split; [done|].
    destruct H4 as [<-|[<-|[]]]; simpl; tauto. }
  destruct (str_eqb ext (py ".csv")) eqn:H5.
  { apply str_eqb_eq in H5. split; [simpl; tauto|]. intros _.
    exists stem, ext. split; [done|]. rewrite H5. simpl. tauto. }
  split; [simpl; tauto|]. intros H. done.
Qed.

(** X11: for a file name [dir/name.e] whose last component has a
    character other than a dot before its last dot, the type is read from
    the extension alone, whatever the case of its letters. *)
Theorem detect_file_type_extension (dir name e tag : str) :
  is_dir dir -> ~ In "/"%char name -> ~ In "/"%char e ->
  ~ In "."%char e -> existsb not_dot name = true ->
  splitext (dir ++ name ++ "."%char :: e) = (dir ++ name, "."%char :: e)
  /\ (In (lower ("."%char :: e), tag) extension_table ->
      detect_file_type (dir ++ name ++ "."%char :: e) = tag)
  /\ ((forall t, ~ In (lower ("."%char :: e), t) extension_table) ->
      detect_file_type (dir ++ name ++ "."%char :: e) = py "unknown").
Proof.
  intros Hdir Hname Hse Hde Hnd.
  pose proof (splitext_ext dir name e Hdir Hname Hse Hde Hnd) as Hsplit.
  split; [done|]. unfold detect_file_type. rewrite Hsplit.
  cbn [snd]. split.
  - intros Hin. unfold extension_table in Hin. cbn [In] in Hin.
    repeat (destruct Hin as [Hin|Hin];
            [apply pair_equal_spec in Hin as [Hx Ht];
             rewrite <- Hx, <- Ht; reflexivity|]).
    destruct Hin.
  - set (ext := lower ("."%char :: e)). intros Hnone.
    assert (Hno : forall x t, In (x, t) extension_table -> ext <> x).
    { intros x t Hin Heq. apply (Hnone t). by rewrite Heq. }
    assert (H1 : mem ext [py ".pdf"] = false).
    { apply mem_not_In. intros [Heq|[]]. symmetry in Heq. revert Heq.
      apply (Hno _ (py "pdf")). simpl. tauto. }
    assert (H2 : mem ext [py ".docx"; py ".doc"] = false).
    { apply mem_not_In. intros [Heq|[Heq|[]]]; symmetry in Heq; revert Heq;
        apply (Hno _ (py "docx")); simpl; tauto. }
    assert (H3 : mem ext [py ".pptx"; py ".ppt"] = false).
    { apply mem_not_In. intros [Heq|[Heq|[]]]; symmetry in Heq; revert Heq;
        apply (Hno _ (py "pptx")); simpl; tauto. }
    assert (H4 : mem ext [py ".xlsx"; py ".xls"] = false).
    { apply mem_not_In. intros [Heq|[Heq|[]]]; symmetry in Heq; revert Heq;
        apply (Hno _ (py "excel")); simpl; tauto. }
    assert (H5 : str_eqb ext (py ".csv") = false).
    { apply str_eqb_neq. apply (Hno (py ".csv") (py "csv")). simpl. tauto. }
    by rewrite H1, H2, H3, H4, H5.
Qed.

(** X12: a last component made of dots followed by letters, such as
    [.pdf], has no extension for [os.path.splitext]: its type is
    ['unknown']. *)
Theorem detect_file_type_hidden (dir dots e : str) :
  is_dir dir -> dots <> [] -> Forall (fun d => d = "."%char) dots ->
  ~ In "."%char e -> ~ In "/"%char e ->
  detect_file_type (dir ++ dots ++ e) = py "unknown".
Proof.
  intros Hdir Hne Hdots Hde Hse. unfold detect_file_type.
  by rewrite (splitext_dots dir dots e Hdir Hne Hdots Hde Hse).
Qed.

End ExtractionFacts.

Module ExtractorFacts.
Import FileParser Normalized FileParserFacts NormalizerFacts.
Import Extraction RankingFacts.
Section Extractors.

Context `{readers : Readers}.

Lemma normal_nil : normal [].
Proof. repeat split; done. Qed.

Lemma extract_text_from_pdf_normal p : normal (extract_text_from_pdf p).
Proof. apply clean_text_normal. Qed.

Lemma extract_text_from_docx_normal p : normal (extract_text_from_docx p).
Proof.
  unfold extract_text_from_docx.
  destruct (docx_paragraphs p); [apply clean_text_normal|apply normal_nil].
Qed.

Lemma extract_text_from_pptx_normal p : normal (extract_text_from_pptx p).
Proof.
  unfold extract_text_from_pptx.
  destruct (pptx_shape_texts p); [apply clean_text_normal|apply normal_nil].
Qed.

(** X13: [extract_text_from_file] raises ValueError exactly for a type
    other than ['pdf'], ['docx'], ['doc'], ['pptx'] and ['ppt']; for these
    five it returns, whatever the readers do, a text in the normal form of
    [clean_text] (on which [clean_text] changes nothing). *)
Theorem extract_text_from_file_spec (file_path file_type : str) :
  (In file_type (map py ["pdf"; "docx"; "doc"; "pptx"; "ppt"]%string) ->
     exists text,
       extract_text_from_file file_path file_type = Ok text
       /\ normal text /\ clean_text text = text)
  /\ (~ In file_type (map py ["pdf"; "docx"; "doc"; "pptx"; "ppt"]%string) ->
      extract_text_from_file file_path file_type = Raise ValueError).
Proof.
  unfold extract_text_from_file.
  destruct (str_eqb file_type (py "pdf")) eqn:H1.
  { apply str_eqb_eq in H1. split.
    - intros _. eexists. split; [reflexivity|].
      split; [apply extract_text_from_pdf_normal|].
      apply normal_fixed, extract_text_from_pdf_normal.
    - intros Hn. exfalso. apply Hn. simpl. auto. }
  destruct (mem file_type [py "docx"; py "doc"]) eqn:H2.
  { apply mem_In in H2. split.
    - intros _. eexists. split; [reflexivity|].
      split; [apply extract_text_from_docx_normal|].
      apply normal_fixed, extract_text_from_docx_normal.
    - intros Hn. exfalso. apply Hn. simpl in *. tauto. }
  destruct (mem file_type [py "pptx"; py "ppt"]) eqn:H3.
  { apply mem_In in H3. split.
    - intros _. eexists. split; [reflexivity|].
      split; [apply extract_text_from_pptx_normal|].
      apply normal_fixed, extract_text_from_pptx_normal.
    - intros Hn. exfalso. apply Hn. simpl in *. tauto. }
  apply str_eqb_neq in H1. apply mem_not_In in H2, H3. split; [|done].
  intros Hin. exfalso. simpl in *.
  destruct Hin as [?|[?|[?|[?|[?|[]]]]]]; subst; tauto.
Qed.

(** X14: fed with the type [detect_file_type] finds for a file name,
    [extract_text_from_file] raises ValueError exactly when that type is
    ['excel'], ['csv'] or ['unknown'], and returns a text for each of the
    three types the upload endpoint allows. *)
Theorem extract_detected (file_path filename : str) :
  (extract_text_from_file file_path (detect_file_type filename)
   = Raise ValueError
   <-> In (detect_file_type filename)
         (map py ["excel"; "csv"; "unknown"]%string))
  /\ (In (detect_file_type filename) (map py ["pdf"; "docx"; "pptx"]%string)
      <-> exists text,
            extract_text_from_file file_path (detect_file_type filename)
            = Ok text).
Proof.
  unfold detect_file_type.
  set (ext := lower (snd (Paths.splitext filename))).
  destruct (mem ext [py ".pdf"]);
    [|destruct (mem ext [py ".docx"; py ".doc"]);
      [|destruct (mem ext [py ".pptx"; py ".ppt"]);
        [|destruct (mem ext [py ".xlsx"; py ".xls"]);
          [|destruct (str_eqb ext (py ".csv"))]]]].
  all: split; split.
  all: try (intros H; discriminate H).
  all: try (intros [text H]; discriminate H).
  all: try (intros _; eexists; reflexivity).
  all: try (intros _; reflexivity).
  all: try (intros _; simpl; tauto).
  all: simpl; intros H; repeat (destruct H as [H|H]; try discriminate H);
    destruct H.
Qed.

Lemma append_lines_app text parts :
  append_lines text parts = text ++ append_lines [] parts.
Proof.
  unfold append_lines. revert text.
  induction parts as [|t parts IH]; intros text; simpl.
  - by rewrite app_nil_r.
  - rewrite (IH (text ++ t ++ [newline])), (IH (t ++ [newline])).
    by rewrite <- !app_assoc.
Qed.

Lemma rstrip_nil_blank s : rstrip s = [] -> blank s.
Proof.
  induction s as [|c s IH]; simpl; [constructor|].
  destruct (rstrip s) eqn:Hr; [|done].
  destruct (isspace_char c) eqn:Hc; [|done].
  intros _. constructor; [done|by apply IH].
Qed.

Lemma lstrip_blank_inv s : blank (lstrip s) -> blank s.
Proof.
  induction s as [|c s IH]; simpl; [done|].
  destruct (isspace_char c) eqn:Hc; [|done].
  intros H. constructor; [done|by apply IH].
Qed.

Lemma strip_nil_iff s : strip s = [] <-> blank s.
Proof.
  unfold strip. split.
  - intros H. by apply lstrip_blank_inv, rstrip_nil_blank.
  - intros H. rewrite <- (app_nil_r s), lstrip_blank by done. done.
Qed.

Lemma clean_text_blank_app ws s :
  blank ws -> clean_text (ws ++ s) = clean_text s.
Proof.
  induction 1 as [|c ws Hc _ IH]; simpl; [done|].
  by rewrite clean_text_cons_space.
Qed.

(** X15: [extract_text_from_pdf] returns the normalized pdfplumber text
    unless that text is whitespace only (or missing), in which case it
    returns the normalized PyPDF2 text; a pdfplumber text of characters
    that [clean_text] drops therefore blocks the fallback and gives the
    empty string. *)
Theorem extract_text_from_pdf_fallback (file_path : str) :
  let first := append_lines [] (pdfplumber_pages file_path) in
  let second := append_lines [] (pypdf2_pages file_path) in
  (blank first -> extract_text_from_pdf file_path = clean_text second)
  /\ (~ blank first -> extract_text_from_pdf file_path = clean_text first)
  /\ (~ blank first ->
      Forall (fun c => isspace_char c = true \/ kept_char c = false) first ->
      extract_text_from_pdf file_path = []).
Proof.
  intros first second. unfold extract_text_from_pdf. fold first.
  assert (Hno : ~ blank first ->
                match strip first with
                | [] => append_lines first (pypdf2_pages file_path)
                | _ :: _ => first
                end = first).
  { intros Hnb. destruct (strip first) eqn:Hs; [|done].
    exfalso. by apply Hnb, strip_nil_iff. }
  split; [|split].
  - intros Hb. apply strip_nil_iff in Hb as Hs. rewrite Hs.
    rewrite append_lines_app. by apply clean_text_blank_app.
  - intros Hnb. by rewrite (Hno Hnb).
  - intros Hnb Hall. rewrite (Hno Hnb).
    by apply clean_text_all_dropped.
Qed.

End Extractors.
End ExtractorFacts.

(** ** utils_text.py *)

Module VocabFacts.
Import Ranking Counter RankingFacts UtilsText.

Lemma vocab_step_ok c w :
  vocab_step c w = if vocab_ok w then incr w c else c.
Proof.
  unfold vocab_step, vocab_ok.
  destruct (length w <? 3); [done|]. by destruct (mem w STOP).
Qed.

Lemma fold_vocab_step words c :
  fold_left vocab_step words c
  = fold_left (fun c w => incr w c) (List.filter vocab_ok words) c.
Proof.
  revert c. induction words as [|w words IH]; intros c; [done|].
  cbn [fold_left List.filter]. rewrite vocab_step_ok.
  destruct (vocab_ok w); cbn [fold_left]; apply IH.
Qed.

Lemma slice_to_take {A} (l : list A) (k : Z) :
  slice_to l k
  = take (if (k <? 0)%Z then length l - Z.to_nat (- k) else Z.to_nat k) l.
Proof. unfold slice_to. by destruct (k <? 0)%Z. Qed.

(** The first [m] words of the ranking of [words]. *)
Lemma ranked_take_spec (words : list str) (m : nat) :
  let out := map fst (take m (sorted_desc (of_list words))) in
  length out = Nat.min m (length (distinct words))
  /\ List.NoDup out
  /\ (forall w, In w out -> In w words)
  /\ (forall a b, before out a b -> ranks_before words a b)
  /\ (forall a b, In a out -> In b words -> ~ In b out ->
        ranks_before words a b).
Proof.
  intros out. unfold out. set (S := sorted_desc (of_list words)).
  assert (Hkeys : Permutation (map fst S) (distinct words)).
  { rewrite <- of_list_keys. apply Permutation_map, sorted_desc_perm. }
  assert (Hnd : List.NoDup (map fst S)).
  { eapply Permutation_NoDup; [symmetry; exact Hkeys|].
    apply distinct_from_NoDup. }
  assert (Hsplit : map fst S = map fst (take m S) ++ map fst (drop m S))
    by (by rewrite <- map_app, take_drop).
  assert (Hrank : forall p q, before S p q ->
                    ranks_before words (fst p) (fst q)).
  { intros [a na] [b nb] Hb. pose proof (before_In _ _ _ Hb) as [Hp Hq].
    apply (Permutation_in _ (sorted_desc_perm _)) in Hp, Hq.
    pose proof (of_list_count _ _ _ Hp) as Ha.
    pose proof (of_list_count _ _ _ Hq) as Hb'.
    apply sorted_desc_stable in Hb as [Hlt|[Heq Hb]]; simpl in *.
    - left. lia.
    - right. split; [lia|].
      apply (before_map fst) in Hb. rewrite of_list_keys in Hb.
      by apply distinct_from_before in Hb. }
  split; [|split; [|split; [|split]]].
  - rewrite length_map, length_take.
    by rewrite <- (Permutation_length Hkeys), length_map.
  - rewrite Hsplit in Hnd. by apply NoDup_app_remove_r in Hnd.
  - intros w Hw.
    assert (Hd : In w (distinct words)).
    { apply (Permutation_in _ Hkeys). rewrite Hsplit.
      apply in_or_app. by left. }
    by apply distinct_from_In in Hd as [Hd _].
  - intros a b Hb.
    apply before_map_inv in Hb as (p & q & -> & -> & Hb).
    apply before_take in Hb. by apply Hrank.
  - intros a b Ha Hb Hnb.
    apply in_map_iff in Ha as (p & <- & Hp).
    assert (Hb' : In b (map fst S)).
    { apply (Permutation_in _ (Permutation_sym Hkeys)).
      apply distinct_from_In. split; [done|by intros []]. }
    rewrite Hsplit in Hb'. apply in_app_or in Hb' as [Hb'|Hb']; [done|].
    apply in_map_iff in Hb' as (q & <- & Hq).
    apply (Hrank p q). rewrite <- (take_drop m S).
    by apply before_app_split.
Qed.

Lemma extract_vocab_unfold text top_k :
  extract_vocab text top_k
  = map fst (take (if (top_k <? 0)%Z
                   then length (distinct (counted text)) - Z.to_nat (- top_k)
                   else Z.to_nat top_k)
               (sorted_desc (of_list (counted text)))).
Proof.
  unfold extract_vocab, counted. rewrite fold_vocab_step.
  fold (of_list (List.filter vocab_ok
          (findall vocab_char
             (lower match text with Some ((_ :: _) as t) => t | _ => [] end)))).
  rewrite slice_to_take. do 2 f_equal.
  destruct (top_k <? 0)%Z; [|done]. f_equal.
  rewrite (Permutation_length (sorted_desc_perm _)).
  by rewrite <- of_list_keys, length_map.
Qed.

(** The runs [findall_from] returns are not empty and made of characters
    of the class that occur in the text (or in the run already read). *)
Lemma findall_from_runs ok cur s w :
  Forall (fun c => ok c = true) cur ->
  In w (findall_from ok cur s) ->
  w <> [] /\ Forall (fun c => ok c = true /\ In c (rev cur ++ s)) w.
Proof.
  revert cur. induction s as [|c s IH]; intros cur Hcur; simpl.
  - destruct cur as [|d cur]; [done|]. intros [<-|[]]. split.
    + intros H. apply (f_equal length) in H.
      rewrite length_rev in H. discriminate H.
    + rewrite app_nil_r. apply Forall_forall. intros x Hx.
      apply list_elem_of_In in Hx. split; [|done].
      apply in_rev in Hx. rewrite Forall_forall in Hcur.
      apply Hcur. by apply list_elem_of_In.
  - destruct (ok c) eqn:Hc.
    + intros Hw. apply IH in Hw; [|by constructor].
      destruct Hw as [Hne Hall]. split; [done|].
      simpl in Hall. by rewrite <- app_assoc in Hall.
    + assert (Hrest : In w (findall_from ok [] s) ->
                w <> [] /\ Forall (fun x => ok x = true
                                  /\ In x (rev cur ++ c :: s)) w).
      { intros Hw. apply IH in Hw as [Hne Hall]; [|constructor].
        split; [done|]. eapply Forall_impl; [exact Hall|].
        intros x [? Hx]. split; [done|]. simpl in Hx.
        apply in_or_app. right. by right. }
      destruct cur as [|d cur]; [exact Hrest|].
      intros [<-|Hw]; [|by apply Hrest]. split.
      * intros H. apply (f_equal length) in H.
        rewrite length_rev in H. discriminate H.
      * apply Forall_forall. intros x Hx. apply list_elem_of_In in Hx.
        split; [|apply in_or_app; by left].
        apply in_rev in Hx. rewrite Forall_forall in Hcur.
        apply Hcur. by apply list_elem_of_In.
Qed.

Lemma lower_vocab_char x :
  vocab_char (lower_char x) = true -> lower_or_quote (lower_char x) = true.
Proof.
  destruct x as [[] [] [] [] [] [] [] []]; vm_compute; congruence.
Qed.

Lemma counted_In text w :
  In w (counted text) ->
  3 <= length w /\ ~ In w STOP
  /\ Forall (fun c => lower_or_quote c = true) w.
Proof.
  unfold counted. intros Hw. apply filter_In in Hw as [Hw Hok].
  unfold vocab_ok in Hok. apply andb_true_iff in Hok as [Hlen Hstop].
  apply negb_true_iff in Hlen, Hstop.
  apply Nat.ltb_ge in Hlen. apply mem_not_In in Hstop.
  split; [done|]. split; [done|].
  apply (findall_from_runs vocab_char []) in Hw as [_ Hall]; [|constructor].
  eapply Forall_impl; [exact Hall|]. intros c [Hc Hin]. simpl in Hin.
  unfold lower in Hin. apply in_map_iff in Hin as (x & <- & _).
  by apply lower_vocab_char.
Qed.

(** X16: [extract_vocab] returns distinct words of three characters or
    more, made of lowercase ASCII letters and apostrophes and outside the
    STOP list, ordered by descending frequency with ties in order of first
    appearance; a word it leaves out is ranked behind every word it
    returns. *)
Theorem extract_vocab_ranked (text : option str) (top_k : Z) :
  let words := counted text in
  let out := extract_vocab text top_k in
  List.NoDup out
  /\ (forall w, In w out ->
        In w words /\ 3 <= length w /\ ~ In w STOP
        /\ Forall (fun c => lower_or_quote c = true) w)
  /\ (forall i j a b, i < j -> out !! i = Some a -> out !! j = Some b ->
        ranks_before words a b)
  /\ (forall a b, In a out -> In b words -> ~ In b out ->
        ranks_before words a b).
Proof.
  intros words out. unfold out. rewrite extract_vocab_unfold. fold words.
  set (m := if (top_k <? 0)%Z
            then length (distinct words) - Z.to_nat (- top_k)
            else Z.to_nat top_k).
  destruct (ranked_take_spec words m) as (_ & Hnd & Hin & Hbefore & Hdrop).
  split; [done|]. split; [|split; [|done]].
  - intros w Hw. apply Hin in Hw. split; [done|].
    by apply (counted_In text).
  - intros i j a b Hij Hi Hj. apply Hbefore.
    by apply (before_lookup _ i j).
Qed.

(** X17: for [top_k >= 0] the result of [extract_vocab] has
    [min(top_k, d)] words, [d] being the number of distinct counted words;
    a negative [top_k] does not give an empty result but drops the
    [-top_k] lowest ranked words; no text, or an empty one, gives no
    word. *)
Theorem extract_vocab_length (text : option str) (top_k : Z) :
  let d := length (distinct (counted text)) in
  ((0 <= top_k)%Z ->
     length (extract_vocab text top_k) = Nat.min (Z.to_nat top_k) d)
  /\ ((top_k < 0)%Z ->
      length (extract_vocab text top_k) = d - Z.to_nat (- top_k)
      /\ extract_vocab text top_k
         = take (d - Z.to_nat (- top_k)) (extract_vocab text (Z.of_nat d)))
  /\ extract_vocab None top_k = []
  /\ extract_vocab (Some []) top_k = [].
Proof.
  intros d. split; [|split; [|split]].
  - intros Hk. rewrite extract_vocab_unfold.
    replace (top_k <? 0)%Z with false by (symmetry; apply Z.ltb_ge; lia).
    by destruct (ranked_take_spec (counted text) (Z.to_nat top_k)) as [-> _].
  - intros Hk. rewrite !extract_vocab_unfold.
    replace (top_k <? 0)%Z with true by (symmetry; apply Z.ltb_lt; lia).
    replace (Z.of_nat d <? 0)%Z with false by (symmetry; apply Z.ltb_ge; lia).
    fold d. split.
    + destruct (ranked_take_spec (counted text) (d - Z.to_nat (- top_k)))
        as [-> _]. fold d. lia.
    + change (map fst) with (fmap (M := list) (@fst str nat)).
      rewrite <- fmap_take, take_take. do 2 f_equal. lia.
  - unfold extract_vocab, slice_to. simpl.
    by destruct (top_k <? 0)%Z, (Z.to_nat top_k).
  - unfold extract_vocab, slice_to. simpl.
    by destruct (top_k <? 0)%Z, (Z.to_nat top_k).
Qed.

Lemma flat_map_pairs_lookup {A B} (f g : A -> B) (l : list A) i x :
  l !! i = Some x ->
  flat_map (fun w => [f w; g w]) l !! (2 * i) = Some (f x)
  /\ flat_map (fun w => [f w; g w]) l !! (2 * i + 1) = Some (g x).
Proof.
  revert i. induction l as [|y l IH]; intros i Hi; [done|].
  destruct i as [|i]; simpl in *.
  - by injection Hi as ->.
  - replace (i + S (i + 0)) with (S (2 * i)) by lia.
    replace (i + S (i + 0) + 1) with (S (2 * i + 1)) by lia.
    simpl. by apply IH.
Qed.

Lemma flat_map_pairs_length {A B} (f g : A -> B) (l : list A) :
  length (flat_map (fun w => [f w; g w]) l) = 2 * length l.
Proof. induction l as [|y l IH]; simpl; [done|]. rewrite IH. lia. Qed.

(** X18: [make_sample_sentences] gives two sentences, in this order, for
    each of the first ten words and nothing for the words after them:
    twenty sentences at most, none for [None] or an empty list. *)
Theorem make_sample_sentences_spec (words : list str) :
  let out := make_sample_sentences (Some words) in
  length out = 2 * Nat.min 10 (length words)
  /\ (forall i w, i < 10 -> words !! i = Some w ->
        out !! (2 * i) = Some (practice_sentence w)
        /\ out !! (2 * i + 1) = Some (usage_sentence w))
  /\ make_sample_sentences None = []
  /\ make_sample_sentences (Some []) = [].
Proof.
  intros out.
  assert (Hout : out = flat_map (fun w => [practice_sentence w;
                                          usage_sentence w])
                         (take 10 words)).
  { unfold out, make_sample_sentences. destruct words; reflexivity. }
  split; [|split; [|split; reflexivity]].
  - by rewrite Hout, flat_map_pairs_length, length_take.
  - intros i w Hi Hw. rewrite Hout. apply flat_map_pairs_lookup.
    by rewrite lookup_take_lt.
Qed.

End VocabFacts.

Example extract_vocab_run :
  UtilsText.extract_vocab
    (Some (py "The cat's toy and the Cat's bowl: a toy, a bowl, a bed."))
    2
  = map py ["cat's"; "toy"]%string.
Proof. reflexivity. Qed.

Example extract_vocab_negative :
  UtilsText.extract_vocab (Some (py "apple banana cherry")) (-1)
  = map py ["apple"; "banana"]%string.
Proof. reflexivity. Qed.

(** ** The callers in main.py *)

Module MainFacts.
Import Ranking QuestionGenerator RandomFacts RankingFacts KeywordFacts.
Import FillBlankFacts MultipleChoiceFacts OrchestratorFacts.
Import Extraction ExtractorFacts Main.
Section Endpoints.

Context `{nltk : Nltk} `{readers : Readers}.

Lemma generate_all_total text (config : gmap string Z) r nv nf nm nr :
  config !! "vocabulary"%string = Some nv ->
  config !! "fill_blank"%string = Some nf ->
  config !! "multiple_choice"%string = Some nm ->
  config !! "reading_comprehension"%string = Some nr ->
  (0 <= nf)%Z ->
  exists f m r',
    generate_all_questions text (Some config) r
    = Ok (all_questions (generate_vocabulary_questions text nv) f m
            (generate_reading_comprehension text nr), r')
    /\ length f <= Z.to_nat nf /\ length m <= Z.to_nat nm.
Proof.
  intros Hv Hf Hm Hr Hnf.
  destruct (generate_fill_blank_length text nf r Hnf)
    as (f & r1 & Hgf & Hf1 & _).
  destruct (generate_multiple_choice_total text nm r1)
    as (m & r2 & Hgm & Hm1 & _).
  exists f, m, r2. split; [|done].
  rewrite generate_all_unfold.
  rewrite (bind_Ok _ _ _ _ _ (getitem_Some _ _ _ r Hv)).
  rewrite (bind_Ok _ _ _ _ _ (getitem_Some _ _ _ r Hf)).
  rewrite (bind_Ok _ _ _ _ _ Hgf).
  rewrite (bind_Ok _ _ _ _ _ (getitem_Some _ _ _ r1 Hm)).
  rewrite (bind_Ok _ _ _ _ _ Hgm).
  rewrite (bind_Ok _ _ _ _ _ (getitem_Some _ _ _ r2 Hr)).
  reflexivity.
Qed.

Lemma all_questions_size v f m rc : size (all_questions v f m rc) = 4.
Proof.
  unfold all_questions.
  rewrite !map_size_insert_None, map_size_empty; [done|..];
    by rewrite ?lookup_insert_ne, lookup_empty.
Qed.

Lemma all_questions_multiple_choice v f m rc :
  all_questions v f m rc !! "multiple_choice"%string = Some m.
Proof.
  unfold all_questions.
  rewrite !lookup_insert_ne by done. by rewrite lookup_insert_eq.
Qed.

Lemma extract_allowed file_path file_type :
  In file_type allowed_types ->
  exists text, extract_text_from_file file_path file_type = Ok text.
Proof.
  intros [<-|[<-|[<-|[]]]]; eexists; reflexivity.
Qed.

(** X19: [upload_lecture_with_questions] answers 400 exactly for a file
    name whose detected type is not ['pdf'], ['docx'] or ['pptx'].
    Otherwise it never fails on the pipeline: it stores the first 5000
    characters of the extracted text when questions are asked for and the
    text is not empty, and the number it reports as [questions_generated]
    is 4 (the number of question types) when the text has 50 characters or
    more and 0 otherwise, never the number of questions. *)
Theorem upload_lecture_spec (filename file_path : str)
  (generate_questions : bool) (r : rng) :
  let file_type := detect_file_type filename in
  (~ In file_type allowed_types ->
     upload_lecture_with_questions filename file_path generate_questions r
     = HTTPException 400)
  /\ (In file_type allowed_types ->
      exists text,
        extract_text_from_file file_path file_type = Ok text
        /\ upload_lecture_with_questions filename file_path
             generate_questions r
           = Done {| upload_file_type := file_type;
                     upload_extracted_text :=
                       if generate_questions && (0 <? length text)
                       then Some (take 5000 text) else None;
                     upload_questions_generated :=
                       if generate_questions && (50 <=? length text)
                       then 4 else 0 |}).
Proof.
  intros file_type. unfold upload_lecture_with_questions. fold file_type.
  split.
  - intros Hn. apply mem_not_In in Hn. by rewrite Hn.
  - intros Hin. destruct (extract_allowed file_path file_type Hin)
      as [text Htext].
    exists text. split; [done|]. apply mem_In in Hin. rewrite Hin.
    cbn [negb]. destruct generate_questions; cbn [andb]; [|reflexivity].
    unfold upload_generation. rewrite Htext.
    destruct text as [|c text]; [reflexivity|].
    change (0 <? length (c :: text)) with true.
    destruct (length (c :: text) <? 50) eqn:Hlen.
    + apply Nat.ltb_lt in Hlen.
      assert (Hb : (50 <=? length (c :: text)) = false)
        by (apply Nat.leb_gt; lia).
      rewrite Hb. reflexivity.
    + apply Nat.ltb_ge in Hlen.
      assert (Hb : (50 <=? length (c :: text)) = true)
        by (apply Nat.leb_le; lia).
      rewrite Hb.
      destruct (generate_all_total (c :: text) upload_config r 5 5 10 3)
        as (f & m & r' & Hgen & _); [reflexivity..|lia|].
      rewrite Hgen. by rewrite all_questions_size.
Qed.

(** X20: [auto_generate_assignment] asks for [num_questions // 2]
    questions of each type named in [question_types] and for no vocabulary
    or reading question. For [num_questions >= 0], or when ['fill_blank']
    is not named, the generation returns and at most [num_questions // 2]
    questions are saved, none unless ['multiple_choice'] is named; for a
    negative [num_questions] with ['fill_blank'] named it raises
    ValueError. *)
Theorem auto_generate_spec (combined_text : str) (num_questions : Z)
  (question_types : str) (r : rng) :
  let named t := mem (py t) (split "," question_types) in
  ((0 <= num_questions)%Z \/ named "fill_blank"%string = false ->
     exists f m r',
       auto_generate_questions combined_text num_questions question_types r
       = Ok (all_questions [] f m [], r')
       /\ total_saved (all_questions [] f m []) = length m
       /\ length m <= Z.to_nat (num_questions / 2)
       /\ length f <= Z.to_nat (num_questions / 2)
       /\ (named "multiple_choice"%string = false -> m = [])
       /\ (named "fill_blank"%string = false -> f = []))
  /\ ((num_questions < 0)%Z -> named "fill_blank"%string = true ->
      auto_generate_questions combined_text num_questions question_types r
      = Raise ValueError).
Proof.
  intros named. unfold auto_generate_questions.
  set (config := auto_generate_config num_questions question_types).
  set (nf := if named "fill_blank"%string
             then (num_questions / 2)%Z else 0%Z).
  set (nm := if named "multiple_choice"%string
             then (num_questions / 2)%Z else 0%Z).
  assert (Hv : config !! "vocabulary"%string = Some 0%Z) by reflexivity.
  assert (Hf : config !! "fill_blank"%string = Some nf).
  { unfold config, auto_generate_config.
    rewrite lookup_insert_ne by done. by rewrite lookup_insert_eq. }
  assert (Hm : config !! "multiple_choice"%string = Some nm).
  { unfold config, auto_generate_config.
    rewrite !lookup_insert_ne by done. by rewrite lookup_insert_eq. }
  assert (Hr : config !! "reading_comprehension"%string = Some 0%Z).
  { unfold config, auto_generate_config.
    rewrite !lookup_insert_ne by done. by rewrite lookup_insert_eq. }
  split.
  - intros Hok.
    assert (Hnf : (0 <= nf)%Z).
    { unfold nf. destruct (named "fill_blank"%string); [|lia].
      destruct Hok as [Hok|Hok]; [|discriminate Hok].
      by apply Z.div_pos. }
    destruct (generate_all_total combined_text config r 0 nf nm 0
                Hv Hf Hm Hr Hnf) as (f & m & r' & Hgen & Hlf & Hlm).
    assert (Hvoc : generate_vocabulary_questions combined_text 0 = []).
    { apply length_zero_iff_nil.
      pose proof (generate_vocabulary_length combined_text 0) as [H0 _].
      change (Z.to_nat 0) with 0 in H0. lia. }
    assert (Hread : generate_reading_comprehension combined_text 0 = []).
    { apply length_zero_iff_nil.
      pose proof (generate_reading_length combined_text 0) as [H0 _].
      change (Z.to_nat 0) with 0 in H0. lia. }
    rewrite Hvoc, Hread in Hgen.
    exists f, m, r'. split; [exact Hgen|].
    split; [unfold total_saved; by rewrite all_questions_multiple_choice|].
    assert (Hz : forall b : bool,
              Z.to_nat (if b then (num_questions / 2)%Z else 0%Z)
              <= Z.to_nat (num_questions / 2)).
    { intros []; lia. }
    split; [etransitivity; [exact Hlm|apply Hz]|].
    split; [etransitivity; [exact Hlf|apply Hz]|].
    split.
    + intros Hno. unfold nm in Hlm. rewrite Hno in Hlm.
      apply length_zero_iff_nil. simpl in Hlm. lia.
    + intros Hno. unfold nf in Hlf. rewrite Hno in Hlf.
      apply length_zero_iff_nil. simpl in Hlf. lia.
  - intros Hneg Hfb.
    assert (Hnf : (nf < 0)%Z).
    { unfold nf. rewrite Hfb. apply Z.div_lt_upper_bound; lia. }
    rewrite generate_all_unfold.
    rewrite (bind_Ok _ _ _ _ _ (getitem_Some _ _ _ r Hv)).
    rewrite (bind_Ok _ _ _ _ _ (getitem_Some _ _ _ r Hf)).
    by rewrite (bind_Raise _ _ _ _
                  (generate_fill_blank_negative combined_text nf r Hnf)).
Qed.

End Endpoints.
End MainFacts.

(** ** More properties at concrete inputs *)

Example extract_text_from_pdf_run :
  Extraction.extract_text_from_pdf (py "slides.pdf")
  = py "Reading skills Listening speaking"
  /\ Extraction.extract_text_from_pdf (py "scan.pdf") = py "Scanned page".
Proof. split; reflexivity. Qed.

Example extract_text_from_file_run :
  Extraction.extract_text_from_file (py "notes.docx") (py "docx")
  = Ok (py "First paragraph. Second one.")
  /\ Extraction.extract_text_from_file (py "broken.docx") (py "doc")
     = Ok (py "")
  /\ Extraction.extract_text_from_file (py "table.csv") (py "csv")
     = Raise ValueError.
Proof. repeat split; reflexivity. Qed.

Example detect_file_type_run :
  map Extraction.detect_file_type
    (map py ["Report.PDF"; "a.b/notes"; "archive.tar.gz"; ".pdf";
             "old.doc"; "marks.XLSX"; "deck.ppt"]%string)
  = map py ["pdf"; "unknown"; "unknown"; "unknown"; "docx"; "excel";
            "pptx"]%string.
Proof. reflexivity. Qed.

(** X5 at one long sentence and a count of two. *)
Lemma fill_blank_originals_witness :
  (0 <= 2)%Z /\
  exists selected r1 qs r' rest,
    QuestionGenerator.select_sentences
      (py "The quick brown fox jumps over the lazy dog today. It rains.")
      2 (Plain.draws [0; 1]) = Ok (selected, r1)
    /\ QuestionGenerator.generate_fill_blank_questions
         (py "The quick brown fox jumps over the lazy dog today. It rains.")
         2 (Plain.draws [0; 1]) = Ok (qs, r')
    /\ originals qs = List.filter has_content selected
    /\ length qs = length (originals qs)
    /\ Permutation (originals qs ++ rest)
         (QuestionGenerator.long_sentences
            (py "The quick brown fox jumps over the lazy dog today. It rains.")).
Proof.
  split; [lia|].
  apply (SynthesizerFacts.fill_blank_originals (nltk := Plain.nltk)). lia.
Defined.

(** X6 at a count of [-1]. *)
Lemma negative_counts_witness :
  (-1 < 0)%Z /\
  QuestionGenerator.generate_vocabulary_questions
    (py "Birds sing. Birds fly.") (-1) = []
  /\ QuestionGenerator.generate_fill_blank_questions
       (py "Birds sing. Birds fly.") (-1) (Plain.draws [0])
     = Raise ValueError.
Proof.
  split; [lia|].
  destruct (SynthesizerFacts.negative_counts (nltk := Plain.nltk)
              (py "Birds sing. Birds fly.") (-1) (Plain.draws [0]))
    as (Hv & _ & _ & Hf & _); [lia|].
  by split.
Defined.

(** X7 at a plain sentence. *)
Lemma fill_blank_prompt_witness :
  contains blank_marker
    (py "The quick _____ fox jumps over the lazy dog today.") = true
  /\ py "The quick _____ fox jumps over the lazy dog today."
     <> py "The quick brown fox jumps over the lazy dog today."
  /\ length (py "The quick _____ fox jumps over the lazy dog today.")
     + length (py "brown")
     = length (py "The quick brown fox jumps over the lazy dog today.") + 5.
Proof.
  destruct (QuestionGenerator.generate_fill_blank_questions
              (py "The quick brown fox jumps over the lazy dog today.") 1
              (Plain.draws [0; 1])) as [[qs r']|e] eqn:Hgen;
    [|discriminate Hgen].
  apply (SynthesizerFacts.fill_blank_prompt (nltk := Plain.nltk)
           (py "The quick brown fox jumps over the lazy dog today.") 1
           (Plain.draws [0; 1]) r' qs
           (py "The quick _____ fox jumps over the lazy dog today.")
           (py "brown")
           (py "The quick brown fox jumps over the lazy dog today.")).
  - exact Hgen.
  - revert Hgen. vm_compute. intros [= <- _]. by left.
  - reflexivity.
Defined.

(** X8 at a text between a tab and a line end. *)
Lemma clean_text_surrounding_witness :
  FileParser.clean_text (["009"%char; " "%char] ++ py "a  b" ++ ["010"%char])
  = FileParser.clean_text (py "a  b").
Proof.
  apply NormalizerFacts.clean_text_surrounding.
  - repeat constructor.
  - repeat constructor.
Defined.

(** X11 at [uploads/Report.PDF]. *)
Lemma detect_file_type_extension_witness :
  Paths.splitext (py "uploads/" ++ py "Report" ++ "."%char :: py "PDF")
  = (py "uploads/" ++ py "Report", "."%char :: py "PDF")
  /\ Extraction.detect_file_type
       (py "uploads/" ++ py "Report" ++ "."%char :: py "PDF")
     = py "pdf".
Proof.
  destruct (ExtractionFacts.detect_file_type_extension
              (py "uploads/") (py "Report") (py "PDF") (py "pdf"))
    as (Hs & Ht & _).
  - right. by exists (py "uploads").
  - vm_compute. intuition discriminate.
  - vm_compute. intuition discriminate.
  - vm_compute. intuition discriminate.
  - reflexivity.
  - split; [exact Hs|]. apply Ht. vm_compute. tauto.
Defined.

(** X12 at [uploads/.pdf]. *)
Lemma detect_file_type_hidden_witness :
  Extraction.detect_file_type (py "uploads/" ++ py "." ++ py "pdf")
  = py "unknown".
Proof.
  apply ExtractionFacts.detect_file_type_hidden.
  - right. by exists (py "uploads").
  - discriminate.
  - repeat constructor.
  - vm_compute. intuition discriminate.
  - vm_compute. intuition discriminate.
Defined.

Example upload_lecture_run :
  Main.upload_lecture_with_questions (py "slides.pdf") (py "slides.pdf")
    true (Plain.draws [0])
  = Done {| upload_file_type := py "pdf";
            upload_extracted_text :=
              Some (py "Reading skills Listening speaking");
            upload_questions_generated := 0 |}
  /\ Main.upload_lecture_with_questions (py "marks.xlsx") (py "marks.xlsx")
       true (Plain.draws [0])
     = HTTPException 400.
Proof. split; reflexivity. Qed.

Module SelectionFacts.
Import QuestionGenerator FillBlankFacts SynthesizerFacts KeywordFacts.
Section Selection.

Context `{nltk : Nltk}.

(** X21: in every emitted fill-blank question the original sentence is a
    sentence of the text with more than 8 tokens, and the answer is one of
    its tokens, alphabetic and of four characters or more. *)
Theorem fill_blank_answer_token (text : str) (n : Z) (r r' : rng)
  (qs : list question) (prompt answer sentence : str) :
  generate_fill_blank_questions text n r = Ok (qs, r') ->
  In (FillBlank prompt answer sentence) qs ->
  In sentence (sent_tokenize text)
  /\ 8 < length (word_tokenize sentence)
  /\ In answer (word_tokenize sentence)
  /\ isalpha answer = true
  /\ 4 <= length answer.
Proof.
  intros Hgen Hq.
  destruct (generate_fill_blank_emitted _ _ _ _ _ _ Hgen Hq)
    as (s & Hs & a & Ha & Hok & Heq).
  injection Heq as -> -> ->.
  apply long_sentences_In in Hs as [Hs Hlen].
  unfold content_ok in Hok. apply andb_true_iff in Hok as [Halpha Hl].
  apply Nat.ltb_lt in Hl. repeat split; done || lia.
Qed.

(** X22: the ranking cut at a smaller [top_k] is the beginning of the
    ranking cut at a larger one. *)
Theorem extract_keywords_prefix (text : str) (k k' : Z) :
  (k <= k')%Z ->
  extract_keywords text k = take (Z.to_nat k) (extract_keywords text k').
Proof. apply extract_keywords_take. Qed.

End Selection.
End SelectionFacts.

(** X21 at a plain sentence. *)
Lemma fill_blank_answer_token_witness :
  In (py "The quick brown fox jumps over the lazy dog today.")
     (sent_tokenize (py "The quick brown fox jumps over the lazy dog today."))
  /\ 8 < length (word_tokenize
                   (py "The quick brown fox jumps over the lazy dog today."))
  /\ In (py "brown")
        (word_tokenize
           (py "The quick brown fox jumps over the lazy dog today."))
  /\ isalpha (py "brown") = true
  /\ 4 <= length (py "brown").
Proof.
  destruct (QuestionGenerator.generate_fill_blank_questions
              (py "The quick brown fox jumps over the lazy dog today.") 1
              (Plain.draws [0; 1])) as [[qs r']|e] eqn:Hgen;
    [|discriminate Hgen].
  apply (SelectionFacts.fill_blank_answer_token (nltk := Plain.nltk)
           (py "The quick brown fox jumps over the lazy dog today.") 1
           (Plain.draws [0; 1]) r' qs
           (py "The quick _____ fox jumps over the lazy dog today.")
           (py "brown")
           (py "The quick brown fox jumps over the lazy dog today.")).
  - exact Hgen.
  - revert Hgen. vm_compute. intros [= <- _]. by left.
Defined.

(** X22 at cuts of one and three. *)
Lemma extract_keywords_prefix_witness :
  (1 <= 3)%Z /\
  QuestionGenerator.extract_keywords
    (py "Birds sing. Birds fly high. Clouds sing.") 1
  = take (Z.to_nat 1)
      (QuestionGenerator.extract_keywords
         (py "Birds sing. Birds fly high. Clouds sing.") 3).
Proof.
  split; [lia|].
  apply (SelectionFacts.extract_keywords_prefix (nltk := Plain.nltk)). lia.
Defined.
